(** * WebRTS client: a shallow embedding of the ingest, adaptation and
    muxing core, with the properties of its specification.

    Classes embedded here (TypeScript), module by module:
    - [Source]             timestamp repair, ingest, close, start of
                           the stream ([_onSample], [_updateTrack]),
                           first rendition ([_autoFirstTrack])
    - [Player]             buffer state machine ([_onTimeUpdate]),
                           buffer limits
    - [HTTPAdaptiveSource] sequence skip, bandwidth emulation, choice
                           of the rendition, responses ([_play],
                           [_downloadSequence])
    - [AdaptiveRetry]      rendition-up gate
    - [MediaTrack], [Metadata]  track normalisation ([fix]), [subset]
    - [Samples]            samples kept before the stream starts
    - [MediaPlayback]      buffers of a playback, [close]
    - [RTSReader], [Reader]     RTS demultiplexer
    - [CMAFWriter]         CMAF fragment writer

    Conventions.  A JavaScript [number] holding a millisecond time, a
    duration, a byte rate, a sequence id or a track id is a [Z]: these
    are whole numbers in the data model, and the 32-bit operators ([>>],
    [&], [DataView.setUint32]) have their wrap-around written out.  An
    optional field ([x?: T], [undefined]) is an [option].  An object that
    is mutated in place is passed in and returned; objects that are
    shared through references (the tracks of a [Metadata]) live in an
    explicit heap.  Events fired and log lines are collected in a trace,
    oldest first.  The wall clock ([Util.time()]) and the answers of the
    network are arguments.  Where a claim depends on it, an exception is
    a result of its own ([Thrown], [Throw]) that carries the state left
    behind; what a handler does, and whether a payload parses as JSON,
    are arguments too ([Start.Handled], [decodes]). *)

From Stdlib Require Import ZArith Lia Bool List String Ascii Sorting.Sorted Permutation.
From stdpp Require Import base option list gmap.
Import ListNotations.

Local Open Scope Z_scope.

(** ** Media.ts *)

Module Media.

(** [enum Type { DATA = 0, AUDIO = 1, VIDEO = 2 }] *)
Inductive Type_ : Set := DATA | AUDIO | VIDEO.

Definition Type_eqb (a b : Type_) : bool :=
  match a, b with
  | DATA, DATA | AUDIO, AUDIO | VIDEO, VIDEO => true
  | _, _ => false
  end.

(** [type Sample]: [data] is the payload, one [Z] in [0, 255] per byte. *)
Record Sample : Type := mkSample {
  time : Z;
  duration : Z;
  data : list Z;
  compositionOffset : option Z;
  isKeyFrame : option bool;
  subSamples : option (list (Z * Z))  (* clearBytes, encryptedBytes *)
}.

(** [type Tracks = { audio?: number; video?: number }] *)
Record Tracks : Type := mkTracks {
  audio : option Z;
  video : option Z
}.

Definition noTracks : Tracks := mkTracks None None.

(** [type Resolution = { width: number; height: number }] *)
Record Resolution : Type := mkResolution {
  width : Z;
  height : Z
}.

(** [overScreenSize(resolution, screen?)] *)
Definition overScreenSize (resolution : Resolution) (screen : option Resolution) : bool :=
  match screen with
  | Some sc => (height resolution >? height sc) && (width resolution >? width sc)
  | None => false
  end.

(** [enum Codec] *)
Inductive Codec : Set := UNKNOWN | H264 | HEVC | MP3 | AAC.

End Media.

(** ** Source.ts *)

Module Source.

Definition TIMESTAMP_HOLE_TOLERANCE : Z := 7.

Inductive SourceError : Type :=
| UnexpectedSourceIssue (detail : string)
| RequestError (detail : string)
| MalformedPayload (detail : string)
| ResourceUnavailable
| ReaderError (name : string)
| WebSocketReliableError (name : string).

(** What the Source fires or logs while running. *)
Inductive Event : Type :=
| LogTimestampFix (warn : bool) (type : Media.Type_) (trackId from to : Z)
| LogFixLiveTime (warn : bool) (amount : Z)
| LogExtendsVideo (trackId from to : Z)
| LogDisabledTrack (type : Media.Type_) (trackId : Z)
| OnAudioSkipping (delta : Z)
| OnVideoSkipping (delta : Z)
| OnData (trackId time : Z)
| ClearTimeout (handle : option nat)
| OnClose (error : option SourceError).

(** The live clock of a [Metadata]: [liveTime] is read against the
    wall clock [now] ([Util.time()]) and written together with it. *)
Record LiveClock : Type := mkLiveClock {
  _liveTimeValue : Z;
  _liveTimeWhen : Z
}.

Definition liveTime (now : Z) (m : LiveClock) : Z :=
  _liveTimeValue m + (now - _liveTimeWhen m).

Definition set_liveTime (now value : Z) : LiveClock :=
  mkLiveClock value now.

(** The fields of [Source] read or written by the methods below. *)
Record t : Type := mk {
  _closed : bool;
  _metadata : option LiveClock;
  _tracks : Media.Tracks;
  _selectedTracks : Media.Tracks;
  _firstSamples : option (list (Z * Media.Sample));
  _audioTime : Z;
  _videoTime : Z;
  _dataTime : Z;
  _lastStalls : Z;
  _trackRequest : option nat;
  _fixLiveTime : Z;
  trace : list Event
}.

(** [constructor]: the three times start at [-1], nothing is closed. *)
Definition new : t :=
  mk false None Media.noTracks Media.noTracks (Some []) (-1) (-1) (-1) 0 None 0 [].

Definition emit (evs : list Event) (s : t) : t :=
  mk (_closed s) (_metadata s) (_tracks s) (_selectedTracks s) (_firstSamples s)
     (_audioTime s) (_videoTime s) (_dataTime s) (_lastStalls s) (_trackRequest s)
     (_fixLiveTime s) (trace s ++ evs).

Definition set_live (m : option LiveClock) (fixLive : Z) (s : t) : t :=
  mk (_closed s) m (_tracks s) (_selectedTracks s) (_firstSamples s)
     (_audioTime s) (_videoTime s) (_dataTime s) (_lastStalls s) (_trackRequest s)
     fixLive (trace s).

Definition set_audioTime (v : Z) (s : t) : t :=
  mk (_closed s) (_metadata s) (_tracks s) (_selectedTracks s) (_firstSamples s)
     v (_videoTime s) (_dataTime s) (_lastStalls s) (_trackRequest s)
     (_fixLiveTime s) (trace s).

Definition set_videoTime (v : Z) (s : t) : t :=
  mk (_closed s) (_metadata s) (_tracks s) (_selectedTracks s) (_firstSamples s)
     (_audioTime s) v (_dataTime s) (_lastStalls s) (_trackRequest s)
     (_fixLiveTime s) (trace s).

Definition set_dataTime (v : Z) (s : t) : t :=
  mk (_closed s) (_metadata s) (_tracks s) (_selectedTracks s) (_firstSamples s)
     (_audioTime s) (_videoTime s) v (_lastStalls s) (_trackRequest s)
     (_fixLiveTime s) (trace s).

(** [get currentTime()]: [Math.max(_audioTime, _videoTime, _dataTime)] *)
Definition currentTime (s : t) : Z :=
  Z.max (Z.max (_audioTime s) (_videoTime s)) (_dataTime s).

(** The argument of [fixTimestamp]: [{ time: number; duration?: number }]. *)
Record Stamp : Type := mkStamp {
  time : Z;
  duration : option Z
}.

(** The test that guards the repair:
    [type === DATA ? delta < 0 : type !== AUDIO || delta < TIMESTAMP_HOLE_TOLERANCE] *)
Definition repairs (type : Media.Type_) (delta : Z) : bool :=
  if Media.Type_eqb type Media.DATA then delta <? 0
  else negb (Media.Type_eqb type Media.AUDIO) || (delta <? TIMESTAMP_HOLE_TOLERANCE).

(** The liveTime part at the end of [fixTimestamp]. *)
Definition fixLive (now currentTime : Z) (s : t) : t :=
  match _metadata s with
  | Some m =>
      let fixLiveTime := currentTime - liveTime now m in
      if 0 <? fixLiveTime then
        set_live (Some (set_liveTime now (liveTime now m + fixLiveTime)))
                 (_fixLiveTime s + fixLiveTime) s
      else if negb (_fixLiveTime s =? 0) then
        set_live (_metadata s) 0
                 (emit [LogFixLiveTime (5 <? _fixLiveTime s) (_fixLiveTime s)] s)
      else s
  | None => s
  end.

(** [fixTimestamp(type, trackId, currentTime, sample)]: returns the new
    per-kind current time, the sample as the call leaves it, and the
    Source. *)
Definition fixTimestamp (now : Z) (type : Media.Type_) (trackId currentTime : Z)
    (sample : Stamp) (s : t) : Z * Stamp * t :=
  let delta := if 0 <=? currentTime then time sample - currentTime else 0 in
  let '(sample1, s1) :=
    if negb (delta =? 0) && repairs type delta then
      let newDuration :=
        match duration sample with
        | Some d => Z.max 1 (d + delta)
        | None => 0
        end in
      let s1 :=
        if TIMESTAMP_HOLE_TOLERANCE <? Z.abs delta
        then emit [LogTimestampFix (delta <? 0) type trackId (time sample) currentTime] s
        else s in
      (mkStamp currentTime
               (if negb (newDuration =? 0) then Some newDuration else duration sample),
       s1)
    else (sample, s) in
  let s2 :=
    if 0 <? delta then
      match type with
      | Media.AUDIO => emit [OnAudioSkipping delta] s1
      | Media.VIDEO => emit [OnVideoSkipping delta] s1
      | Media.DATA => s1
      end
    else s1 in
  let currentTime' := time sample1 + default 0 (duration sample1) in
  (currentTime', sample1, fixLive now currentTime' s2).

Definition stamp_of (sample : Media.Sample) : Stamp :=
  mkStamp (Media.time sample) (Some (Media.duration sample)).

(** Writes the repaired time and duration back into the sample object. *)
Definition restamp (st : Stamp) (sample : Media.Sample) : Media.Sample :=
  Media.mkSample (time st) (default (Media.duration sample) (duration st))
    (Media.data sample) (Media.compositionOffset sample)
    (Media.isKeyFrame sample) (Media.subSamples sample).

Definition set_duration (d : Z) (sample : Media.Sample) : Media.Sample :=
  Media.mkSample (Media.time sample) d
    (Media.data sample) (Media.compositionOffset sample)
    (Media.isKeyFrame sample) (Media.subSamples sample).

(** [readAudio(trackId, sample?)], up to the hand-over of the sample to
    [_onSample] (the sample handed over is returned; the receive-rate
    counters are left out). *)
Definition readAudio (now trackId : Z) (sample : option Media.Sample) (s : t)
    : option Media.Sample * t :=
  match sample with
  | Some smp =>
      if trackId <? 0 then (None, emit [LogDisabledTrack Media.AUDIO trackId] s)
      else
        let '(ct, st, s1) :=
          fixTimestamp now Media.AUDIO trackId (_audioTime s) (stamp_of smp) s in
        (Some (restamp st smp), set_audioTime ct s1)
  | None => (None, s)
  end.

(** [readVideo(trackId, sample?)], up to the hand-over to [_onSample]. *)
Definition readVideo (now trackId : Z) (sample : option Media.Sample) (s : t)
    : option Media.Sample * t :=
  match sample with
  | Some smp =>
      if trackId <? 0 then (None, emit [LogDisabledTrack Media.VIDEO trackId] s)
      else
        (* extendable duration *)
        let extendableDuration :=
          if Media.duration smp <? 0 then Some (- Media.duration smp) else None in
        let smp0 :=
          match extendableDuration with
          | Some d => set_duration d smp
          | None => smp
          end in
        let '(ct, st, s1) :=
          fixTimestamp now Media.VIDEO trackId (_videoTime s) (stamp_of smp0) s in
        let s2 := set_videoTime ct s1 in
        let smp1 := restamp st smp0 in
        let delay := currentTime s2 - _videoTime s2 in
        match extendableDuration with
        | Some d =>
            if negb (d =? 0) && (0 <? delay) then
              let smp2 := set_duration (Media.duration smp1 + delay) smp1 in
              (Some smp2,
               emit [LogExtendsVideo trackId (Media.duration smp1) (Media.duration smp2);
                     OnVideoSkipping delay]
                    (set_videoTime (currentTime s2) s2))
            else (Some smp1, s2)
        | None => (Some smp1, s2)
        end
  | None => (None, s)
  end.

(** [readData(trackId, time, data)]: the payload itself is not modelled. *)
Definition readData (now trackId time : Z) (s : t) : t :=
  if negb (_closed s) then
    let '(ct, st, s1) :=
      fixTimestamp now Media.DATA trackId (_dataTime s) (mkStamp time None) s in
    emit [OnData trackId (Source.time st)] (set_dataTime ct s1)
  else s.

(** ASCII [toLowerCase]. *)
Definition lower (c : ascii) : ascii :=
  let n := nat_of_ascii c in
  if (Nat.leb 65 n && Nat.leb n 90)%bool then ascii_of_nat (n + 32) else c.

Fixpoint toLowerCase (s : string) : string :=
  match s with
  | EmptyString => EmptyString
  | String c r => String (lower c) (toLowerCase r)
  end.

(** The error handed to [onClose]: a request error of an unavailable
    stream becomes "Resource unavailable". *)
Definition morph (error : option SourceError) : option SourceError :=
  match error with
  | Some (RequestError detail) =>
      let detail := toLowerCase detail in
      if String.prefix "stream open failed" detail || String.prefix "404" detail
      then Some ResourceUnavailable
      else error
  | _ => error
  end.

(** [close(error?)] *)
Definition close (error : option SourceError) (s : t) : t :=
  if _closed s then s
  else
    mk true (_metadata s) Media.noTracks Media.noTracks None
       (_audioTime s) (_videoTime s) (_dataTime s) 0 (_trackRequest s)
       (_fixLiveTime s)
       (trace s ++ [ClearTimeout (_trackRequest s); OnClose (morph error)]).

End Source.

(** ** Player.ts: the buffer state machine *)

Module Player.

(** [enum BufferState] (IPlaying.ts) *)
Inductive BufferState : Set := NONE | LOW | OK | HIGH.

Definition BufferState_eqb (a b : BufferState) : bool :=
  match a, b with
  | NONE, NONE | LOW, LOW | OK, OK | HIGH, HIGH => true
  | _, _ => false
  end.

Definition BUFFER_LIMIT_LOW : Z := 150.
Definition BUFFER_LIMIT_HIGH : Z := 550.

Inductive Event : Type :=
| OnBufferState (oldState : BufferState)
| TryToPlay.

(** The fields of [Player] the state machine reads or writes;
    [_playback] and [_source] only say whether the object is there. *)
Record t : Type := mk {
  _playback : bool;
  _source : bool;
  _bufferState : BufferState;
  _buffering : bool;
  _bufferLimitLow : Z;
  _bufferLimitMiddle : Z;
  _bufferLimitHigh : Z;
  trace : list Event
}.

(** [Math.round] of a half-integer [d / 2]: rounds half up. *)
Definition round_half (d : Z) : Z := (d + 1) / 2.

(** [set bufferLimitHigh(value)] *)
Definition set_bufferLimitHigh (value : Z) (p : t) : t :=
  let low := Z.min value (_bufferLimitLow p) in
  mk (_playback p) (_source p) (_bufferState p) (_buffering p)
     low (Z.max 0 (low + round_half (value - low))) value (trace p).

(** [set bufferLimitLow(value)] *)
Definition set_bufferLimitLow (value : Z) (p : t) : t :=
  set_bufferLimitHigh (Z.max value (_bufferLimitHigh p))
    (mk (_playback p) (_source p) (_bufferState p) (_buffering p)
        value (_bufferLimitMiddle p) (_bufferLimitHigh p) (trace p)).

(** [constructor] *)
Definition new : t :=
  set_bufferLimitHigh BUFFER_LIMIT_HIGH
    (mk false false NONE false BUFFER_LIMIT_LOW 0 BUFFER_LIMIT_HIGH []).

Definition emit (evs : list Event) (p : t) : t :=
  mk (_playback p) (_source p) (_bufferState p) (_buffering p)
     (_bufferLimitLow p) (_bufferLimitMiddle p) (_bufferLimitHigh p) (trace p ++ evs).

(** [_setBufferState(state)] *)
Definition _setBufferState (state : BufferState) (p : t) : t :=
  let oldState := _bufferState p in
  if negb (BufferState_eqb oldState state) then
    mk (_playback p) (_source p) state (_buffering p)
       (_bufferLimitLow p) (_bufferLimitMiddle p) (_bufferLimitHigh p)
       (trace p ++ [OnBufferState oldState])
  else p.

(** [_onTimeUpdate()], where [bufferAmount] is what the getter returns
    when the method reads it (after the removal of the obsolete
    buffer); the playback-speed measure is left out. *)
Definition _onTimeUpdate (bufferAmount : Z) (p : t) : t :=
  if negb (_playback p) || negb (_source p) then p
  else if BufferState_eqb (_bufferState p) NONE && _buffering p then p
  else if bufferAmount >? _bufferLimitLow p then
    let p1 := emit [TryToPlay] p in
    if bufferAmount >? _bufferLimitHigh p1 then _setBufferState HIGH p1
    else if (if BufferState_eqb (_bufferState p1) LOW
             then bufferAmount >? _bufferLimitMiddle p1
             else bufferAmount <? _bufferLimitMiddle p1)
    then _setBufferState OK p1
    else p1
  else _setBufferState LOW p.

End Player.

(** ** AdaptiveRetry.ts *)

Module AdaptiveRetry.

Definition LEARNING_TRY_STEP : Z := 3000.
Definition MAXIMUM_TRY_DELAY : Z := 30000.

Record t : Type := mk {
  learningTryStep : Z;
  maximumTryDelay : Z;
  _tryDelay : Z;
  _appreciationTime : Z;
  _success : bool
}.

(** [reset()] *)
Definition reset (r : t) : t :=
  mk (learningTryStep r) (maximumTryDelay r) (learningTryStep r) 0 false.

(** [new AdaptiveRetry()] *)
Definition new : t :=
  reset (mk LEARNING_TRY_STEP MAXIMUM_TRY_DELAY 0 0 false).

(** [increase()] *)
Definition increase (r : t) : t :=
  mk (learningTryStep r) (maximumTryDelay r)
     (Z.min (_tryDelay r + learningTryStep r) (maximumTryDelay r))
     (_appreciationTime r) (_success r).

(** [decrease()] *)
Definition decrease (r : t) : t :=
  mk (learningTryStep r) (maximumTryDelay r)
     (Z.max (_tryDelay r - learningTryStep r) (learningTryStep r))
     (_appreciationTime r) (_success r).

(** [try()], with [now = Util.time()]. *)
Definition try (now : Z) (r : t) : bool * t :=
  let r1 :=
    if _appreciationTime r =? 0 then
      let r0 := mk (learningTryStep r) (maximumTryDelay r) (_tryDelay r) now (_success r) in
      if _success r0 then decrease r0 else r0
    else r in
  let elapsed := now - _appreciationTime r1 in
  if elapsed <? _tryDelay r1 then (false, r1)
  else (true, mk (learningTryStep r1) (maximumTryDelay r1) (_tryDelay r1) 0 true).

(** [raise()] *)
Definition raise (r : t) : t :=
  let r0 := mk (learningTryStep r) (maximumTryDelay r) (_tryDelay r) 0 (_success r) in
  if _success r0
  then increase (mk (learningTryStep r0) (maximumTryDelay r0) (_tryDelay r0) 0 false)
  else r0.

End AdaptiveRetry.

(** ** MediaTrack.ts and Metadata.ts

    Tracks are objects shared between the [tracks] map, the three
    per-kind arrays and the [up]/[down] fields of other tracks: they live
    in a heap and are named by reference. *)

Module MediaTrack.

Definition ref : Type := nat.

(** The fields of [MediaTrack] that [Metadata.fix] and the adaptive
    source read or write. *)
Record t : Type := mk {
  id : Z;
  type : Media.Type_;
  codec : Media.Codec;
  bandwidth : Z;
  resolution : Media.Resolution;
  up : option ref;
  down : option ref
}.

(** [new MediaTrack(id)] *)
Definition new (id : Z) : t :=
  mk id Media.DATA Media.UNKNOWN 0 (Media.mkResolution 0 0) None None.

Definition set_up (u : option ref) (tr : t) : t :=
  mk (id tr) (type tr) (codec tr) (bandwidth tr) (resolution tr) u (down tr).

Definition set_down (d : option ref) (tr : t) : t :=
  mk (id tr) (type tr) (codec tr) (bandwidth tr) (resolution tr) (up tr) d.

#[export] Instance inhabited : Inhabited t := populate (new 0).

End MediaTrack.

Export (hints) MediaTrack.

Module Metadata.

Import MediaTrack.

Abbreviation heap := (gmap nat MediaTrack.t).

(** A [Map<number, MediaTrack>] keeps its keys in insertion order. *)
Abbreviation TrackMap := (list (Z * ref)).

Record t : Type := mk {
  tracks : TrackMap;
  audioTracks : list ref;
  videoTracks : list ref;
  dataTracks : list ref
}.

Definition map_has (id : Z) (m : TrackMap) : bool :=
  existsb (fun kv => fst kv =? id) m.

(** [Map.prototype.set]: an existing key keeps its place and takes the
    new value, a new key goes last. *)
Fixpoint map_set (id : Z) (r : ref) (m : TrackMap) : TrackMap :=
  match m with
  | [] => [(id, r)]
  | (k, v) :: m' => if k =? id then (k, r) :: m' else (k, v) :: map_set id r m'
  end.

(** [Map.prototype.get] *)
Fixpoint map_get (id : Z) (m : TrackMap) : option ref :=
  match m with
  | [] => None
  | (k, v) :: m' => if k =? id then Some v else map_get id m'
  end.

Definition bw (h : heap) (r : ref) : Z := bandwidth (h !!! r).

(** [tracks.sort((track1, track2) => track2.bandwidth - track1.bandwidth)]:
    [Array.prototype.sort] is stable; a track goes before the first one
    that does not have a larger bandwidth. *)
Fixpoint insert_desc (h : heap) (r : ref) (l : list ref) : list ref :=
  match l with
  | [] => [r]
  | x :: l' => if bw h x <=? bw h r then r :: x :: l' else x :: insert_desc h r l'
  end.

Fixpoint sort_desc (h : heap) (l : list ref) : list ref :=
  match l with
  | [] => []
  | r :: l' => insert_desc h r (sort_desc h l')
  end.

(** The state of the loop of [fix]. *)
Record Loop : Type := mkLoop {
  l_heap : heap;
  l_tracks : TrackMap;
  l_audio : list ref;
  l_video : list ref;
  l_data : list ref
}.

Definition medias (type : Media.Type_) (st : Loop) : list ref :=
  match type with
  | Media.AUDIO => l_audio st
  | Media.VIDEO => l_video st
  | Media.DATA => l_data st
  end.

Definition push (type : Media.Type_) (r : ref) (h : heap) (m : TrackMap) (st : Loop) : Loop :=
  match type with
  | Media.AUDIO => mkLoop h m (l_audio st ++ [r]) (l_video st) (l_data st)
  | Media.VIDEO => mkLoop h m (l_audio st) (l_video st ++ [r]) (l_data st)
  | Media.DATA => mkLoop h m (l_audio st) (l_video st) (l_data st ++ [r])
  end.

(** The links written for a track that enters the list [ms]:
    [track.down = undefined; track.up = medias[medias.length - 1];
     if (track.up) track.up.down = track]. *)
Definition link (r : ref) (ms : list ref) (h : heap) : heap :=
  let h1 := <[r := set_down None (h !!! r)]> h in
  let u := last ms in
  let h2 := <[r := set_up u (h1 !!! r)]> h1 in
  match u with
  | Some ur => <[ur := set_down (Some r) (h2 !!! ur)]> h2
  | None => h2
  end.

(** One turn of [for (const track of tracks)]. *)
Definition fix_step (st : Loop) (r : ref) : Loop :=
  let tr := l_heap st !!! r in
  if map_has (id tr) (l_tracks st) then
    (* the size did not change: continue *)
    mkLoop (l_heap st) (map_set (id tr) r (l_tracks st))
           (l_audio st) (l_video st) (l_data st)
  else
    push (type tr) r
         (link r (medias (type tr) st) (l_heap st))
         (map_set (id tr) r (l_tracks st)) st.

Definition collect (m : t) : list ref :=
  videoTracks m ++ audioTracks m ++ dataTracks m ++ map snd (tracks m).

(** The loop of [fix()]: [audioTracks] and [videoTracks] are emptied, [tracks] is
    cleared, [dataTracks] is left as it is. *)
Definition fix_loop (h : heap) (m : t) : Loop :=
  fold_left fix_step (sort_desc h (collect m))
            (mkLoop h [] [] [] (dataTracks m)).

(** [fix()] ([fix] is a keyword of Rocq). *)
Definition fix_ (h : heap) (m : t) : heap * t :=
  let st := fix_loop h m in
  (l_heap st, mk (l_tracks st) (l_audio st) (l_video st) (l_data st)).

(** *** What the lists of [fix] are expected to hold *)

(** The tracks of [l] in order, without those whose id is in [seen] or
    is the id of a track earlier in [l]: the first occurrence of each
    id. *)
Fixpoint firsts (h : heap) (seen : list Z) (l : list ref) : list ref :=
  match l with
  | [] => []
  | r :: l' =>
      if existsb (Z.eqb (id (h !!! r))) seen then firsts h seen l'
      else r :: firsts h (id (h !!! r) :: seen) l'
  end.

(** The tracks of one kind. *)
Definition ofType (h : heap) (K : Media.Type_) (l : list ref) : list ref :=
  List.filter (fun r => Media.Type_eqb (type (h !!! r)) K) l.

(** *** What the lists of [fix] are expected to satisfy *)

(** The neighbours of a track in its chain: a rendition up is not
    smaller and points back down, a rendition down is not larger and
    points back up. *)
Definition neighbours (h : heap) (r : ref) : Prop :=
  (forall u, up (h !!! r) = Some u -> bw h r <= bw h u /\ down (h !!! u) = Some r)
  /\ (forall d, down (h !!! r) = Some d -> bw h d <= bw h r /\ up (h !!! d) = Some r).

(** The same, with strict inequalities. *)
Definition strict_neighbours (h : heap) (r : ref) : Prop :=
  (forall u, up (h !!! r) = Some u -> bw h r < bw h u /\ down (h !!! u) = Some r)
  /\ (forall d, down (h !!! r) = Some d -> bw h d < bw h r /\ up (h !!! d) = Some r).

(** The list is a doubly linked chain that starts after [prev]. *)
Fixpoint linked (h : heap) (prev : option ref) (l : list ref) : Prop :=
  match l with
  | [] => True
  | r :: l' => up (h !!! r) = prev /\ down (h !!! r) = head l' /\ linked h (Some r) l'
  end.

(** Bandwidths do not increase along the list. *)
Fixpoint descending (h : heap) (l : list ref) : Prop :=
  match l with
  | a :: l' =>
      match l' with
      | b :: _ => bw h b <= bw h a
      | [] => True
      end /\ descending h l'
  | [] => True
  end.

(** [fix] writes [up] and [down] only. *)
Definition same_core (a b : MediaTrack.t) : Prop :=
  id a = id b /\ type a = type b /\ codec a = codec b
  /\ bandwidth a = bandwidth b /\ resolution a = resolution b.

(** The invariant of the loop of [fix]: [h0] is the heap at the start,
    [rest] the tracks still to come. *)
Record Inv (h0 : heap) (rest : list ref) (st : Loop) : Prop := mkInv {
  inv_core : forall r, same_core (l_heap st !!! r) (h0 !!! r);
  inv_linked : forall K, linked (l_heap st) None (medias K st);
  inv_desc : forall K, descending h0 (medias K st);
  inv_nodup : forall K, NoDup (medias K st);
  inv_type : forall K r, r ∈ medias K st -> type (h0 !!! r) = K;
  inv_known : forall K r, r ∈ medias K st -> map_has (id (h0 !!! r)) (l_tracks st) = true;
  inv_bound : forall K r y, r ∈ medias K st -> y ∈ rest -> bw h0 y <= bw h0 r
}.

End Metadata.

(** ** HTTPAdaptiveSource.ts *)

Module HTTPAdaptiveSource.

Import MediaTrack.

Inductive Method : Set := GET | HEAD.

(** The abort controller a request is attached to. *)
Inductive Controller : Set := AudioController | VideoController | UpController.

(** A request as [_downloadSequence] sends it: the sequence URL is
    determined by [r_trackId] and [r_sequence]; [r_range = Some last] stands
    for the header [Range: bytes=0-last]. *)
Record Request : Type := mkRequest {
  r_controller : Controller;
  r_method : Method;
  r_trackId : Z;
  r_sequence : Z;
  r_range : option Z
}.

(** What the source reads of a response: [ok], the
    [max-sequence-duration] header when it is a non-zero number, and
    [Number(headers.get('first-frame-length'))] ([0] when absent). *)
Record Response : Type := mkResponse {
  ok : bool;
  maxSequenceDuration : option Z;
  firstFrameLength : Z
}.

Inductive Result (A : Type) : Type :=
| Returns (a : A)
| Throws (msg : string).
Arguments Returns {A} a.
Arguments Throws {A} msg.

Inductive Log : Type :=
| LogSkipSequences (from to : Z)
| LogFailsToSkip (sequence : Z)
| LogFixLiveTime (fixLiveTime : Z)
| LogNoLiveTime
| LogNoMaxSequenceDuration
| LogDownload (sequence : Z) (again : bool)
| LogBandwidthEmulation (upBandwidth extraByteRateRequired : Z)
| LogSameBandwidth.

(** The single request of [_downloadSequence] for a given [length]:
    [HEAD] when [length === 0], a [Range] header when [length] is set
    and not zero. *)
Definition request (c : Controller) (trackId sequence : Z) (length : option Z) : Request :=
  mkRequest c
    (match length with Some 0 => HEAD | _ => GET end)
    trackId sequence
    (match length with
     | Some l => if negb (l =? 0) then Some (l - 1) else None
     | None => None
     end).


(** *** Skip framing *)

Section SkipFraming.

(** The network and the wall clock: the answer to a HEAD request for
    a track and a sequence, and [Util.time()] during the [i]-th turn of
    the loop (a turn runs without interruption up to its request, the
    clock is taken not to tick within it). *)
Variable head : Z -> Z -> Response.
Variable clock : nat -> Z.

Variable metadata : Source.LiveClock.
Variable currentTime : Z.
Variable tracks : Media.Tracks.

Record Skip : Type := mkSkip {
  s_sequence : Z;
  s_newSequence : option Z;          (* [None] is [Infinity] *)
  s_fixLiveTime : Z;
  s_maxSequenceDuration : Z;         (* [this._maxSequenceDuration] *)
  s_again : bool;
  s_requests : list Request;
  s_logs : list Log
}.

(** [tracks.audio != null && tracks.audio >= 0 ? tracks.audio : tracks.video] *)
Definition skipTrack : option Z :=
  match Media.audio tracks with
  | Some a => if 0 <=? a then Some a else Media.video tracks
  | None => Media.video tracks
  end.

(** [Math.min(sequence + Math.floor(delay / max), newSequence - 1)] *)
Definition candidate (sequence delay maxSequenceDuration : Z) (newSequence : option Z) : Z :=
  let c := sequence + delay / maxSequenceDuration in
  match newSequence with
  | Some p => Z.min c (p - 1)
  | None => c
  end.

(** [while (this.metadata.liveTime > this.currentTime)], turn [i]. *)
Fixpoint skipLoop (fuel : nat) (i : nat) (st : Skip) : option (Result (Skip * nat)) :=
  match fuel with
  | O => None
  | S fuel' =>
      let live := Source.liveTime (clock i) metadata in
      if live >? currentTime then
        match skipTrack with
        | None => Some (Throws "Nothing to download, no track enabled")
        | Some track =>
            let newSequence :=
              candidate (s_sequence st) (live - currentTime)
                        (s_maxSequenceDuration st) (s_newSequence st) in
            if newSequence <=? s_sequence st then
              Some (Returns
                (mkSkip (s_sequence st) (Some newSequence) (s_fixLiveTime st)
                        (s_maxSequenceDuration st) (s_again st)
                        (s_requests st) (s_logs st), i))
            else
              let response := head track newSequence in
              let maxd := default (s_maxSequenceDuration st) (maxSequenceDuration response) in
              let requests :=
                s_requests st ++ [request AudioController track newSequence (Some 0)] in
              if ok response && (newSequence >? s_sequence st) then
                Some (Returns
                  (mkSkip newSequence (Some newSequence) (s_fixLiveTime st) maxd false
                          requests
                          (s_logs st ++ [LogSkipSequences (s_sequence st) (newSequence - 1)]),
                   i))
              else
                skipLoop fuel' (S i)
                  (mkSkip (s_sequence st) (Some newSequence) (s_fixLiveTime st - maxd) maxd
                          (s_again st) requests
                          (s_logs st ++ [LogFailsToSkip newSequence]))
        end
      else Some (Returns (st, i))
  end.

End SkipFraming.

(** The state of [_play] that the skip and download phases of one turn
    of the main loop read or write. *)
Record t : Type := mk {
  reliable : bool;
  metadata : option Source.LiveClock;     (* [this.metadata], its live clock *)
  currentTime : Z;                        (* [this.currentTime] *)
  videoTime : Z;                          (* [this.videoTime] *)
  _maxSequenceDuration : option Z;
  tracks : Media.Tracks;
  sequence : Z;
  again : bool;
  prevVideoTime : option Z;
  prevVideoSequence : option Z;
  adaptiveRetry : AdaptiveRetry.t;
  _upController : bool;                   (* an up controller exists *)
  requests : list Request;
  logs : list Log
}.

(** The [// Skip framing] block of the main loop. *)
Definition skipFraming (fuel : nat) (head : Z -> Z -> Response) (clock : nat -> Z)
    (bufferState : Player.BufferState) (buffering : bool) (s : t) : option (Result t) :=
  if negb (reliable s) && Player.BufferState_eqb bufferState Player.LOW && buffering then
    match _maxSequenceDuration s with
    | Some maxd =>
        match metadata s with
        | Some m =>
            match skipLoop head clock m (currentTime s) (tracks s) fuel 0%nat
                    (mkSkip (sequence s) None 0 maxd (again s) [] []) with
            | None => None
            | Some (Throws msg) => Some (Throws msg)
            | Some (Returns (st, i)) =>
                let fixed := negb (s_fixLiveTime st =? 0) in
                Some (Returns
                  (mk (reliable s)
                      (if fixed
                       then Some (Source.set_liveTime (clock i)
                                    (Source.liveTime (clock i) m + s_fixLiveTime st))
                       else Some m)
                      (currentTime s) (videoTime s)
                      (Some (s_maxSequenceDuration st))
                      (tracks s) (s_sequence st) (s_again st)
                      (prevVideoTime s) (prevVideoSequence s) (adaptiveRetry s)
                      (_upController s)
                      (requests s ++ s_requests st)
                      (logs s ++ s_logs st
                         ++ (if fixed then [LogFixLiveTime (s_fixLiveTime st)] else []))))
            end
        | None =>
            Some (Returns
              (mk (reliable s) (metadata s) (currentTime s) (videoTime s)
                  (_maxSequenceDuration s) (tracks s) (sequence s) (again s)
                  (prevVideoTime s) (prevVideoSequence s) (adaptiveRetry s)
                  (_upController s) (requests s) (logs s ++ [LogNoLiveTime])))
        end
    | None =>
        Some (Returns
          (mk (reliable s) (metadata s) (currentTime s) (videoTime s)
              (_maxSequenceDuration s) (tracks s) (sequence s) (again s)
              (prevVideoTime s) (prevVideoSequence s) (adaptiveRetry s)
              (_upController s) (requests s) (logs s ++ [LogNoMaxSequenceDuration])))
    end
  else Some (Returns s).

(** *** Bandwidth emulation *)

(** [Math.ceil(x / 1000)] *)
Definition ceil_div_1000 (x : Z) : Z := - ((- x) / 1000).

Inductive Probe : Type :=
| NoProbe
| ProbeRequest (r : Request)
| ProbeThrows.

(** The [// Add a factice track to emulate UP rendition?] block:
    returns whether a new up controller was created, the probe and the
    retry gate.  [videoTrack] is the track chosen by the rendition
    selection ([None] when it is [false] or [undefined]);
    [prevVideoSequence.toFixed()] throws when there is no previous
    sequence. *)
Definition upProbe (now : Z) (h : Metadata.heap) (maximumResolution : option Media.Resolution)
    (videoTrack : option ref) (s : t) : bool * Probe * list Log * AdaptiveRetry.t :=
  match videoTrack, prevVideoTime s with
  | Some vt, Some prev =>
      let '(tried, ar) := AdaptiveRetry.try now (adaptiveRetry s) in
      if tried then
        match up (h !!! vt) with
        | Some upr =>
            if negb (Media.overScreenSize (resolution (h !!! upr)) maximumResolution) then
              let extraByteRateRequired := bandwidth (h !!! upr) - bandwidth (h !!! vt) in
              if extraByteRateRequired >=? 0 then
                let bytes := ceil_div_1000 (extraByteRateRequired * (videoTime s - prev)) in
                (true,
                 match prevVideoSequence s with
                 | Some pseq => ProbeRequest (request UpController (id (h !!! upr)) pseq (Some bytes))
                 | None => ProbeThrows
                 end,
                 [LogBandwidthEmulation (bandwidth (h !!! upr)) extraByteRateRequired],
                 ar)
              else (true, NoProbe, [LogSameBandwidth], ar)
            else (false, NoProbe, [], ar)
        | None => (false, NoProbe, [], ar)
        end
      else (false, NoProbe, [], ar)
  | _, _ => (false, NoProbe, [], adaptiveRetry s)
  end.


End HTTPAdaptiveSource.

(** ** BinaryReader and BinaryWriter (package [@ceeblue/web-utils]) *)

Module BinaryReader.

(** A reader is the list of the bytes it has not read yet. *)

Definition available (bytes : list Z) : Z := Z.of_nat (length bytes).

Definition read8 (bytes : list Z) : Z * list Z :=
  match bytes with
  | [] => (0, [])
  | b :: rest => (b, rest)
  end.

Definition read (size : Z) (bytes : list Z) : list Z * list Z :=
  (take (Z.to_nat size) bytes, drop (Z.to_nat size) bytes).

(** Modelled from the spec: [read7Bit] of the external [BinaryReader],
    which is not part of the sources; the fields are LEB128 ("7-bit")
    unsigned integers, least significant group first, the top bit of a
    byte announcing a further byte. *)
Fixpoint read7Bit (bytes : list Z) : Z * list Z :=
  match bytes with
  | [] => (0, [])
  | b :: rest =>
      if Z.testbit b 7 then
        let '(v, rest') := read7Bit rest in
        (Z.land b 127 + 128 * v, rest')
      else (Z.land b 127, rest)
  end.

End BinaryReader.

Module BinaryWriter.

(** Modelled from the spec: the integer writers of the external
    [BinaryWriter], which is not part of the sources; the boxes of
    ISO-BMFF hold big-endian unsigned integers, a value is reduced
    modulo the width of its field. *)
Definition write8 (v : Z) : list Z := [v mod 256].

Definition write16 (v : Z) : list Z :=
  [(v / 256) mod 256; v mod 256].

Definition write32 (v : Z) : list Z :=
  [(v / 16777216) mod 256; (v / 65536) mod 256; (v / 256) mod 256; v mod 256].

Definition write64 (v : Z) : list Z :=
  write32 (v / 4294967296) ++ write32 v.

(** The value of four big-endian bytes. *)
Definition decode32 (bytes : list Z) : Z :=
  match bytes with
  | [a; b; c; d] => ((a * 256 + b) * 256 + c) * 256 + d
  | _ => 0
  end.

Definition hexDigit (c : ascii) : Z :=
  let n := Z.of_nat (nat_of_ascii c) in
  if (48 <=? n) && (n <=? 57) then n - 48
  else if (97 <=? n) && (n <=? 102) then n - 87
  else if (65 <=? n) && (n <=? 70) then n - 55
  else 0.

(** Modelled from the spec: [writeHex], two hexadecimal digits a byte
    (a 32-digit IV is 16 bytes). *)
Fixpoint writeHex (s : string) : list Z :=
  match s with
  | String a (String b rest) => (hexDigit a * 16 + hexDigit b) :: writeHex rest
  | _ => []
  end.

End BinaryWriter.

(** ** RTSReader.ts (and the binary part of Reader.ts) *)

Module RTSReader.

Import BinaryReader.

Inductive Event : Type :=
| OnVideo (trackId : Z) (sample : option Media.Sample)
| OnAudio (trackId : Z) (sample : option Media.Sample)
| OnData (trackId time : Z) (payload : list Z)
| OnMetadata (payload : list Z)
| OnError (format : Z)
| LogCaught.                       (* the log line of the [catch] of [Reader.read] *)

Record t : Type := mk {
  withSize : bool;                 (* [_params.withSize] *)
  _nextTimes : gmap Z Z;           (* <trackId, time> *)
  _header : option (list Z);
  _data : option (list Z);         (* [Reader._data] *)
  trace : list Event
}.

(** [new RTSReader({ withSize })] *)
Definition new (withSize : bool) : t := mk withSize ∅ None None [].

(** [ToInt32], the operand conversion of [>>] and [&]. *)
Definition toInt32 (x : Z) : Z := (x + 2147483648) mod 4294967296 - 2147483648.

(** [x >> n] *)
Definition sar (x n : Z) : Z := Z.shiftr (toInt32 x) n.

(** [x & y] *)
Definition band (x y : Z) : Z := Z.land (toInt32 x) (toInt32 y).

(** [_readPayload(header, reader)]: the payload and what is left of
    the reader, [None] for [undefined]. *)
Definition _readPayload (withSize : bool) (header reader : list Z)
    : option (list Z * list Z) :=
  if negb withSize then Some (reader, [])
  else
    let '(size, _) := read7Bit header in
    if available reader >=? size then Some (read size reader) else None.

(** How the body of the loop of [_parse] ends for one header. *)
Inductive Step : Type :=
| Next (st : t) (reader : list Z)      (* [this._header = undefined], next turn *)
| Return (st : t) (remaining : Z)      (* [return remaining] *)
| Throw (st : t).                      (* an exception leaves [_parse] *)

(** How [_parse] ends: it returns how many bytes have to be kept, or
    an exception leaves it. *)
Inductive Parsed : Type :=
| Remaining (st : t) (n : Z)
| Thrown (st : t).

Definition fire (st : t) (nextTimes : gmap Z Z) (evs : list Event) : t :=
  mk (withSize st) nextTimes None (_data st) (trace st ++ evs).

(** The media packet: the time is the stored next time of the track
    when there is one, else the first field after the packet type. *)
Definition media (st : t) (type trackId : Z) (header reader : list Z) : Step :=
  let '(time, header1) :=
    match _nextTimes st !! trackId with
    | Some t => (t, header)
    | None => read7Bit header
    end in
  let '(value, header2) := read7Bit header1 in
  let duration := sar value 2 in
  let '(compositionOffset, header3) :=
    if negb (band value 2 =? 0) then read7Bit header2 else (0, header2) in
  let isKeyFrame := negb (band value 1 =? 0) in
  match _readPayload (withSize st) header3 reader with
  | None => Return st (available reader)
  | Some (data, reader') =>
      let sample :=
        Media.mkSample time duration data (Some compositionOffset) (Some isKeyFrame) None in
      Next (fire st (<[trackId := time + duration]> (_nextTimes st))
              [if type =? 1 then OnAudio trackId (Some sample)
               else OnVideo trackId (Some sample)])
           reader'
  end.

Definition set_header (hdr : list Z) (st : t) : t :=
  mk (withSize st) (_nextTimes st) (Some hdr) (_data st) (trace st).

Section Decoding.

(** Whether the argument of [onMetadata] or of [onData] can be built
    from a payload: whether [JSON.parse(Util.stringify(data))], and for
    [onMetadata] also [new Metadata(...)], returns rather than throws.
    The handlers themselves are taken to return. *)
Variable decodes : Event -> bool.

(** The body of the loop of [_parse] once [this._header] is full. *)
Definition packet (st : t) (hdr reader : list Z) : Step :=
  let '(type0, header) := read7Bit hdr in
  let trackId := sar type0 2 in
  let type := band type0 3 in
  if trackId =? 0 then
    if type =? 3 then
      (* INIT TRACKS *)
      let '(v, header1) := read7Bit header in
      let '(a, _) := read7Bit header1 in
      Next (fire st ∅ [OnVideo (v - 1) None; OnAudio (a - 1) None]) reader
    else if type =? 0 then
      (* METADATA *)
      match _readPayload (withSize st) header reader with
      | None => Return st (available reader)
      | Some (data, reader') =>
          if decodes (OnMetadata data)
          then Next (fire st (_nextTimes st) [OnMetadata data]) reader'
          else Throw st
      end
    else
      Return (mk (withSize st) (_nextTimes st) (_header st) (_data st)
                 (trace st ++ [OnError type])) 0
  else
    let trackId := trackId - 1 in
    if type =? 0 then
      (* DATA *)
      let '(time, header1) := read7Bit header in
      match _readPayload (withSize st) header1 reader with
      | None => Return st (available reader)
      | Some (data, reader') =>
          if decodes (OnData trackId time data)
          then Next (fire st (_nextTimes st) [OnData trackId time data]) reader'
          else Throw st
      end
    else media st type trackId header reader.

(** [while (reader.available())]; [None] when the fuel runs out. *)
Fixpoint parseLoop (fuel : nat) (st : t) (reader : list Z) : option Parsed :=
  match fuel with
  | O => None
  | S fuel' =>
      if available reader =? 0 then Some (Remaining st 0)
      else
        let continue (s : Step) : option Parsed :=
          match s with
          | Next st' reader' => parseLoop fuel' st' reader'
          | Return st' remaining => Some (Remaining st' remaining)
          | Throw st' => Some (Thrown st')
          end in
        match _header st with
        | Some hdr => continue (packet st hdr reader)
        | None =>
            if negb (withSize st) then Some (Remaining (set_header reader st) 0)
            else
              let '(size, reader1) := read8 reader in
              if available reader1 <? size then Some (Remaining st (available reader1 + 1))
              else
                let '(hdr, reader2) := read size reader1 in
                continue (packet (set_header hdr st) hdr reader2)
        end
  end.

(** [_parse(packet)]: every turn but the first one starts without a
    header and reads at least one byte. *)
Definition _parse (st : t) (bytes : list Z) : option Parsed :=
  parseLoop (S (S (length bytes))) st bytes.

(** [Reader.read(data)] for binary data: an exception of [_parse] is
    caught and logged, and [_data] is left as it was. *)
Definition read (st : t) (data : list Z) : option t :=
  let bytes := default [] (_data st) ++ data in
  match _parse st bytes with
  | None => None
  | Some (Remaining st' n) =>
      let remaining := Z.min n (available bytes) in
      Some (mk (withSize st') (_nextTimes st') (_header st')
               (if 0 <? remaining
                then Some (drop (length bytes - Z.to_nat remaining) bytes)
                else None)
               (trace st'))
  | Some (Thrown st') =>
      Some (mk (withSize st') (_nextTimes st') (_header st') (_data st)
               (trace st' ++ [LogCaught]))
  end.

(** Feeds the reader chunk after chunk. *)
Fixpoint readAll (st : t) (chunks : list (list Z)) : option t :=
  match chunks with
  | [] => Some st
  | c :: cs =>
      match read st c with
      | Some st' => readAll st' cs
      | None => None
      end
  end.

End Decoding.

End RTSReader.

(** ** CMAFWriter.ts *)

Module CMAFWriter.

Import BinaryWriter.

(** [enum ProtectionScheme] (Metadata.ts) *)
Inductive ProtectionScheme : Set := CENC | CBC1 | CENS | CBCS.

Definition isCBCS (s : ProtectionScheme) : bool :=
  match s with CBCS => true | _ => false end.

(** [type ContentProtection], without the PSSH boxes. *)
Record ContentProtection : Type := mkContentProtection {
  scheme : ProtectionScheme;
  kid : string;
  iv : string
}.

Inductive CMAFWriterError : Type :=
| UnsupportedCodec (codec : Media.Codec)
| UnsupportedTrackType (trackType : Media.Type_).

Record t : Type := mk {
  _sequence : Z;
  _isVideo : bool
}.

(** [constructor] *)
Definition new : t := mk 0 false.

(** [init(track, contentProtection?)]: the error returned and the
    writer; the bytes of [ftyp] and [moov] handed to [onWrite] are not
    modelled. *)
Definition init (track : MediaTrack.t) (w : t) : option CMAFWriterError * t :=
  match MediaTrack.type track with
  | Media.AUDIO =>
      match MediaTrack.codec track with
      | Media.AAC | Media.MP3 => (None, mk (_sequence w) false)
      | c => (Some (UnsupportedCodec c), w)
      end
  | Media.VIDEO =>
      match MediaTrack.codec track with
      | Media.H264 => (None, mk (_sequence w) true)
      | c => (Some (UnsupportedCodec c), w)
      end
  | ty => (Some (UnsupportedTrackType ty), w)
  end.

Definition subSamplesLength (sample : Media.Sample) : Z :=
  match Media.subSamples sample with
  | Some l => Z.of_nat (length l)
  | None => 0
  end.

Definition withIV (cp : ContentProtection) : bool :=
  negb (isCBCS (scheme cp)) && (Z.of_nat (String.length (iv cp)) =? 32).

Definition sizeTrun : Z := 36.

Definition sizeSenc (sample : Media.Sample) (cp : option ContentProtection) : Z :=
  match cp with
  | Some c =>
      (if withIV c then 16 else 0)
      + (16 + (if negb (subSamplesLength sample =? 0)
               then 2 + subSamplesLength sample * 6 else 0))
  | None => 0
  end.

Definition withSaiz (isVideo : bool) (c : ContentProtection) : bool :=
  isVideo || negb (isCBCS (scheme c)).

Definition sizeSaiz (isVideo : bool) (cp : option ContentProtection) : Z :=
  match cp with
  | Some c => if withSaiz isVideo c then 18 else 0
  | None => 0
  end.

Definition sizeSaio (isVideo : bool) (cp : option ContentProtection) : Z :=
  match cp with
  | Some c => if withSaiz isVideo c then 20 else 0
  | None => 0
  end.

Definition sizeTraf (isVideo : bool) (sample : Media.Sample) (cp : option ContentProtection) : Z :=
  8 + 20 + 20 + sizeTrun + sizeSenc sample cp + sizeSaiz isVideo cp + sizeSaio isVideo cp.

Definition sizeMoof (isVideo : bool) (sample : Media.Sample) (cp : option ContentProtection) : Z :=
  8 + 16 + sizeTraf isVideo sample cp.

Definition byteLength (sample : Media.Sample) : Z := Z.of_nat (length (Media.data sample)).

(** The protection boxes of [write]: [saiz], [saio], [senc]. *)
Definition protection (isVideo : bool) (sample : Media.Sample) (c : ContentProtection)
    : list Z :=
  let cp := Some c in
  (if withSaiz isVideo c then
     write32 (sizeSaiz isVideo cp) ++ [115; 97; 105; 122] (* saiz *)
     ++ [0; 0; 0; 0]
     ++ write8 0 ++ write32 1
     ++ write8 ((if isVideo then 6 * subSamplesLength sample + 2 else 0)
                + (if isCBCS (scheme c) then 0 else 16))
     ++ write32 (sizeSaio isVideo cp) ++ [115; 97; 105; 111] (* saio *)
     ++ [0; 0; 0; 0]
     ++ write32 1
     ++ write32 (sizeMoof isVideo sample cp - sizeSenc sample cp + 16)
   else [])
  ++ write32 (sizeSenc sample cp) ++ [115; 101; 110; 99] (* senc *)
  ++ [0; 0; 0; if negb (subSamplesLength sample =? 0) then 2 else 0]
  ++ write32 1
  ++ (if withIV c then writeHex (iv c) else [])
  ++ (if negb (subSamplesLength sample =? 0) then
        write16 (subSamplesLength sample)
        ++ flat_map (fun ss => write16 (fst ss) ++ write32 (snd ss))
                    (default [] (Media.subSamples sample))
      else []).

(** [write(sample, contentProtection?)]: the two packets handed to
    [onWrite] and the writer. *)
Definition write (sample : Media.Sample) (cp : option ContentProtection) (w : t)
    : list (list Z) * t :=
  let isVideo := _isVideo w in
  let sequence := _sequence w + 1 in       (* [++this._sequence] *)
  let moof :=
    write32 (sizeMoof isVideo sample cp) ++ [109; 111; 111; 102] (* moof *)
    ++ [0; 0; 0; 16; 109; 102; 104; 100; 0; 0; 0; 0] (* mfhd *)
    ++ write32 sequence
    ++ write32 (sizeTraf isVideo sample cp) ++ [116; 114; 97; 102] (* traf *)
    ++ [0; 0; 0; 20; 116; 102; 104; 100; 0; 2; 0; 2] (* tfhd *)
    ++ write32 1 ++ write32 1
    ++ [0; 0; 0; 20; 116; 102; 100; 116; 1; 0; 0; 0] (* tfdt *)
    ++ write64 (Media.time sample)
    ++ write32 sizeTrun ++ [116; 114; 117; 110] (* trun *)
    ++ write32 3841 (* 0x00000f01 *)
    ++ write32 1
    ++ write32 (sizeMoof isVideo sample cp + 8)
    ++ write32 (Media.duration sample)
    ++ write32 (byteLength sample)
    ++ write32 (if negb isVideo || default false (Media.isKeyFrame sample)
                then 33554432 (* 0x02000000 *) else 16842752 (* 0x01010000 *))
    ++ write32 (default 0 (Media.compositionOffset sample))
    ++ match cp with
       | Some c => protection isVideo sample c
       | None => []
       end
    ++ write32 (8 + byteLength sample) ++ [109; 100; 97; 116] (* mdat *) in
  ([moof; Media.data sample], mk sequence isVideo).

(** The sequence number in the [mfhd] box of a fragment: the four
    bytes at offset 20 of its first packet. *)
Definition mfhdSequence (packets : list (list Z)) : Z :=
  match packets with
  | moof :: _ => decode32 (take 4 (drop 20 moof))
  | [] => 0
  end.

(** What a client of the writer does with it. *)
Inductive Call : Type :=
| Init (track : MediaTrack.t)
| Write (sample : Media.Sample) (cp : option ContentProtection).

(** Runs the calls in order; returns the [mfhd] sequence numbers of the
    fragments written, oldest first, and the writer. *)
Fixpoint run (calls : list Call) (w : t) : list Z * t :=
  match calls with
  | [] => ([], w)
  | Init track :: rest => run rest (snd (init track w))
  | Write sample cp :: rest =>
      let '(packets, w1) := write sample cp w in
      let '(seqs, w2) := run rest w1 in
      (mfhdSequence packets :: seqs, w2)
  end.

(** The number of fragments written by the calls. *)
Fixpoint writes (calls : list Call) : Z :=
  match calls with
  | [] => 0
  | Init _ :: rest => writes rest
  | Write _ _ :: rest => Z.succ (writes rest)
  end.

End CMAFWriter.

(** ** Runs of a Source: the calls a reader and a player make on it *)

Module Run.

Import Source.

(** One sample handed to the Source by its reader. *)
Inductive Ingest : Type :=
| Audio (trackId : Z) (sample : Media.Sample)
| Video (trackId : Z) (sample : Media.Sample)
| Data (trackId time : Z).

Definition ingest (now : Z) (e : Ingest) (s : Source.t) : Source.t :=
  match e with
  | Audio trackId sample => snd (readAudio now trackId (Some sample) s)
  | Video trackId sample => snd (readVideo now trackId (Some sample) s)
  | Data trackId time => readData now trackId time s
  end.

(** Times are unsigned; the duration of an audio sample is not
    negative (a negative duration marks an extendable video sample). *)
Definition wellTimed (e : Ingest) : Prop :=
  match e with
  | Audio _ sample => 0 <= Media.time sample /\ 0 <= Media.duration sample
  | Video _ sample => 0 <= Media.time sample
  | Data _ time => 0 <= time
  end.

(** A call on the Source, with the wall clock at the call. *)
Inductive Call : Type :=
| Close (error : option SourceError)
| Feed (now : Z) (e : Ingest).

Definition call (c : Call) (s : Source.t) : Source.t :=
  match c with
  | Close error => close error s
  | Feed now e => ingest now e s
  end.

Definition run (calls : list Call) (s : Source.t) : Source.t :=
  fold_left (fun s c => call c s) calls s.

Definition wellTimedCall (c : Call) : Prop :=
  match c with
  | Feed _ e => wellTimed e
  | Close _ => True
  end.

Definition isOnClose (e : Event) : bool :=
  match e with
  | OnClose _ => true
  | _ => false
  end.

(** How many times [onClose] was fired. *)
Definition closings (s : Source.t) : nat :=
  length (filter (fun e => isOnClose e = true) (trace s)).

(** The three times, compared pointwise. *)
Definition times_le (s s' : Source.t) : Prop :=
  _audioTime s <= _audioTime s' /\ _videoTime s <= _videoTime s'
  /\ _dataTime s <= _dataTime s'.

End Run.

(** ** The wire form of an RTS field

    The sources hold no RTS writer.  The form below follows the words of
    the specification ("LEB128 unsigned integers, MSB continuation") and
    is only used to state what the reader does on well-formed fields. *)

Module Wire.

Fixpoint leb128_fuel (fuel : nat) (n : Z) : list Z :=
  match fuel with
  | O => [n]
  | S fuel' =>
      if n <? 128 then [n] else (n mod 128 + 128) :: leb128_fuel fuel' (n / 128)
  end.

(** The bytes of the unsigned integer [n], low group first. *)
Definition leb128 (n : Z) : list Z := leb128_fuel (Z.to_nat (Z.log2 n)) n.

End Wire.

(** ** Fixtures: a ladder of renditions, a manifest, a source in the middle of a stream *)

Module Fixtures.

(** The retry gate after a first try at 1000 ms. *)
Definition gate : AdaptiveRetry.t := snd (AdaptiveRetry.try 1000 AdaptiveRetry.new).

(** Track 1 (400 bytes/s) and its up rendition, track 2. *)
Definition ladder (upBandwidth : Z) : Metadata.heap :=
  <[1%nat := MediaTrack.mk 1 Media.VIDEO Media.H264 400 (Media.mkResolution 640 360)
               (Some 2%nat) None]>
  (<[2%nat := MediaTrack.mk 2 Media.VIDEO Media.H264 upBandwidth
                (Media.mkResolution 1280 720) None (Some 1%nat)]> ∅).

(** A manifest with three video renditions, two of them of the same
    bandwidth, and one data track, as [new Metadata(manifest)] leaves it:
    the tracks in the map only. *)
Definition manifestHeap : Metadata.heap :=
  <[0%nat := MediaTrack.new 0]>
  (<[1%nat := MediaTrack.mk 1 Media.VIDEO Media.H264 800 (Media.mkResolution 1280 720)
                None None]>
   (<[2%nat := MediaTrack.mk 2 Media.VIDEO Media.H264 400 (Media.mkResolution 640 360)
                 None None]>
    (<[3%nat := MediaTrack.mk 3 Media.VIDEO Media.H264 800 (Media.mkResolution 1280 720)
                  None None]> ∅))).

Definition manifest : Metadata.t :=
  Metadata.mk [(2, 2%nat); (3, 3%nat); (0, 0%nat); (1, 1%nat)] [] [] [].

(** The source at sequence 100, after sequence 99. *)
Definition playing (videoTime prev : Z) : HTTPAdaptiveSource.t :=
  HTTPAdaptiveSource.mk false None videoTime videoTime (Some 1000)
    (Media.mkTracks (Some 0) (Some 1)) 100 true (Some prev) (Some 99) gate false [] [].

End Fixtures.

(** ** Runs of an AdaptiveRetry: the calls its owner makes on it *)

Module RetryRun.

Import AdaptiveRetry.

Inductive Call : Type :=
| Reset
| Try (now : Z)
| Raise
| Increase
| Decrease.

Definition call (c : Call) (r : AdaptiveRetry.t) : AdaptiveRetry.t :=
  match c with
  | Reset => reset r
  | Try now => snd (try now r)
  | Raise => raise r
  | Increase => increase r
  | Decrease => decrease r
  end.

Definition run (calls : list Call) (r : AdaptiveRetry.t) : AdaptiveRetry.t :=
  fold_left (fun r c => call c r) calls r.

(** The delay lies between the learning step and the maximum. *)
Definition bounded (r : AdaptiveRetry.t) : Prop :=
  learningTryStep r <= _tryDelay r <= maximumTryDelay r.

End RetryRun.

(** ** The wall clock along a run of a Source *)

Module Clock.

Import Run.

(** The clock does not go back from one call to the next, starting
    from [t]. *)
Fixpoint ordered (t : Z) (calls : list Call) : Prop :=
  match calls with
  | [] => True
  | Close _ :: rest => ordered t rest
  | Feed now _ :: rest => t <= now /\ ordered now rest
  end.

(** The clock at the last call. *)
Fixpoint last (t : Z) (calls : list Call) : Z :=
  match calls with
  | [] => t
  | Close _ :: rest => last t rest
  | Feed now _ :: rest => last now rest
  end.

End Clock.

(** ** HTTPAdaptiveSource.ts: the responses of a turn *)

Module Responses.

Import HTTPAdaptiveSource.

(** What the main loop reads of a response of [_downloadSequence]:
    [error] ([None] when it is not set or empty), [status], [ok]. *)
Record Answer : Type := mkAnswer {
  a_error : option string;
  a_status : Z;
  a_ok : bool
}.

(** [for (const response of responses)]: the error the Source is closed
    with, or the state after the loop. *)
Fixpoint readResponses (responses : list Answer) (s : HTTPAdaptiveSource.t)
    : Source.SourceError + HTTPAdaptiveSource.t :=
  match responses with
  | [] => inr s
  | response :: rest =>
      match a_error response with
      | Some detail =>
          inl (if a_status response =? 400
               then Source.MalformedPayload detail
               else Source.RequestError detail)
      | None =>
          if again s && a_ok response then
            readResponses rest
              (mk (reliable s) (metadata s) (currentTime s) (videoTime s)
                  (_maxSequenceDuration s) (tracks s) (sequence s + 1) false
                  (prevVideoTime s) (Some (sequence s)) (adaptiveRetry s)
                  (_upController s) (requests s) (logs s))
          else readResponses rest s
      end
  end.

End Responses.

(** ** Walking down a ladder of renditions (Source.ts, HTTPAdaptiveSource.ts) *)

Module Ladder.

Import MediaTrack.

(** [while (c(track) && track.down) { track = track.down; }]: the loop
    follows the [down] references of the heap, [None] when the fuel runs
    out before it ends. *)
Fixpoint walkDown (fuel : nat) (h : Metadata.heap) (c : MediaTrack.t -> bool) (r : ref)
    : option ref :=
  match fuel with
  | O => None
  | S fuel' =>
      if c (h !!! r) then
        match down (h !!! r) with
        | Some d => walkDown fuel' h c d
        | None => Some r
        end
      else Some r
  end.

(** [Media.overScreenSize(track.resolution, this._playing.maximumResolution)] *)
Definition overScreen (maximumResolution : option Media.Resolution) (track : MediaTrack.t) : bool :=
  Media.overScreenSize (resolution track) maximumResolution.

(** [Source._autoFirstTrack(tracks)]: [-1] without track, else the id
    of the middle rendition, or of the first one below it that fits the
    screen. *)
Definition _autoFirstTrack (fuel : nat) (h : Metadata.heap)
    (maximumResolution : option Media.Resolution) (tracks : list ref) : option Z :=
  match tracks !! (length tracks / 2)%nat with
  | None => Some (-1)
  | Some track =>
      match walkDown fuel h (overScreen maximumResolution) track with
      | Some track' => Some (id (h !!! track'))
      | None => None
      end
  end.

End Ladder.

(** ** HTTPAdaptiveSource.ts: the choice of the video rendition *)

Module Selection.

Import MediaTrack HTTPAdaptiveSource Ladder.

(** What the block reads of the turn before: [stall], and the state of
    the abort signals of the video controller and of the up controller
    (the latter only read when there is an up controller). *)
Record Signals : Type := mkSignals {
  stall : bool;
  videoAborted : bool;
  upAborted : bool
}.

(** [MBR UP|DOWN from track ... to ...] *)
Inductive Log : Type :=
| LogMBR (up : bool) (from : option Z) (to : Z).

Definition set_video (v : Z) (ar : AdaptiveRetry.t) (s : HTTPAdaptiveSource.t)
    : HTTPAdaptiveSource.t :=
  mk (reliable s) (metadata s) (currentTime s) (videoTime s) (_maxSequenceDuration s)
     (Media.mkTracks (Media.audio (tracks s)) (Some v)) (sequence s) (again s)
     (prevVideoTime s) (prevVideoSequence s) ar (_upController s) (requests s) (logs s).

Definition set_adaptiveRetry (ar : AdaptiveRetry.t) (s : HTTPAdaptiveSource.t)
    : HTTPAdaptiveSource.t :=
  mk (reliable s) (metadata s) (currentTime s) (videoTime s) (_maxSequenceDuration s)
     (tracks s) (sequence s) (again s)
     (prevVideoTime s) (prevVideoSequence s) ar (_upController s) (requests s) (logs s).

(** [metadata.tracks.get(id ?? -1)] *)
Definition get (m : Metadata.t) (id : option Z) : option ref :=
  Metadata.map_get (default (-1) id) (Metadata.tracks m).

(** The block [if (playing.bufferState !== BufferState.NONE) { ... }]
    at the head of a turn of the main loop: the track [videoTrack]
    ([None] when it is [false] or [undefined]), the source and the log
    line; [None] when the fuel runs out in a loop. *)
Definition select (fuel : nat) (h : Metadata.heap) (m : Metadata.t)
    (maximumResolution : option Media.Resolution) (bufferState : Player.BufferState)
    (videoSelected : option Z) (bandwidthMeasure : Z) (sg : Signals)
    (s : HTTPAdaptiveSource.t)
    : option (option ref * HTTPAdaptiveSource.t * list Log) :=
  if negb (Player.BufferState_eqb bufferState Player.NONE) then
    match (match videoSelected with
           | None => get m (Media.video (tracks s))
           | Some _ => None
           end) with
    | Some videoTrack =>
        let '(isUp, moved, ar) :=
          if stall sg || videoAborted sg then
            (* video or audio were aborted (stall or buffer empty) *)
            let videoTrack1 :=
              if negb (_upController s)
              then default videoTrack (down (h !!! videoTrack))
              else videoTrack in
            let audioBandwidth :=
              match get m (Media.audio (tracks s)) with
              | Some a => bandwidth (h !!! a)
              | None => 0
              end in
            (false,
             walkDown fuel h (fun t => bandwidth t + audioBandwidth >? bandwidthMeasure)
                      videoTrack1,
             AdaptiveRetry.raise (adaptiveRetry s))
          else if _upController s && negb (upAborted sg) then
            (* UP emulated success *)
            (true, Some (default videoTrack (up (h !!! videoTrack))), adaptiveRetry s)
          else if Player.BufferState_eqb bufferState Player.LOW then
            (false, Some (default videoTrack (down (h !!! videoTrack))),
             AdaptiveRetry.raise (adaptiveRetry s))
          else (false, Some videoTrack, adaptiveRetry s) in
        match moved with
        | Some videoTrack2 =>
            (* make compatible with displayable screen *)
            match walkDown fuel h (overScreen maximumResolution) videoTrack2 with
            | Some videoTrack3 =>
                let v := id (h !!! videoTrack3) in
                if match Media.video (tracks s) with
                   | Some v0 => negb (v0 =? v)
                   | None => true
                   end
                then Some (Some videoTrack3, set_video v ar s,
                           [LogMBR isUp (Media.video (tracks s)) v])
                else Some (Some videoTrack3, set_adaptiveRetry ar s, [])
            | None => None
            end
        | None => None
        end
    | None =>
        (* no video track selected or no video metadata: reset *)
        Some (None, set_adaptiveRetry (AdaptiveRetry.reset (adaptiveRetry s)) s, [])
    end
  else Some (None, s, []).

End Selection.

(** ** More fixtures *)

Module Fixtures2.

(** The manifest of [Fixtures] once fixed. *)
Definition fixedHeap : Metadata.heap := fst (Metadata.fix_ Fixtures.manifestHeap Fixtures.manifest).

Definition fixed : Metadata.t := snd (Metadata.fix_ Fixtures.manifestHeap Fixtures.manifest).

(** The source of [Fixtures] playing the video track 3. *)
Definition playing3 : HTTPAdaptiveSource.t :=
  Selection.set_video 3 Fixtures.gate (Fixtures.playing 5000 4000).

(** A protected video sample with two sub-samples. *)
Definition protectedSample : Media.Sample :=
  Media.mkSample 1000 40 [1; 2; 3; 4; 5] (Some 0) (Some true) (Some [(2, 1); (1, 1)]).

Definition cenc : CMAFWriter.ContentProtection :=
  CMAFWriter.mkContentProtection CMAFWriter.CENC
    "000102030405060708090a0b0c0d0e0f" "101112131415161718191a1b1c1d1e1f".

Definition videoWriter : CMAFWriter.t :=
  snd (CMAFWriter.init (MediaTrack.mk 1 Media.VIDEO Media.H264 800
                          (Media.mkResolution 1280 720) None None) CMAFWriter.new).

End Fixtures2.

(** ** An RTS stream cut into chunks *)

Module RTSStream.

Import RTSReader.

Definition isError (e : Event) : bool :=
  match e with
  | OnError _ => true
  | LogCaught => true
  | _ => false
  end.

(** How many times [onError] was fired or an exception caught. *)
Definition errors (st : RTSReader.t) : nat :=
  length (List.filter isError (trace st)).

(** The reader with other bytes kept in [Reader._data]. *)
Definition with_data (d : option (list Z)) (st : RTSReader.t) : RTSReader.t :=
  mk (withSize st) (_nextTimes st) (_header st) d (trace st).

Definition step_with_data (d : option (list Z)) (s : Step) : Step :=
  match s with
  | Next st reader => Next (with_data d st) reader
  | Return st remaining => Return (with_data d st) remaining
  | Throw st => Throw (with_data d st)
  end.

End RTSStream.

(** ** Media.ts: the class [Samples] *)

Module Samples.

(** [_samples] is a [FixMap] (package [@ceeblue/web-utils]): a [Map],
    in insertion order, whose [get] gives a missing key the initial
    value, here an empty array; [_tracks] is a [Set], in insertion
    order. *)
Record t : Type := mk {
  _samples : list (Z * list Media.Sample);
  _startTime : Z;
  _endTime : Z;
  _tracks : list Z
}.

(** [constructor] *)
Definition new : t := mk [] 0 0 [].

(** [this._samples.get(trackId).push(sample)] *)
Fixpoint append (trackId : Z) (sample : Media.Sample) (m : list (Z * list Media.Sample))
    : list (Z * list Media.Sample) :=
  match m with
  | [] => [(trackId, [sample])]
  | (k, l) :: m' =>
      if k =? trackId then (k, l ++ [sample]) :: m'
      else (k, l) :: append trackId sample m'
  end.

(** [Set.prototype.add] *)
Definition add (x : Z) (s : list Z) : list Z :=
  if existsb (Z.eqb x) s then s else s ++ [x].

(** [push(trackId, sample)] *)
Definition push (trackId : Z) (sample : Media.Sample) (s : t) : t :=
  mk (append trackId sample (_samples s))
     (if negb (Nat.eqb (length (_samples s)) 0)
      then Z.min (_startTime s) (Media.time sample)
      else Media.time sample)
     (Z.max (_endTime s) (Media.time sample + Media.duration sample))
     (add trackId (_tracks s)).

(** [get duration()] *)
Definition duration (s : t) : Z := _endTime s - _startTime s.

(** The samples kept for a track. *)
Fixpoint samplesOf (trackId : Z) (m : list (Z * list Media.Sample)) : list Media.Sample :=
  match m with
  | [] => []
  | (k, l) :: m' => if k =? trackId then l else samplesOf trackId m'
  end.

Definition pushAll (pushes : list (Z * Media.Sample)) (s : t) : t :=
  fold_left (fun s p => push (fst p) (snd p) s) pushes s.

(** The samples of a track among those pushed, in order. *)
Definition pushedOf (trackId : Z) (pushes : list (Z * Media.Sample)) : list Media.Sample :=
  map snd (List.filter (fun p => fst p =? trackId) pushes).

End Samples.

(** ** Source.ts: the tracks in play and the first samples *)

Module Start.

Inductive Kind : Set := KAudio | KVideo.

Inductive Event : Type :=
| LogDisabled (type : Kind)
| OnTrackChange (audioTrack videoTrack : Z)
| LogFlush
| LogUseless (trackId : Z)
| OnSample (trackId : Z) (sample : Media.Sample)
| OnClose.

(** The fields of [Source] read or written by [_updateTrack] and
    [_onSample]. *)
Record t : Type := mk {
  _closed : bool;
  _tracks : Media.Tracks;
  _firstSamples : option Samples.t;
  trace : list Event
}.

(** [constructor] *)
Definition new : t := mk false Media.noTracks (Some Samples.new) [].

Definition emit (evs : list Event) (s : t) : t :=
  mk (_closed s) (_tracks s) (_firstSamples s) (trace s ++ evs).

(** [close()], as a handler that stops the player calls it. *)
Definition close (s : t) : t :=
  if _closed s then s
  else mk true Media.noTracks None (trace s ++ [OnClose]).

Definition track (type : Kind) (tracks : Media.Tracks) : option Z :=
  match type with
  | KAudio => Media.audio tracks
  | KVideo => Media.video tracks
  end.

Definition set_track (type : Kind) (v : Z) (tracks : Media.Tracks) : Media.Tracks :=
  match type with
  | KAudio => Media.mkTracks (Some v) (Media.video tracks)
  | KVideo => Media.mkTracks (Media.audio tracks) (Some v)
  end.

(** What a handler does when it is called: it may close the Source
    (the player stops when its playback fails), and it returns or
    throws. *)
Record Handled : Type := mkHandled {
  closes : bool;
  throws : bool
}.

(** The state a method leaves, by a return or by an exception. *)
Inductive Outcome : Type :=
| Done (s : t)
| Thrown (s : t).

Definition state (o : Outcome) : t :=
  match o with
  | Done s => s
  | Thrown s => s
  end.

(** The call of a handler. *)
Definition handled (o : Handled) (s : t) : Outcome :=
  let s1 := if closes o then close s else s in
  if throws o then Thrown s1 else Done s1.

Section Handlers.

(** The handlers [onTrackChange] and [onSample] set on the Source. *)
Variable onTrackChange : Z -> Z -> Handled.
Variable onSample : Z -> Media.Sample -> Handled.

(** [_updateTrack(type, track)] *)
Definition _updateTrack (type : Kind) (v : Z) (s : t) : Outcome :=
  if negb (_closed s)
     && match track type (_tracks s) with
        | Some v0 => negb (v0 =? v)
        | None => true
        end
  then
    let s1 := mk (_closed s) (set_track type v (_tracks s)) (_firstSamples s) (trace s) in
    let s2 := if v =? -1 then emit [LogDisabled type] s1 else s1 in
    match Media.audio (_tracks s2), Media.video (_tracks s2) with
    | Some a, Some b =>
        (* Ready to play! *)
        handled (onTrackChange a b) (emit [OnTrackChange a b] s2)
    | _, _ => Done s2
    end
  else Done s.

(** [this.onSample(trackId, sample)] *)
Definition fireSample (trackId : Z) (sample : Media.Sample) (s : t) : Outcome :=
  handled (onSample trackId sample) (emit [OnSample trackId sample] s).

(** [for (const firstSample of firstSamples)]: left by the [return]
    when the Source is closed, or by an exception of the handler. *)
Fixpoint flushTrack (trackId : Z) (firstSamples : list Media.Sample) (s : t) : Outcome :=
  match firstSamples with
  | [] => Done s
  | firstSample :: rest =>
      match fireSample trackId firstSample s with
      | Done s1 => if _closed s1 then Done s1 else flushTrack trackId rest s1
      | Thrown s1 => Thrown s1
      end
  end.

Definition isTrack (trackId : Z) (t : option Z) : bool :=
  match t with
  | Some v => trackId =? v
  | None => false
  end.

(** [for (const [trackId, firstSamples] of this._firstSamples)], then
    [this._firstSamples = undefined] when the loop comes to its end. *)
Fixpoint flush (m : list (Z * list Media.Sample)) (s : t) : Outcome :=
  match m with
  | [] => Done (mk (_closed s) (_tracks s) None (trace s))
  | (trackId, firstSamples) :: m' =>
      if negb (isTrack trackId (Media.audio (_tracks s)))
         && negb (isTrack trackId (Media.video (_tracks s)))
      then flush m' (emit [LogUseless trackId] s)
      else
        match flushTrack trackId firstSamples s with
        | Done s1 => if _closed s1 then Done s1 else flush m' s1
        | Thrown s1 => Thrown s1
        end
  end.

(** [_onSample(trackId, sample?)] *)
Definition _onSample (trackId : Z) (sample : option Media.Sample) (s : t) : Outcome :=
  if _closed s then Done s
  else
    match _firstSamples s with
    | Some fs =>
        (* We are waiting first samples ! *)
        let fs1 :=
          match sample with
          | Some smp => Samples.push trackId smp fs
          | None => fs
          end in
        let s1 := mk (_closed s) (_tracks s) (Some fs1) (trace s) in
        match Media.audio (_tracks s1), Media.video (_tracks s1) with
        | Some _, Some _ => flush (Samples._samples fs1) (emit [LogFlush] s1)
        | _, _ => Done s1
        end
    | None =>
        match sample with
        | Some smp => fireSample trackId smp s
        | None => Done s
        end
    end.

(** The last line of [readAudio] and of [readVideo]:
    [this._onSample(this._updateTrack(type, trackId), sample)]. *)
Definition handOver (type : Kind) (trackId : Z) (sample : option Media.Sample) (s : t)
    : Outcome :=
  match _updateTrack type trackId s with
  | Done s1 => _onSample trackId sample s1
  | Thrown s1 => Thrown s1
  end.

(** Runs the hand-overs in order, as the reader of the Source makes
    them: what a hand-over throws is caught by [Reader.read], which
    goes on with the data that comes next. *)
Definition run (calls : list (Kind * Z * option Media.Sample)) (s : t) : t :=
  fold_left (fun s c => state (handOver (fst (fst c)) (snd (fst c)) (snd c) s)) calls s.

End Handlers.

Definition sampleOf (trackId : Z) (e : Event) : option Media.Sample :=
  match e with
  | OnSample k sample => if k =? trackId then Some sample else None
  | _ => None
  end.

(** The samples of a track handed over so far, in order. *)
Definition handed (trackId : Z) (s : t) : list Media.Sample :=
  omap (sampleOf trackId) (trace s).

(** The first samples of a track that are waiting. *)
Definition waiting (trackId : Z) (s : t) : list Media.Sample :=
  match _firstSamples s with
  | Some fs => Samples.samplesOf trackId (Samples._samples fs)
  | None => []
  end.

(** The samples of a track among the hand-overs, in order. *)
Definition received (trackId : Z) (calls : list (Kind * Z * option Media.Sample))
    : list Media.Sample :=
  omap (fun c => if snd (fst c) =? trackId then snd c else None) calls.

End Start.

(** ** Player: the buffer limits over the calls of a player

    The two setters of the limits and the time updates, in any order. *)

Module Limits.

Import Player.

Inductive Call : Type :=
| SetLow (value : Z)
| SetHigh (value : Z)
| TimeUpdate (bufferAmount : Z).

Definition call (c : Call) (p : Player.t) : Player.t :=
  match c with
  | SetLow value => set_bufferLimitLow value p
  | SetHigh value => set_bufferLimitHigh value p
  | TimeUpdate bufferAmount => _onTimeUpdate bufferAmount p
  end.

Definition run (calls : list Call) (p : Player.t) : Player.t :=
  fold_left (fun p c => call c p) calls p.

(** The middle limit is the one the setter of the high limit computes
    from the two others. *)
Definition centred (p : Player.t) : Prop :=
  _bufferLimitLow p <= _bufferLimitHigh p
  /\ _bufferLimitMiddle p
     = Z.max 0 (_bufferLimitLow p + round_half (_bufferLimitHigh p - _bufferLimitLow p)).

End Limits.

(** ** MediaPlayback.ts

    The two buffers of a playback and its media source.  A buffer is
    named by its mime type; what a buffer does with a sample, its times
    and [_endPrevTime] are left out.  The events are the calls made on
    the buffers and on the media source, and the events fired. *)

Module MediaPlayback.

Inductive Kind : Type := AUDIO | VIDEO.

Inductive Error : Type :=
| MediaBufferInitError (mimeType : string)
| CannotCreateANewTrack (trackType : Kind)
| CannotRemoveATrack (trackType : Kind)
| MediaBufferError.

Inductive Event : Type :=
| NewBuffer (mimeType : string)            (* [new MediaBuffer(...)] that returns *)
| AbortBuffer (mimeType : string)          (* [buffer.abort()] *)
| AppendBuffer (mimeType : string) (trackId : Z)   (* [buffer.append(...)] *)
| EndOfStream                              (* [mediaSource.endOfStream()] *)
| OnBufferOverflow
| OnClose (error : option Error).

Record t : Type := mk {
  _audioBuffer : option string;
  _videoBuffer : option string;
  _mediaSource : bool;                     (* the media source is there *)
  trace : list Event
}.

(** [constructor] *)
Definition new : t := mk None None true [].

Definition emit (evs : list Event) (p : t) : t :=
  mk (_audioBuffer p) (_videoBuffer p) (_mediaSource p) (trace p ++ evs).

(** [get closed] *)
Definition closed (p : t) : bool :=
  match _audioBuffer p, _videoBuffer p with
  | None, None => true
  | _, _ => false
  end.

(** [get audioEnabled], [get videoEnabled] *)
Definition audioEnabled (p : t) : bool :=
  match _audioBuffer p with Some _ => true | None => false end.

Definition videoEnabled (p : t) : bool :=
  match _videoBuffer p with Some _ => true | None => false end.

(** [close(error)] *)
Definition close (error : option Error) (p : t) : t :=
  if negb (_mediaSource p) then p
  else
    let p1 := mk (_audioBuffer p) (_videoBuffer p) false (trace p) in
    let p2 :=
      match _audioBuffer p1 with
      | Some audio => mk (_audioBuffer p1) None false (trace p1 ++ [AbortBuffer audio])
      | None => p1
      end in
    let p3 :=
      match _videoBuffer p2 with
      | Some video => mk (_audioBuffer p2) None false (trace p2 ++ [AbortBuffer video])
      | None => p2
      end in
    emit [EndOfStream; OnClose error] p3.

(** [_newBuffer(mimeType)]; [creates] says whether [new MediaBuffer]
    returns rather than throws. *)
Definition _newBuffer (creates : bool) (mimeType : string) (p : t) : option string * t :=
  if negb (_mediaSource p) then (None, p)
  else if creates then (Some mimeType, emit [NewBuffer mimeType] p)
  else (None, close (Some (MediaBufferInitError mimeType)) p).

(** [set audioEnabled(value)] *)
Definition set_audioEnabled (creates value : bool) (p : t) : t :=
  if Bool.eqb (audioEnabled p) value then p
  else if value then
    let '(buffer, p1) := _newBuffer creates "audio/mp4" p in
    mk buffer (_videoBuffer p1) (_mediaSource p1) (trace p1)
  else close (Some (CannotRemoveATrack AUDIO)) p.

(** [set videoEnabled(value)] *)
Definition set_videoEnabled (creates value : bool) (p : t) : t :=
  if Bool.eqb (videoEnabled p) value then p
  else if value then
    let '(buffer, p1) := _newBuffer creates "video/mp4" p in
    mk (_audioBuffer p1) buffer (_mediaSource p1) (trace p1)
  else close (Some (CannotRemoveATrack VIDEO)) p.

(** [appendAudio(metadata, trackId, sample)] *)
Definition appendAudio (trackId : Z) (p : t) : t :=
  match _audioBuffer p with
  | Some audio => emit [AppendBuffer audio trackId] p
  | None => close (Some (CannotCreateANewTrack VIDEO)) p
  end.

(** [appendVideo(metadata, trackId, sample)] *)
Definition appendVideo (trackId : Z) (p : t) : t :=
  match _videoBuffer p with
  | Some video => emit [AppendBuffer video trackId] p
  | None => close (Some (CannotCreateANewTrack VIDEO)) p
  end.

(** [buffer.onError] as [_newBuffer] sets it; [exceeds] is
    [error.name === 'Exceeds buffer size']. *)
Definition onError (exceeds : bool) (p : t) : t :=
  if exceeds then emit [OnBufferOverflow] p else close (Some MediaBufferError) p.

Inductive Call : Type :=
| SetAudioEnabled (creates value : bool)
| SetVideoEnabled (creates value : bool)
| AppendAudio (trackId : Z)
| AppendVideo (trackId : Z)
| BufferError (exceeds : bool)
| CallClose (error : option Error).

Definition call (c : Call) (p : t) : t :=
  match c with
  | SetAudioEnabled creates value => set_audioEnabled creates value p
  | SetVideoEnabled creates value => set_videoEnabled creates value p
  | AppendAudio trackId => appendAudio trackId p
  | AppendVideo trackId => appendVideo trackId p
  | BufferError exceeds => onError exceeds p
  | CallClose error => close error p
  end.

Definition run (calls : list Call) (p : t) : t :=
  fold_left (fun p c => call c p) calls p.

(** What the calls leave of a playback whose media source is gone. *)
Definition isLate (audio : option string) (e : Event) : Prop :=
  e = OnBufferOverflow \/ exists trackId, option_map (fun b => AppendBuffer b trackId) audio = Some e.

End MediaPlayback.

(** ** Metadata.ts: [subset]

    [{ ...this }] copies the fields of the metadata, not what they
    refer to: the map, the arrays and the tracks that [subset] works on
    are those of the metadata it is called on. *)

Module MetadataSubset.

Import MediaTrack Metadata.

Definition Codec_eqb (a b : Media.Codec) : bool :=
  match a, b with
  | Media.UNKNOWN, Media.UNKNOWN | Media.H264, Media.H264 | Media.HEVC, Media.HEVC
  | Media.MP3, Media.MP3 | Media.AAC, Media.AAC => true
  | _, _ => false
  end.

(** [codecs.has(codec)] *)
Definition set_has (codecs : list Media.Codec) (codec : Media.Codec) : bool :=
  existsb (Codec_eqb codec) codecs.

(** [Map.prototype.delete] *)
Definition map_delete (id : Z) (m : TrackMap) : TrackMap :=
  List.filter (fun kv => negb (fst kv =? id)) m.

(** The loop of [filter(tracks, medias, codecs)] at index [i]:
    [medias.splice(i--, 1)] removes the element and the [++i] of the
    loop leaves the index where it was.  Each turn brings the index
    closer to the end of the array by one. *)
Fixpoint filterLoop (fuel : nat) (h : heap) (codecs : list Media.Codec) (i : nat)
    (tracks : TrackMap) (medias : list ref) : TrackMap * list ref :=
  match fuel with
  | O => (tracks, medias)
  | S fuel' =>
      match medias !! i with
      | None => (tracks, medias)
      | Some media =>
          if negb (set_has codecs (codec (h !!! media))) then
            filterLoop fuel' h codecs i (map_delete (id (h !!! media)) tracks)
                       (delete i medias)
          else filterLoop fuel' h codecs (S i) tracks medias
      end
  end.

Definition filter (h : heap) (codecs : list Media.Codec) (tracks : TrackMap)
    (medias : list ref) : TrackMap * list ref :=
  filterLoop (length medias) h codecs 0 tracks medias.

(** [while (track.up && !metadata.tracks.has(track.up.id)) track.up = track.up.up] *)
Fixpoint fixUp (fuel : nat) (tracks : TrackMap) (r : ref) (h : heap) : option heap :=
  match fuel with
  | O => None
  | S fuel' =>
      match up (h !!! r) with
      | Some u =>
          if negb (map_has (id (h !!! u)) tracks) then
            fixUp fuel' tracks r (<[r := set_up (up (h !!! u)) (h !!! r)]> h)
          else Some h
      | None => Some h
      end
  end.

(** [while (track.down && !metadata.tracks.has(track.down.id)) track.down = track.down.down] *)
Fixpoint fixDown (fuel : nat) (tracks : TrackMap) (r : ref) (h : heap) : option heap :=
  match fuel with
  | O => None
  | S fuel' =>
      match down (h !!! r) with
      | Some d =>
          if negb (map_has (id (h !!! d)) tracks) then
            fixDown fuel' tracks r (<[r := set_down (down (h !!! d)) (h !!! r)]> h)
          else Some h
      | None => Some h
      end
  end.

(** One turn of [for (const [, track] of metadata.tracks)]. *)
Definition relink (fuel : nat) (tracks : TrackMap) (h : option heap) (r : ref) : option heap :=
  match h with
  | Some h0 =>
      match fixUp fuel tracks r h0 with
      | Some h1 => fixDown fuel tracks r h1
      | None => None
      end
  | None => None
  end.

(** [subset(codecs)]: the heap and the metadata returned, whose map
    and arrays are also those of the metadata it was called on. *)
Definition subset (fuel : nat) (codecs : option (list Media.Codec)) (h : heap) (m : t)
    : option (heap * t) :=
  match codecs with
  | Some cs =>
      let '(tracks1, audio) := filter h cs (tracks m) (audioTracks m) in
      let '(tracks2, video) := filter h cs tracks1 (videoTracks m) in
      match fold_left (relink fuel tracks2) (map snd tracks2) (Some h) with
      | Some h' => Some (h', mk tracks2 audio video (dataTracks m))
      | None => None
      end
  | None => Some (h, m)
  end.

Definition supported (h : heap) (codecs : list Media.Codec) (r : ref) : bool :=
  set_has codecs (codec (h !!! r)).

Definition all (m : t) : list ref := audioTracks m ++ videoTracks m ++ dataTracks m.

(** A metadata in order: three chains of tracks of distinct ids, and a
    map that holds each of them under its id and nothing else. *)
Definition chained (h : heap) (m : t) : Prop :=
  linked h None (audioTracks m) /\ linked h None (videoTracks m)
  /\ linked h None (dataTracks m)
  /\ NoDup (map (fun r => id (h !!! r)) (all m))
  /\ Forall (fun kv => fst kv = id (h !!! snd kv) /\ snd kv ∈ all m) (tracks m)
  /\ Forall (fun r => map_has (id (h !!! r)) (tracks m) = true) (all m).

(** A manifest with renditions of several codecs. *)
Definition mixedHeap : heap :=
  <[0%nat := MediaTrack.new 0]>
  (<[1%nat := MediaTrack.mk 1 Media.VIDEO Media.H264 800 (Media.mkResolution 1280 720)
               None None]>
   (<[2%nat := MediaTrack.mk 2 Media.VIDEO Media.HEVC 600 (Media.mkResolution 1280 720)
                 None None]>
    (<[3%nat := MediaTrack.mk 3 Media.VIDEO Media.HEVC 500 (Media.mkResolution 640 360)
                  None None]>
     (<[4%nat := MediaTrack.mk 4 Media.VIDEO Media.H264 400 (Media.mkResolution 640 360)
                   None None]>
      (<[5%nat := MediaTrack.mk 5 Media.AUDIO Media.AAC 100 (Media.mkResolution 0 0)
                    None None]>
       (<[6%nat := MediaTrack.mk 6 Media.AUDIO Media.MP3 50 (Media.mkResolution 0 0)
                     None None]> ∅)))))).

Definition mixed : heap * t :=
  fix_ mixedHeap
    (Metadata.mk [(0, 0%nat); (1, 1%nat); (2, 2%nat); (3, 3%nat); (4, 4%nat);
                  (5, 5%nat); (6, 6%nat)] [] [] []).

End MetadataSubset.

(** * Properties *)

(** ** Source: timestamp repair *)

Section FixTimestamp.

Import Source.

Variables (now trackId : Z).

Lemma fixTimestamp_stamp type cur sample s :
  snd (fst (fixTimestamp now type trackId cur sample s)) =
    let delta := if 0 <=? cur then time sample - cur else 0 in
    if negb (delta =? 0) && repairs type delta
    then mkStamp cur (match duration sample with
                      | Some d => Some (Z.max 1 (d + delta))
                      | None => None
                      end)
    else sample.
Proof.
  unfold fixTimestamp. cbv zeta.
  destruct (negb _ && repairs type _) eqn:E; simpl; [|reflexivity].
  destruct (duration sample) as [d|]; simpl; [|reflexivity].
  replace (Z.max 1 _ =? 0) with false; [reflexivity|].
  symmetry. apply Z.eqb_neq. lia.
Qed.

Lemma fixTimestamp_time type cur sample s :
  fst (fst (fixTimestamp now type trackId cur sample s)) =
    let st := snd (fst (fixTimestamp now type trackId cur sample s)) in
    time st + default 0 (duration st).
Proof.
  unfold fixTimestamp. cbv zeta.
  destruct (negb _ && repairs type _); reflexivity.
Qed.

Lemma fixTimestamp_times type cur sample s :
  let s' := snd (fixTimestamp now type trackId cur sample s) in
  _audioTime s' = _audioTime s /\ _videoTime s' = _videoTime s
  /\ _dataTime s' = _dataTime s /\ _closed s' = _closed s.
Proof.
  unfold fixTimestamp, fixLive. cbv zeta.
  repeat match goal with
         | |- context [if ?b then _ else _] => destruct b
         | |- context [match ?x with _ => _ end] => destruct x
         end; simpl; auto.
Qed.

End FixTimestamp.

Section AudioHole.

Import Source.

(** The sample as [fixTimestamp] leaves it. *)
Local Abbreviation repaired now trackId cur sample s :=
  (snd (fst (fixTimestamp now Media.AUDIO trackId cur sample s))).

(** C1, as stated, fails: an audio sample 8 ms after the current audio
    time keeps its time and its duration; it is not set back to the
    current time with a stretched duration. *)
Lemma audio_hole_of_8ms_is_skipped :
  repaired 0 0 1000 (mkStamp 1008 (Some 20)) Source.new = mkStamp 1008 (Some 20)
  /\ repaired 0 0 1000 (mkStamp 1008 (Some 20)) Source.new
     <> mkStamp 1000 (Some (Z.max 1 (20 + 8))).
Proof. split; [reflexivity | discriminate]. Qed.

(** C1, amended: with a prior audio time [cur], an audio sample whose
    forward gap [delta = sample.time - cur] is 7 ms or more (7 and 8
    alike) is left as it is; a sample with [delta < 7], [delta <> 0]
    (an overlap or a hole below the tolerance) is set back to [cur] and
    its duration, when set, becomes [max(1, duration + delta)]. *)
Theorem audio_hole_tolerance (now trackId cur : Z) (sample : Stamp) (s : Source.t) :
  0 <= cur ->
  let delta := time sample - cur in
  (TIMESTAMP_HOLE_TOLERANCE <= delta -> repaired now trackId cur sample s = sample)
  /\ (delta = 7 -> repaired now trackId cur sample s = sample)
  /\ (delta = 8 -> repaired now trackId cur sample s = sample)
  /\ (delta < TIMESTAMP_HOLE_TOLERANCE -> delta <> 0 ->
      repaired now trackId cur sample s =
        mkStamp cur ((fun d => Z.max 1 (d + delta)) <$> duration sample)).
Proof.
  intros Hcur delta.
  assert (Hskip : TIMESTAMP_HOLE_TOLERANCE <= delta ->
                  repaired now trackId cur sample s = sample).
  { intros Hd. rewrite fixTimestamp_stamp. cbv zeta.
    destruct (Z.leb_spec 0 cur); [|lia].
    fold delta. unfold repairs. simpl.
    destruct (Z.ltb_spec delta TIMESTAMP_HOLE_TOLERANCE); [lia|].
    now rewrite andb_false_r. }
  unfold TIMESTAMP_HOLE_TOLERANCE in *.
  repeat split.
  - exact Hskip.
  - intros Hd. apply Hskip. lia.
  - intros Hd. apply Hskip. lia.
  - intros Hlt Hne. rewrite fixTimestamp_stamp. cbv zeta.
    destruct (Z.leb_spec 0 cur); [|lia].
    fold delta. unfold repairs, TIMESTAMP_HOLE_TOLERANCE. simpl.
    destruct (Z.eqb_spec delta 0); [contradiction|].
    destruct (Z.ltb_spec delta 7); [|lia].
    simpl. now destruct (duration sample).
Qed.

Lemma audio_hole_tolerance_witness :
  repaired 0 0 1000 (mkStamp 1007 (Some 20)) Source.new = mkStamp 1007 (Some 20)
  /\ repaired 0 0 1000 (mkStamp 1006 (Some 20)) Source.new = mkStamp 1000 (Some 26)
  /\ repaired 0 0 1000 (mkStamp 990 (Some 4)) Source.new = mkStamp 1000 (Some 1).
Proof.
  assert (H : 0 <= 1000) by lia.
  split; [|split].
  - destruct (audio_hole_tolerance 0 0 1000 (mkStamp 1007 (Some 20)) Source.new H)
      as (_ & H7 & _).
    apply H7. reflexivity.
  - destruct (audio_hole_tolerance 0 0 1000 (mkStamp 1006 (Some 20)) Source.new H)
      as (_ & _ & _ & Hfix).
    apply Hfix; simpl; unfold TIMESTAMP_HOLE_TOLERANCE; lia.
  - destruct (audio_hole_tolerance 0 0 1000 (mkStamp 990 (Some 4)) Source.new H)
      as (_ & _ & _ & Hfix).
    apply Hfix; simpl; unfold TIMESTAMP_HOLE_TOLERANCE; lia.
Defined.

End AudioHole.

(** ** Source: the per-kind times never go back *)

Section CurrentTimes.

Import Source.

Variables (now trackId : Z).

Lemma repaired_duration type cur sample s :
  (forall d, duration sample = Some d -> 0 <= d) ->
  forall d, duration (snd (fst (fixTimestamp now type trackId cur sample s))) = Some d ->
  0 <= d.
Proof.
  intros Hd d. rewrite fixTimestamp_stamp. cbv zeta.
  destruct (negb _ && _); [|apply Hd].
  simpl. destruct (duration sample); [|discriminate].
  intros [= <-]. lia.
Qed.

(** With a duration that is not negative, the time returned is the
    repaired time plus [max(duration, 0)], and it is not before the
    current time passed in. *)
Lemma fixTimestamp_nextTime type cur sample s :
  0 <= time sample ->
  (forall d, duration sample = Some d -> 0 <= d) ->
  let ct := fst (fst (fixTimestamp now type trackId cur sample s)) in
  let st := snd (fst (fixTimestamp now type trackId cur sample s)) in
  ct = time st + Z.max (default 0 (duration st)) 0 /\ cur <= ct.
Proof.
  intros Ht Hd ct st.
  assert (Hst := repaired_duration type cur sample s Hd). fold st in Hst.
  assert (Hct : ct = time st + default 0 (duration st))
    by apply fixTimestamp_time.
  split.
  - rewrite Hct. destruct (duration st) as [d|]; simpl; [|lia].
    specialize (Hst d eq_refl). lia.
  - rewrite Hct. subst st. clear Hct ct. revert Hst.
    rewrite fixTimestamp_stamp. cbv zeta.
    destruct (Z.leb_spec 0 cur) as [Hc|Hc].
    + destruct (Z.eqb_spec (time sample - cur) 0) as [H0|H0]; simpl.
      * intros Hst. destruct (duration sample) as [d|]; simpl.
        -- specialize (Hd d eq_refl). lia.
        -- lia.
      * destruct (repairs type (time sample - cur)) eqn:R; simpl; intros Hst.
        -- destruct (duration sample); simpl; lia.
        -- assert (0 <= time sample - cur).
           { unfold repairs, TIMESTAMP_HOLE_TOLERANCE in R.
             destruct type; simpl in R; try discriminate.
             - apply Z.ltb_ge in R. lia.
             - apply Z.ltb_ge in R. lia. }
           destruct (duration sample) as [d|]; simpl.
           ++ specialize (Hd d eq_refl). lia.
           ++ lia.
    + simpl. intros Hst. destruct (duration sample) as [d|]; simpl.
      * specialize (Hd d eq_refl). lia.
      * lia.
Qed.

End CurrentTimes.

Section Monotone.

Import Source Run.

Lemma times_le_refl s : times_le s s.
Proof. unfold times_le. lia. Qed.

Lemma times_le_trans s1 s2 s3 : times_le s1 s2 -> times_le s2 s3 -> times_le s1 s3.
Proof. unfold times_le. lia. Qed.

Lemma readAudio_times_le now trackId sample s :
  0 <= Media.time sample -> 0 <= Media.duration sample ->
  times_le s (snd (readAudio now trackId (Some sample) s)).
Proof.
  intros Ht Hd. unfold readAudio.
  destruct (trackId <? 0); [unfold times_le; simpl; lia|].
  destruct (fixTimestamp now Media.AUDIO trackId (_audioTime s) (stamp_of sample) s)
    as [[ct st] s1] eqn:E.
  pose proof (fixTimestamp_nextTime now trackId Media.AUDIO (_audioTime s)
                (stamp_of sample) s Ht) as H.
  pose proof (fixTimestamp_times now trackId Media.AUDIO (_audioTime s)
                (stamp_of sample) s) as H'.
  rewrite E in H, H'. simpl in H, H'.
  destruct H as [_ H]; [intros d [= <-]; exact Hd|].
  unfold times_le. simpl. lia.
Qed.

Lemma readVideo_times_le now trackId sample s :
  0 <= Media.time sample ->
  times_le s (snd (readVideo now trackId (Some sample) s)).
Proof.
  intros Ht. unfold readVideo.
  destruct (trackId <? 0); [unfold times_le; simpl; lia|].
  set (ext := if Media.duration sample <? 0 then Some (- Media.duration sample) else None).
  set (smp0 := match ext with Some d => set_duration d sample | None => sample end).
  assert (H0 : 0 <= Media.time smp0 /\ 0 <= Media.duration smp0).
  { subst smp0 ext. destruct (Z.ltb_spec (Media.duration sample) 0); simpl; lia. }
  destruct (fixTimestamp now Media.VIDEO trackId (_videoTime s) (stamp_of smp0) s)
    as [[ct st] s1] eqn:E.
  pose proof (fixTimestamp_nextTime now trackId Media.VIDEO (_videoTime s)
                (stamp_of smp0) s (proj1 H0)) as H.
  pose proof (fixTimestamp_times now trackId Media.VIDEO (_videoTime s)
                (stamp_of smp0) s) as H'.
  rewrite E in H, H'. simpl in H, H'.
  destruct H as [_ H]; [intros d [= <-]; apply H0|].
  assert (Hs2 : times_le s (set_videoTime ct s1)) by (unfold times_le; simpl; lia).
  assert (Hmax : times_le s (set_videoTime (currentTime (set_videoTime ct s1))
                               (set_videoTime ct s1))).
  { unfold times_le, currentTime. simpl. lia. }
  destruct ext as [d|]; [|exact Hs2].
  destruct (negb (d =? 0) && _); [|exact Hs2].
  exact Hmax.
Qed.

Lemma readData_times_le now trackId time s :
  0 <= time -> times_le s (readData now trackId time s).
Proof.
  intros Ht. unfold readData.
  destruct (negb (_closed s)); [|apply times_le_refl].
  destruct (fixTimestamp now Media.DATA trackId (_dataTime s) (mkStamp time None) s)
    as [[ct st] s1] eqn:E.
  pose proof (fixTimestamp_nextTime now trackId Media.DATA (_dataTime s)
                (mkStamp time None) s Ht) as H.
  pose proof (fixTimestamp_times now trackId Media.DATA (_dataTime s)
                (mkStamp time None) s) as H'.
  rewrite E in H, H'. simpl in H, H'.
  destruct H as [_ H]; [discriminate|].
  unfold times_le. simpl. lia.
Qed.

Lemma close_times_le error s : times_le s (close error s).
Proof. unfold close, times_le. destruct (_closed s); simpl; lia. Qed.

Lemma call_times_le c s : wellTimedCall c -> times_le s (call c s).
Proof.
  destruct c as [error|now [trackId sample|trackId sample|trackId time]]; simpl.
  - intros _. apply close_times_le.
  - intros [Ht Hd]. now apply readAudio_times_le.
  - intros Ht. now apply readVideo_times_le.
  - intros Ht. now apply readData_times_le.
Qed.

Lemma run_times_le calls : forall s, Forall wellTimedCall calls -> times_le s (run calls s).
Proof.
  induction calls as [|c calls IH]; intros s Hall.
  - apply times_le_refl.
  - inversion Hall as [|? ? Hc Hrest]; subst.
    apply times_le_trans with (call c s).
    + now apply call_times_le.
    + apply IH, Hrest.
Qed.

(** C4, as stated, fails: the duration of an audio sample is not
    normalised, and fixTimestamp returns [time + duration], not
    [time + max(duration, 0)]; an audio sample with a negative duration
    takes the audio time back, from 1000 to 995. *)
Lemma audio_time_goes_back_on_negative_duration :
  let s1 := run [Feed 0 (Audio 0 (Media.mkSample 980 20 [] None None None))] Source.new in
  let s2 := run [Feed 0 (Audio 0 (Media.mkSample 1000 (-5) [] None None None))] s1 in
  _audioTime s1 = 1000 /\ _audioTime s2 = 995 /\ _audioTime s2 < _audioTime s1
  /\ _audioTime s2 <> 1000 + Z.max (-5) 0.
Proof. vm_compute. repeat split; congruence. Qed.

(** C4, amended: over any run of the Source in which times are unsigned
    and audio durations are not negative, none of the three per-kind
    current times ever decreases; the duration of a video sample may be
    negative (extendable), readVideo makes it positive before the repair.
    Whenever the duration that reaches fixTimestamp is not negative, the
    time it returns is the repaired [time + max(duration, 0)] and is not
    before the time passed in. *)
Theorem current_times_never_decrease (calls : list Call) (s : Source.t) :
  Forall wellTimedCall calls ->
  (_audioTime s <= _audioTime (run calls s)
   /\ _videoTime s <= _videoTime (run calls s)
   /\ _dataTime s <= _dataTime (run calls s))
  /\ (forall now type trackId cur sample s0,
        0 <= time sample ->
        (forall d, duration sample = Some d -> 0 <= d) ->
        let ct := fst (fst (fixTimestamp now type trackId cur sample s0)) in
        let st := snd (fst (fixTimestamp now type trackId cur sample s0)) in
        ct = time st + Z.max (default 0 (duration st)) 0 /\ cur <= ct).
Proof.
  intros Hall. split.
  - exact (run_times_le calls s Hall).
  - intros now type trackId cur sample s0. apply fixTimestamp_nextTime.
Qed.

Lemma current_times_never_decrease_witness :
  let calls :=
    [Feed 10 (Audio 0 (Media.mkSample 980 20 [1] None None None));
     Feed 20 (Video 1 (Media.mkSample 960 (-40) [2] None (Some true) None));
     Feed 30 (Data 2 990);
     Feed 40 (Audio 0 (Media.mkSample 1010 20 [3] None None None))] in
  _audioTime Source.new <= _audioTime (run calls Source.new)
  /\ _videoTime Source.new <= _videoTime (run calls Source.new)
  /\ _dataTime Source.new <= _dataTime (run calls Source.new).
Proof.
  intros calls.
  apply (current_times_never_decrease calls Source.new).
  subst calls. repeat constructor; simpl; lia.
Defined.

End Monotone.

(** ** Source: close *)

Section Close.

Import Source Run.

Lemma close_closed error s : _closed (close error s) = true.
Proof. unfold close. destruct (_closed s) eqn:E; [exact E | reflexivity]. Qed.

Lemma close_when_closed error s : _closed s = true -> close error s = s.
Proof. intros H. unfold close. now rewrite H. Qed.

Lemma closings_emit evs s :
  closings (emit evs s)
  = (closings s + length (filter (fun e => isOnClose e = true) evs))%nat.
Proof. unfold closings, emit. simpl. now rewrite filter_app, length_app. Qed.

Lemma fixTimestamp_closings now type trackId cur sample s :
  closings (snd (fixTimestamp now type trackId cur sample s)) = closings s.
Proof.
  unfold fixTimestamp, fixLive. cbv zeta.
  repeat match goal with
         | |- context [if ?b then _ else _] => destruct b
         | |- context [match ?x with _ => _ end] => destruct x
         end; simpl;
    unfold closings; simpl; rewrite ?filter_app, ?length_app; simpl; lia.
Qed.

(** A sample that comes in neither reopens the Source nor fires
    [onClose]. *)
Lemma ingest_keeps now e s :
  _closed (ingest now e s) = _closed s /\ closings (ingest now e s) = closings s.
Proof.
  destruct e as [trackId sample|trackId sample|trackId time]; simpl.
  - unfold readAudio. destruct (trackId <? 0).
    + split; [reflexivity|]. simpl. rewrite closings_emit. simpl. lia.
    + pose proof (fixTimestamp_times now trackId Media.AUDIO (_audioTime s)
                    (stamp_of sample) s) as H.
      pose proof (fixTimestamp_closings now Media.AUDIO trackId (_audioTime s)
                    (stamp_of sample) s) as H'.
      destruct (fixTimestamp _ _ _ _ _ _) as [[ct st] s1]. simpl in *.
      split; [apply H | exact H'].
  - unfold readVideo. destruct (trackId <? 0).
    + split; [reflexivity|]. simpl. rewrite closings_emit. simpl. lia.
    + set (smp0 := match (if Media.duration sample <? 0 then _ else _) with
                   | Some d => _ | None => _ end).
      pose proof (fixTimestamp_times now trackId Media.VIDEO (_videoTime s)
                    (stamp_of smp0) s) as H.
      pose proof (fixTimestamp_closings now Media.VIDEO trackId (_videoTime s)
                    (stamp_of smp0) s) as H'.
      destruct (fixTimestamp _ _ _ _ _ _) as [[ct st] s1]. simpl in *.
      destruct (if Media.duration sample <? 0 then _ else _) as [d|]; simpl.
      * destruct (negb (d =? 0) && _); simpl.
        -- split; [apply H|]. rewrite closings_emit. simpl.
           unfold closings in *. simpl. rewrite H'. lia.
        -- split; [apply H | exact H'].
      * split; [apply H | exact H'].
  - unfold readData. destruct (_closed s) eqn:Hc; simpl; [now rewrite Hc|].
    pose proof (fixTimestamp_times now trackId Media.DATA (_dataTime s)
                  (mkStamp time None) s) as H.
    pose proof (fixTimestamp_closings now Media.DATA trackId (_dataTime s)
                  (mkStamp time None) s) as H'.
    destruct (fixTimestamp _ _ _ _ _ _) as [[ct st] s1]. simpl in *.
    split; [rewrite <- Hc; apply H|].
    rewrite closings_emit. simpl. unfold closings in *. simpl. rewrite H'. lia.
Qed.

(** [onClose] is fired by a call of [close] on a Source that is open,
    and by nothing else. *)
Lemma call_closings c s :
  closings (call c s)
  = (closings s
     + match c with
       | Close _ => if _closed s then 0 else 1
       | Feed _ _ => 0
       end)%nat.
Proof.
  destruct c as [error|now e]; simpl.
  - unfold close. destruct (_closed s); [lia|].
    unfold closings. simpl. rewrite filter_app, length_app. simpl. lia.
  - rewrite (proj2 (ingest_keeps now e s)). lia.
Qed.

Lemma call_keeps_closed c s : _closed s = true -> _closed (call c s) = true.
Proof.
  intros H. destruct c as [error|now e]; simpl.
  - apply close_closed.
  - rewrite (proj1 (ingest_keeps now e s)). exact H.
Qed.

Lemma run_keeps_closed calls : forall s, _closed s = true -> _closed (run calls s) = true.
Proof.
  induction calls as [|c calls IH]; intros s H; simpl; [exact H|].
  apply IH, call_keeps_closed, H.
Qed.

Lemma run_closings calls : forall s,
  (closings (run calls s) <= closings s + (if _closed s then 0 else 1))%nat.
Proof.
  induction calls as [|c calls IH]; intros s; simpl.
  - lia.
  - specialize (IH (call c s)).
    rewrite call_closings in IH.
    destruct c as [error|now e]; simpl in *.
    + rewrite close_closed in IH. destruct (_closed s); lia.
    + rewrite (proj1 (ingest_keeps now e s)) in IH. lia.
Qed.

(** C10: a call of [close] on a closed Source returns the Source as it
    is, whatever the error passed and whatever was called in between;
    over any sequence of calls on a new Source [onClose] is fired at most
    once, and it is fired exactly once by the first [close]. *)
Theorem close_is_idempotent (calls : list Call) (error0 error : option SourceError)
    (s : Source.t) :
  close error (close error0 s) = close error0 s
  /\ close error (run calls (close error0 s)) = run calls (close error0 s)
  /\ (closings (run calls Source.new) <= 1)%nat
  /\ closings (run calls (close error0 Source.new)) = 1%nat.
Proof.
  repeat split.
  - apply close_when_closed, close_closed.
  - apply close_when_closed, run_keeps_closed, close_closed.
  - pose proof (run_closings calls Source.new) as H. simpl in H. exact H.
  - pose proof (run_closings calls (close error0 Source.new)) as H.
    rewrite close_closed in H.
    assert (Hc : closings (close error0 Source.new) = 1%nat) by reflexivity.
    assert (Hge : forall cs s0, (closings s0 <= closings (run cs s0))%nat).
    { induction cs as [|c cs IHcs]; intros s0; simpl; [lia|].
      specialize (IHcs (call c s0)).
      rewrite call_closings in IHcs. lia. }
    specialize (Hge calls (close error0 Source.new)). lia.
Qed.

End Close.

(** ** Player: the buffer state on a time update *)

Section BufferStateMachine.

Import Player.

Lemma BufferState_eqb_eq a b : BufferState_eqb a b = true <-> a = b.
Proof. destruct a, b; simpl; split; congruence. Qed.

Lemma setBufferState_state state p : _bufferState (_setBufferState state p) = state.
Proof.
  unfold _setBufferState.
  destruct (BufferState_eqb (_bufferState p) state) eqn:E; simpl; [|reflexivity].
  now apply BufferState_eqb_eq.
Qed.

(** The setters keep the low threshold at or below the high one. *)
Lemma set_bufferLimitHigh_ordered value p :
  _bufferLimitLow (set_bufferLimitHigh value p)
  <= _bufferLimitHigh (set_bufferLimitHigh value p).
Proof. unfold set_bufferLimitHigh. simpl. lia. Qed.

Lemma set_bufferLimitLow_ordered value p :
  _bufferLimitLow (set_bufferLimitLow value p)
  <= _bufferLimitHigh (set_bufferLimitLow value p).
Proof. unfold set_bufferLimitLow. apply set_bufferLimitHigh_ordered. Qed.

Lemma new_limits :
  _bufferLimitLow Player.new = 150 /\ _bufferLimitMiddle Player.new = 350
  /\ _bufferLimitHigh Player.new = 550.
Proof. repeat split. Qed.

(** C2: once the first buffering has ended (the state is not NONE while
    buffering), a time update of a Player that has its playback and its
    source leaves the buffer state HIGH above the high threshold, LOW at
    or below the low one, and in between: from LOW it becomes OK only
    above the middle threshold, from HIGH (and from NONE) it becomes OK
    only below the middle threshold, OK stays OK, and otherwise the state
    does not change. *)
Theorem onTimeUpdate_bufferState (bufferAmount : Z) (p : Player.t) :
  _playback p = true -> _source p = true ->
  (_bufferState p = NONE -> _buffering p = false) ->
  _bufferLimitLow p <= _bufferLimitHigh p ->
  _bufferState (_onTimeUpdate bufferAmount p) =
    if bufferAmount >? _bufferLimitHigh p then HIGH
    else if bufferAmount <=? _bufferLimitLow p then LOW
    else match _bufferState p with
         | LOW => if bufferAmount >? _bufferLimitMiddle p then OK else LOW
         | HIGH => if bufferAmount <? _bufferLimitMiddle p then OK else HIGH
         | OK => OK
         | NONE => if bufferAmount <? _bufferLimitMiddle p then OK else NONE
         end.
Proof.
  intros Hp Hs Hnone Hord. unfold _onTimeUpdate. rewrite Hp, Hs. simpl.
  assert (Hguard : BufferState_eqb (_bufferState p) NONE && _buffering p = false).
  { destruct (_bufferState p) eqn:E; simpl; try reflexivity. now apply Hnone. }
  rewrite Hguard.
  destruct (Z.gtb_spec bufferAmount (_bufferLimitLow p)) as [Hlow|Hlow].
  - destruct (Z.gtb_spec bufferAmount (_bufferLimitHigh p)) as [Hhigh|Hhigh].
    + apply setBufferState_state.
    + destruct (Z.leb_spec bufferAmount (_bufferLimitLow p)); [lia|].
      destruct (_bufferState p) eqn:E; simpl;
        match goal with
        | |- context [if ?b then _ else _] =>
            destruct b; rewrite ?setBufferState_state; simpl; auto
        end.
  - destruct (Z.gtb_spec bufferAmount (_bufferLimitHigh p)); [lia|].
    destruct (Z.leb_spec bufferAmount (_bufferLimitLow p)); [|lia].
    apply setBufferState_state.
Qed.

Lemma onTimeUpdate_bufferState_witness :
  let p := Player.mk true true LOW false 150 350 550 [] in
  _bufferState (_onTimeUpdate 300 p) = LOW
  /\ _bufferState (_onTimeUpdate 351 p) = OK
  /\ _bufferState (_onTimeUpdate 551 p) = HIGH
  /\ _bufferState (_onTimeUpdate 150 (Player.mk true true HIGH false 150 350 550 [])) = LOW
  /\ _bufferState (_onTimeUpdate 350 (Player.mk true true HIGH false 150 350 550 [])) = HIGH
  /\ _bufferState (_onTimeUpdate 349 (Player.mk true true HIGH false 150 350 550 [])) = OK.
Proof.
  intros p.
  refine (conj _ (conj _ (conj _ (conj _ (conj _ _))))).
  - apply (onTimeUpdate_bufferState 300 p); simpl; (reflexivity || discriminate || lia).
  - apply (onTimeUpdate_bufferState 351 p); simpl; (reflexivity || discriminate || lia).
  - apply (onTimeUpdate_bufferState 551 p); simpl; (reflexivity || discriminate || lia).
  - apply (onTimeUpdate_bufferState 150 (Player.mk true true HIGH false 150 350 550 []));
      simpl; (reflexivity || discriminate || lia).
  - apply (onTimeUpdate_bufferState 350 (Player.mk true true HIGH false 150 350 550 []));
      simpl; (reflexivity || discriminate || lia).
  - apply (onTimeUpdate_bufferState 349 (Player.mk true true HIGH false 150 350 550 []));
      simpl; (reflexivity || discriminate || lia).
Defined.

End BufferStateMachine.

(** ** HTTPAdaptiveSource: skipping sequences *)

Section SequenceSkip.

Import HTTPAdaptiveSource.

Variables (head : Z -> Z -> Response) (clock : nat -> Z).

(** The loop ends: a candidate is below the one before, and the loop
    stops at the first candidate that is not above the sequence. *)
Lemma skipLoop_ends m cur tracks : forall fuel i st p,
  s_newSequence st = Some p ->
  (Z.to_nat (p - s_sequence st) < fuel)%nat ->
  exists r, skipLoop head clock m cur tracks fuel i st = Some r.
Proof.
  induction fuel as [|fuel IH]; intros i st p Hp Hfuel; [lia|].
  simpl. destruct (_ >? cur); [|eauto].
  destruct (skipTrack tracks) as [track|]; [|eauto].
  rewrite Hp. simpl.
  set (cand := Z.min _ (p - 1)).
  destruct (Z.leb_spec cand (s_sequence st)); [eauto|].
  destruct (ok (head track cand) && _); [eauto|].
  apply (IH _ _ cand); simpl; [reflexivity|]. lia.
Qed.

Lemma skipLoop_total m cur tracks i st :
  exists fuel r, skipLoop head clock m cur tracks fuel i st = Some r.
Proof.
  destruct (s_newSequence st) as [p|] eqn:Hp.
  - exists (S (Z.to_nat (p - s_sequence st))).
    apply (skipLoop_ends m cur tracks _ i st p Hp). lia.
  - set (live := Source.liveTime (clock i) m).
    set (cand := s_sequence st + (live - cur) / s_maxSequenceDuration st).
    remember (S (Z.to_nat (cand - s_sequence st))) as fuel eqn:Hfuel.
    exists (S fuel).
    cbn [skipLoop]. fold live. destruct (live >? cur); [|eauto].
    destruct (skipTrack tracks) as [track|]; [|eauto].
    rewrite Hp. unfold candidate. fold cand.
    destruct (cand <=? s_sequence st); [eauto|].
    destruct (ok (head track cand) && _); [eauto|].
    apply (skipLoop_ends m cur tracks _ _ _ cand); simpl; [reflexivity|]. lia.
Qed.


End SequenceSkip.

Section SkipScenario.

Import HTTPAdaptiveSource.




End SkipScenario.

(** ** HTTPAdaptiveSource: the bandwidth emulation probe *)

Section BandwidthEmulation.

Import HTTPAdaptiveSource MediaTrack Fixtures.

Lemma ceil_div_1000_spec x :
  1000 * (ceil_div_1000 x - 1) < x <= 1000 * ceil_div_1000 x.
Proof.
  unfold ceil_div_1000.
  pose proof (Z.div_mod (- x) 1000 ltac:(lia)).
  pose proof (Z.mod_pos_bound (- x) 1000 ltac:(lia)).
  lia.
Qed.

(** When the conditions hold, what the probe is depends on the byte rate
    to add and on the length computed from it. *)
Lemma upProbe_enabled now h maximumResolution vt upr prev pseq s ar :
  prevVideoTime s = Some prev ->
  prevVideoSequence s = Some pseq ->
  AdaptiveRetry.try now (adaptiveRetry s) = (true, ar) ->
  up (h !!! vt) = Some upr ->
  Media.overScreenSize (resolution (h !!! upr)) maximumResolution = false ->
  let extra := bandwidth (h !!! upr) - bandwidth (h !!! vt) in
  snd (fst (fst (upProbe now h maximumResolution (Some vt) s))) =
    if extra >=? 0
    then ProbeRequest (request UpController (id (h !!! upr)) pseq
                         (Some (ceil_div_1000 (extra * (videoTime s - prev)))))
    else NoProbe.
Proof.
  intros Hprev Hpseq Htry Hup Hscreen extra. unfold upProbe.
  rewrite Hprev, Htry, Hup, Hscreen, Hpseq. simpl. fold extra.
  now destruct (extra >=? 0).
Qed.

(** C9, as stated, fails twice.  With an up rendition of the same
    bandwidth (extraByteRate = 0) a request is sent all the same; and
    whenever the length computed is 0 (here also with extraByteRate = 400
    and no progress of the video time) the request is a HEAD request
    without a Range header, not a GET with [Range: bytes=0-(len-1)]. *)
Lemma up_probe_is_sent_for_equal_bandwidth_and_as_head :
  snd (fst (fst (upProbe 5000 (ladder 400) None (Some 1%nat) (playing 7000 5000))))
    = ProbeRequest (mkRequest UpController HEAD 2 99 None)
  /\ snd (fst (fst (upProbe 5000 (ladder 800) None (Some 1%nat) (playing 7000 7000))))
    = ProbeRequest (mkRequest UpController HEAD 2 99 None).
Proof. split; vm_compute; reflexivity. Qed.

(** C9, amended: when the conditions hold (a chosen video track with an
    up rendition that fits the screen, a previous video time and
    sequence, a retry gate that opens), with
    [extraByteRate = up.bandwidth - bandwidth] and
    [len = ceil(extraByteRate * (videoTime - prevVideoTime) / 1000)]:
    no request is sent when [extraByteRate < 0]; when [extraByteRate > 0]
    the probe is sent on [up.id] for the previous sequence, as a GET with
    [Range: bytes=0-(len-1)] when [len] is not 0, and as a HEAD request
    without Range when [len] is 0. *)
Theorem up_probe (now : Z) (h : Metadata.heap) (maximumResolution : option Media.Resolution)
    (vt upr : ref) (prev pseq : Z) (s : HTTPAdaptiveSource.t) (ar : AdaptiveRetry.t) :
  prevVideoTime s = Some prev ->
  prevVideoSequence s = Some pseq ->
  AdaptiveRetry.try now (adaptiveRetry s) = (true, ar) ->
  up (h !!! vt) = Some upr ->
  Media.overScreenSize (resolution (h !!! upr)) maximumResolution = false ->
  let extraByteRate := bandwidth (h !!! upr) - bandwidth (h !!! vt) in
  let len := ceil_div_1000 (extraByteRate * (videoTime s - prev)) in
  let probe := snd (fst (fst (upProbe now h maximumResolution (Some vt) s))) in
  1000 * (len - 1) < extraByteRate * (videoTime s - prev) <= 1000 * len
  /\ (extraByteRate < 0 -> probe = NoProbe)
  /\ (0 < extraByteRate -> len <> 0 ->
      probe = ProbeRequest (mkRequest UpController GET (id (h !!! upr)) pseq (Some (len - 1))))
  /\ (0 < extraByteRate -> len = 0 ->
      probe = ProbeRequest (mkRequest UpController HEAD (id (h !!! upr)) pseq None)).
Proof.
  intros Hprev Hpseq Htry Hup Hscreen extraByteRate len probe.
  assert (Hprobe := upProbe_enabled now h maximumResolution vt upr prev pseq s ar
                      Hprev Hpseq Htry Hup Hscreen).
  cbv zeta in Hprobe. fold extraByteRate in Hprobe. fold len in Hprobe.
  fold probe in Hprobe.
  split; [apply ceil_div_1000_spec|].
  split; [|split].
  - intros Hneg. rewrite Hprobe.
    destruct (Z.geb_spec extraByteRate 0); [lia | reflexivity].
  - intros Hpos Hlen. rewrite Hprobe.
    destruct (Z.geb_spec extraByteRate 0); [|lia].
    unfold request. destruct (Z.eqb_spec len 0); [contradiction|].
    simpl. now destruct len.
  - intros Hpos Hlen. rewrite Hprobe.
    destruct (Z.geb_spec extraByteRate 0); [|lia].
    now rewrite Hlen.
Qed.

(** An unsuccessful condition: without a previous video time, without a
    chosen video track or with a closed gate there is no probe. *)
Lemma upProbe_disabled now h maximumResolution videoTrack s :
  videoTrack = None \/ prevVideoTime s = None
  \/ fst (AdaptiveRetry.try now (adaptiveRetry s)) = false ->
  snd (fst (fst (upProbe now h maximumResolution videoTrack s))) = NoProbe.
Proof.
  unfold upProbe. intros [-> | [H | H]]; [reflexivity| |].
  - rewrite H. now destruct videoTrack.
  - destruct videoTrack; [|reflexivity].
    destruct (prevVideoTime s); [|reflexivity].
    destruct (AdaptiveRetry.try now (adaptiveRetry s)) as [tried ar'].
    simpl in H. now subst.
Qed.

Lemma up_probe_witness :
  snd (fst (fst (upProbe 5000 (ladder 800) None (Some 1%nat) (playing 7000 5000))))
    = ProbeRequest (mkRequest UpController GET 2 99 (Some 799)).
Proof.
  pose proof (up_probe 5000 (ladder 800) None 1%nat 2%nat 5000 99 (playing 7000 5000)
                (snd (AdaptiveRetry.try 5000 gate))
                eq_refl eq_refl eq_refl eq_refl eq_refl) as H.
  destruct H as (_ & _ & Hget & _).
  apply Hget; vm_compute; congruence.
Defined.

End BandwidthEmulation.

(** ** CMAFWriter: the sequence numbers of the fragments *)

Section FragmentSequence.

Import BinaryWriter CMAFWriter.

Lemma decode32_write32 v : decode32 (write32 v) = v mod 4294967296.
Proof.
  unfold decode32, write32.
  replace (v / 16777216) with (v / 256 / 256 / 256)
    by (rewrite !Z.div_div by lia; reflexivity).
  replace (v / 65536) with (v / 256 / 256)
    by (rewrite !Z.div_div by lia; reflexivity).
  apply Z.mod_unique with (q := v / 256 / 256 / 256 / 256).
  - left.
    pose proof (Z.mod_pos_bound v 256 ltac:(lia)).
    pose proof (Z.mod_pos_bound (v / 256) 256 ltac:(lia)).
    pose proof (Z.mod_pos_bound (v / 256 / 256) 256 ltac:(lia)).
    pose proof (Z.mod_pos_bound (v / 256 / 256 / 256) 256 ltac:(lia)).
    lia.
  - pose proof (Z.div_mod v 256 ltac:(lia)).
    pose proof (Z.div_mod (v / 256) 256 ltac:(lia)).
    pose proof (Z.div_mod (v / 256 / 256) 256 ltac:(lia)).
    pose proof (Z.div_mod (v / 256 / 256 / 256) 256 ltac:(lia)).
    lia.
Qed.

(** The fragment carries the incremented counter, reduced to 32 bits. *)
Lemma write_mfhdSequence sample cp w :
  mfhdSequence (fst (write sample cp w)) = (_sequence w + 1) mod 4294967296
  /\ _sequence (snd (write sample cp w)) = _sequence w + 1.
Proof.
  split; [|reflexivity].
  unfold write, mfhdSequence. cbn [fst].
  rewrite <- decode32_write32. reflexivity.
Qed.

(** [init] leaves the counter as it is. *)
Lemma init_sequence track w : _sequence (snd (init track w)) = _sequence w.
Proof.
  unfold init.
  destruct (MediaTrack.type track); destruct (MediaTrack.codec track); reflexivity.
Qed.

Lemma writes_nonneg calls : 0 <= writes calls.
Proof. induction calls as [|[track|sample cp] calls IH]; simpl; lia. Qed.

Lemma run_sequences calls : forall w,
  fst (run calls w)
  = (fun k => k mod 4294967296) <$> seqZ (_sequence w + 1) (writes calls).
Proof.
  induction calls as [|c calls IH]; intros w.
  - reflexivity.
  - destruct c as [track|sample cp].
    + cbn [run]. rewrite IH, init_sequence. reflexivity.
    + cbn [run].
      destruct (write sample cp w) as [packets w1] eqn:Hw.
      pose proof (write_mfhdSequence sample cp w) as [Hm Hs]. rewrite Hw in Hm, Hs.
      cbn [fst snd] in Hm, Hs.
      specialize (IH w1). destruct (run calls w1) as [seqs w2]. cbn [fst] in *.
      rewrite Hm, IH, Hs.
      cbn [writes].
      rewrite (seqZ_cons (_sequence w + 1))
        by (pose proof (writes_nonneg calls); lia).
      rewrite Z.pred_succ. reflexivity.
Qed.

(** C8, as stated, fails: [init] does not reset the counter; on a writer
    that has written one fragment, the first fragment written after a
    second [init] carries the sequence number 2. *)
Lemma sequence_number_after_second_init_is_not_1 :
  let track := MediaTrack.mk 1 Media.VIDEO Media.H264 400 (Media.mkResolution 640 360)
                 None None in
  let sample := Media.mkSample 5000 40 [171] (Some 10) (Some true) None in
  fst (run [Init track; Write sample None; Init track; Write sample None] CMAFWriter.new)
  = [1; 2].
Proof. vm_compute. reflexivity. Qed.

(** C8, amended: over the lifetime of a CMAFWriter, from its
    construction on, the sequence numbers in the mfhd boxes of the
    fragments written are 1, 2, 3, ... in the order of the calls of
    [write] (fewer than 2^32 of them), whatever calls of [init] come in
    between: they increase strictly from 1, and [init] does not restart
    them. *)
Theorem sequence_numbers_count_from_1 (calls : list Call) :
  writes calls < 4294967296 ->
  fst (run calls CMAFWriter.new) = seqZ 1 (writes calls).
Proof.
  intros Hbound. rewrite run_sequences. cbn [CMAFWriter.new _sequence Z.add].
  change (0 + 1) with 1.
  rewrite <- (list_fmap_id (seqZ 1 (writes calls))) at 2.
  apply list_fmap_ext. intros i k Hk.
  apply lookup_seqZ in Hk as [-> Hi].
  unfold id. apply Z.mod_small. lia.
Qed.

Lemma sequence_numbers_count_from_1_witness :
  let track := MediaTrack.mk 1 Media.VIDEO Media.H264 400 (Media.mkResolution 640 360)
                 None None in
  let sample := Media.mkSample 5000 40 [171] (Some 10) (Some true) None in
  fst (run [Init track; Write sample None; Write sample None; Init track;
            Write sample None] CMAFWriter.new)
  = [1; 2; 3].
Proof.
  intros track sample.
  apply (sequence_numbers_count_from_1
           [Init track; Write sample None; Write sample None; Init track;
            Write sample None]).
  vm_compute. reflexivity.
Defined.

End FragmentSequence.

(** ** RTSReader: the time of a media packet *)

Section MediaTime.

Import BinaryReader RTSReader.

Variable decodes : Event -> bool.

Lemma readPayload_shorter withSize header reader data reader' :
  _readPayload withSize header reader = Some (data, reader') ->
  (length reader' <= length reader)%nat.
Proof.
  unfold _readPayload, read. destruct withSize; simpl.
  - destruct (read7Bit header) as [size rest].
    destruct (_ >=? _); [|discriminate].
    intros [= _ <-]. rewrite length_drop. lia.
  - intros [= _ <-]. simpl. lia.
Qed.

Lemma media_next st type trackId header reader st' reader' :
  media st type trackId header reader = Next st' reader' ->
  _header st' = None /\ (length reader' <= length reader)%nat.
Proof.
  unfold media.
  destruct (match _nextTimes st !! trackId with Some _ => _ | None => _ end)
    as [time header1].
  destruct (read7Bit header1) as [value header2].
  destruct (if negb _ then _ else _) as [compositionOffset header3].
  destruct (_readPayload _ _ _) as [[data r]|] eqn:Hp; [|discriminate].
  intros [= <- <-]. split; [reflexivity|].
  eapply readPayload_shorter, Hp.
Qed.

Lemma packet_next st hdr reader st' reader' :
  packet decodes st hdr reader = Next st' reader' ->
  _header st' = None /\ (length reader' <= length reader)%nat.
Proof.
  unfold packet.
  destruct (read7Bit hdr) as [type0 header].
  destruct (sar type0 2 =? 0).
  - destruct (band type0 3 =? 3).
    + destruct (read7Bit header) as [v header1].
      destruct (read7Bit header1) as [a header2].
      intros [= <- <-]. auto.
    + destruct (band type0 3 =? 0); [|discriminate].
      destruct (_readPayload _ _ _) as [[data r]|] eqn:Hp; [|discriminate].
      destruct (decodes _); [|discriminate].
      intros [= <- <-]. split; [reflexivity|].
      eapply readPayload_shorter, Hp.
  - destruct (band type0 3 =? 0).
    + destruct (read7Bit header) as [time header1].
      destruct (_readPayload _ _ _) as [[data r]|] eqn:Hp; [|discriminate].
      destruct (decodes _); [|discriminate].
      intros [= <- <-]. split; [reflexivity|].
      eapply readPayload_shorter, Hp.
    + apply media_next.
Qed.

(** The loop of [_parse] comes to an end within the fuel it is given. *)
Lemma parseLoop_ends : forall fuel st reader,
  (length reader + match _header st with Some _ => 1 | None => 0 end < fuel)%nat ->
  exists r, parseLoop decodes fuel st reader = Some r.
Proof.
  induction fuel as [|fuel IH]; intros st reader Hfuel; [lia|].
  cbn [parseLoop]. destruct (Z.eqb_spec (available reader) 0) as [|Hav]; [eauto|].
  destruct (_header st) as [hdr|] eqn:Hh.
  - destruct (packet decodes st hdr reader) as [st' reader'|st' n|st'] eqn:Hp;
      [|eauto|eauto].
    apply packet_next in Hp as [Hh' Hlen].
    apply IH. rewrite Hh'. lia.
  - destruct (withSize st); simpl; [|eauto].
    destruct reader as [|b reader1]; [now contradiction Hav|]. simpl in *.
    destruct (available reader1 <? b); [eauto|].
    destruct (packet decodes _ _ _) as [st' reader'|st' n|st'] eqn:Hp; [|eauto|eauto].
    apply packet_next in Hp as [Hh' Hlen].
    rewrite length_drop in Hlen.
    apply IH. rewrite Hh'. lia.
Qed.

(** [_parse] and [read] return on every input. *)
Lemma read_returns st data : exists st', RTSReader.read decodes st data = Some st'.
Proof.
  unfold RTSReader.read, _parse.
  destruct (parseLoop_ends (S (S (length (default [] (_data st) ++ data)))) st
              (default [] (_data st) ++ data)) as [[st' n|st'] ->]; [|eauto|eauto].
  destruct (_header st); lia.
Qed.

(** The media packet: where its time comes from and what it stores. *)
Lemma media_time st type trackId header reader st' reader' :
  media st type trackId header reader = Next st' reader' ->
  let stored := _nextTimes st !! trackId in
  let time := match stored with Some t => t | None => fst (read7Bit header) end in
  let header1 := match stored with Some _ => header | None => snd (read7Bit header) end in
  let duration := sar (fst (read7Bit header1)) 2 in
  (exists sample,
      trace st' = trace st ++ [if type =? 1 then OnAudio trackId (Some sample)
                               else OnVideo trackId (Some sample)]
      /\ Media.time sample = time /\ Media.duration sample = duration)
  /\ _nextTimes st' = <[trackId := time + duration]> (_nextTimes st).
Proof.
  unfold media. intros H. cbv zeta.
  destruct (_nextTimes st !! trackId) as [t|].
  - destruct (read7Bit header) as [value header2]. simpl.
    destruct (if negb _ then _ else _) as [compositionOffset header3].
    destruct (_readPayload _ _ _) as [[data r]|]; [|discriminate].
    injection H as <- <-. simpl. split; [|reflexivity].
    eexists. split; [reflexivity|]. simpl. auto.
  - destruct (read7Bit header) as [time header1]. simpl.
    destruct (read7Bit header1) as [value header2]. simpl.
    destruct (if negb _ then _ else _) as [compositionOffset header3].
    destruct (_readPayload _ _ _) as [[data r]|]; [|discriminate].
    injection H as <- <-. simpl. split; [|reflexivity].
    eexists. split; [reflexivity|]. simpl. auto.
Qed.

(** The Init Tracks packet empties the map of the next times. *)
Lemma init_tracks_clears st hdr reader :
  fst (read7Bit hdr) = 3 ->
  exists st', packet decodes st hdr reader = Next st' reader /\ _nextTimes st' = ∅.
Proof.
  unfold packet. destruct (read7Bit hdr) as [type0 header]. simpl. intros ->.
  change (sar 3 2 =? 0) with true. change (band 3 3 =? 3) with true. cbv iota.
  destruct (read7Bit header) as [v header1].
  destruct (read7Bit header1) as [a header2].
  eexists. split; reflexivity.
Qed.

End MediaTime.

Section WireFields.

Import BinaryReader RTSReader Wire.

Variable decodes : Event -> bool.

Lemma read7Bit_low n rest :
  0 <= n < 128 -> read7Bit (n :: rest) = (n, rest).
Proof.
  intros Hn. cbn [read7Bit].
  assert (Hbit : Z.testbit n 7 = false).
  { apply Z.testbit_false; [lia|]. rewrite Z.div_small by (simpl; lia). reflexivity. }
  rewrite Hbit. f_equal.
  change 127 with (Z.ones 7). rewrite Z.land_ones by lia.
  apply Z.mod_small. simpl. lia.
Qed.

Lemma read7Bit_high n rest :
  0 <= n ->
  read7Bit ((n mod 128 + 128) :: rest)
  = (n mod 128 + 128 * fst (read7Bit rest), snd (read7Bit rest)).
Proof.
  intros Hn. cbn [read7Bit].
  pose proof (Z.mod_pos_bound n 128 ltac:(lia)) as Hm.
  assert (Hbit : Z.testbit (n mod 128 + 128) 7 = true).
  { apply Z.testbit_true; [lia|]. change (2 ^ 7) with 128.
    replace (n mod 128 + 128) with (n mod 128 + 1 * 128) by lia.
    rewrite Z.div_add by lia. rewrite Z.div_small by lia. reflexivity. }
  rewrite Hbit. destruct (read7Bit rest) as [v rest']. cbn [fst snd]. f_equal.
  change 127 with (Z.ones 7). rewrite Z.land_ones by lia. change (2 ^ 7) with 128.
  replace (n mod 128 + 128) with (n mod 128 + 1 * 128) by lia.
  rewrite Z.mod_add by lia. rewrite Z.mod_mod by lia. reflexivity.
Qed.

Lemma read7Bit_leb128_fuel : forall fuel n rest,
  0 <= n < 2 ^ (7 + Z.of_nat fuel) ->
  read7Bit (leb128_fuel fuel n ++ rest) = (n, rest).
Proof.
  induction fuel as [|fuel IH]; intros n rest Hn.
  - simpl. apply read7Bit_low. simpl in Hn. lia.
  - cbn [leb128_fuel]. destruct (Z.ltb_spec n 128) as [Hlt|Hge].
    + simpl. apply read7Bit_low. lia.
    + rewrite <- app_comm_cons, read7Bit_high by lia.
      rewrite IH.
      * cbn [fst snd]. f_equal. pose proof (Z.div_mod n 128 ltac:(lia)). lia.
      * split; [apply Z.div_pos; lia|].
        apply Z.div_lt_upper_bound; [lia|].
        replace (7 + Z.of_nat (S fuel)) with (1 + (7 + Z.of_nat fuel)) in Hn by lia.
        rewrite Z.pow_add_r in Hn by lia. change (2 ^ 1) with 2 in Hn.
        assert (0 < 2 ^ (7 + Z.of_nat fuel)) by (apply Z.pow_pos_nonneg; lia).
        lia.
Qed.

(** The reader gets back a field written in its wire form. *)
Lemma read7Bit_leb128 n rest :
  0 <= n -> read7Bit (leb128 n ++ rest) = (n, rest).
Proof.
  intros Hn. unfold leb128. apply read7Bit_leb128_fuel.
  split; [exact Hn|].
  destruct (Z.eq_dec n 0) as [->|Hnz]; [reflexivity|].
  pose proof (Z.log2_spec n ltac:(lia)) as [_ Hlog].
  pose proof (Z.log2_nonneg n) as Hl.
  rewrite Z2Nat.id by exact Hl.
  eapply Z.lt_le_trans; [exact Hlog|].
  apply Z.pow_le_mono_r; lia.
Qed.

Lemma toInt32_small x : 0 <= x < 2147483648 -> toInt32 x = x.
Proof. intros Hx. unfold toInt32. rewrite Z.mod_small by lia. lia. Qed.

(** The first field of a header: the track id plus one, and the type. *)
Lemma header_field trackId type :
  0 <= trackId < 268435456 -> 0 <= type < 4 ->
  sar (4 * (trackId + 1) + type) 2 = trackId + 1
  /\ band (4 * (trackId + 1) + type) 3 = type.
Proof.
  intros Ht Hty. unfold sar, band.
  rewrite (toInt32_small (4 * _ + _)) by lia.
  rewrite (toInt32_small 3) by lia.
  split.
  - rewrite Z.shiftr_div_pow2 by lia. change (2 ^ 2) with 4.
    rewrite Z.mul_comm, Z.div_add_l by lia. rewrite Z.div_small by lia. lia.
  - change 3 with (Z.ones 2). rewrite Z.land_ones by lia. change (2 ^ 2) with 4.
    rewrite Z.add_comm, Z.mul_comm, Z.mod_add by lia. apply Z.mod_small. lia.
Qed.

(** A header that starts with the field of a media track goes to the
    media branch. *)
Lemma packet_media st trackId type header reader :
  0 <= trackId < 268435456 -> type = 1 \/ type = 2 ->
  packet decodes st (leb128 (4 * (trackId + 1) + type) ++ header) reader
  = media st type trackId header reader.
Proof.
  intros Ht Hty. unfold packet.
  rewrite read7Bit_leb128 by lia.
  destruct (header_field trackId type Ht ltac:(lia)) as [-> ->].
  destruct (Z.eqb_spec (trackId + 1) 0); [lia|].
  destruct (Z.eqb_spec type 0); [lia|].
  replace (trackId + 1 - 1) with trackId by lia. reflexivity.
Qed.

End WireFields.

Section NextTimes.

Import BinaryReader RTSReader Wire.

Variable decodes : Event -> bool.

(** The event of a media sample of the given packet type. *)
Local Abbreviation sampleEvent type trackId sample :=
  (if type =? 1 then OnAudio trackId (Some sample) else OnVideo trackId (Some sample)).

(** C7: an Init Tracks packet empties the map of the next times.  The
    first media packet of a track after it has no stored next time: its
    header is read with an absolute time field; the reader then stores
    [time + duration] for the track, and the next media packet of the
    track is read without a time field (the field after the packet type
    is its value, [duration << 2 | flags]) and takes the stored time,
    [time + duration] of the packet before. *)
Theorem media_time_is_the_stored_next_time
    (st0 st1 st2 : RTSReader.t) (vp ap type trackId T v1 v2 : Z)
    (rest0 reader0 rest1 reader1 r1 rest2 reader2 r2 : list Z) :
  0 <= vp -> 0 <= ap ->
  0 <= trackId < 268435456 -> type = 1 \/ type = 2 ->
  0 <= T -> 0 <= v1 -> 0 <= v2 ->
  let first := leb128 (4 * (trackId + 1) + type) in
  exists st,
    packet decodes st0 (leb128 3 ++ leb128 vp ++ leb128 ap ++ rest0) reader0 = Next st reader0
    /\ _nextTimes st = ∅
    /\ (packet decodes st (first ++ leb128 T ++ leb128 v1 ++ rest1) reader1 = Next st1 r1 ->
        packet decodes st1 (first ++ leb128 v2 ++ rest2) reader2 = Next st2 r2 ->
        exists s1 s2,
          trace st2 = trace st0 ++ [OnVideo (vp - 1) None; OnAudio (ap - 1) None]
                        ++ [sampleEvent type trackId s1] ++ [sampleEvent type trackId s2]
          /\ Media.time s1 = T /\ Media.duration s1 = sar v1 2
          /\ _nextTimes st1 !! trackId = Some (T + sar v1 2)
          /\ Media.time s2 = T + sar v1 2 /\ Media.duration s2 = sar v2 2
          /\ _nextTimes st2 !! trackId = Some (T + sar v1 2 + sar v2 2)).
Proof.
  intros Hvp Hap Htrack Htype HT Hv1 Hv2 first.
  assert (Hinit : packet decodes st0 (leb128 3 ++ leb128 vp ++ leb128 ap ++ rest0) reader0
                  = Next (fire st0 ∅ [OnVideo (vp - 1) None; OnAudio (ap - 1) None]) reader0).
  { unfold packet. rewrite read7Bit_leb128 by lia.
    change (sar 3 2 =? 0) with true. change (band 3 3 =? 3) with true. cbv iota.
    rewrite read7Bit_leb128 by lia. rewrite read7Bit_leb128 by lia. reflexivity. }
  eexists. split; [exact Hinit|]. split; [reflexivity|].
  intros H1 H2. subst first.
  rewrite packet_media in H1 by assumption.
  rewrite packet_media in H2 by assumption.
  apply media_time in H1. cbv zeta in H1.
  cbn [fire _nextTimes trace] in H1. rewrite lookup_empty in H1.
  rewrite !read7Bit_leb128 in H1 by lia. cbn [fst snd] in H1.
  rewrite read7Bit_leb128 in H1 by lia. cbn [fst snd] in H1.
  destruct H1 as [(s1 & Htr1 & Ht1 & Hd1) Hn1].
  apply media_time in H2. cbv zeta in H2.
  rewrite Hn1, lookup_insert_eq in H2.
  rewrite read7Bit_leb128 in H2 by lia. cbn [fst snd] in H2.
  destruct H2 as [(s2 & Htr2 & Ht2 & Hd2) Hn2].
  exists s1, s2. rewrite Htr2, Htr1, Hn1, Hn2, !lookup_insert_eq.
  rewrite <- !app_assoc. auto 10.
Qed.

End NextTimes.

Section NextTimesScenario.

Import BinaryReader RTSReader Wire.

(** The scenario of the specification as a byte stream: Init Tracks
    (video 1, audio 0), a video packet of track 1 with time 5000,
    duration 40 and the key flag, then a packet of the track without a
    time; the second sample is at 5040.  Each packet is prefixed by the
    length of its header. *)
Lemma scenario_stream :
  option_map (fun st => (trace st, _nextTimes st !! 1))
    (RTSReader.read (fun _ => true) (RTSReader.new true)
       ([3; 3; 2; 1] ++ [6; 10; 136; 39; 161; 1; 1; 171] ++ [4; 10; 160; 1; 1; 205]))
  = Some ([OnVideo 1 None; OnAudio 0 None;
           OnVideo 1 (Some (Media.mkSample 5000 40 [171] (Some 0) (Some true) None));
           OnVideo 1 (Some (Media.mkSample 5040 40 [205] (Some 0) (Some false) None))],
          Some 5080).
Proof. vm_compute. reflexivity. Qed.

(** The same packets over a framed transport: a frame for each header,
    a frame for each payload. *)
Lemma scenario_frames :
  option_map (fun st => (trace st, _nextTimes st !! 1))
    (RTSReader.readAll (fun _ => true) (RTSReader.new false)
       [[3; 2; 1]; [10; 136; 39; 161; 1]; [171]; [10; 160; 1]; [205]])
  = Some ([OnVideo 1 None; OnAudio 0 None;
           OnVideo 1 (Some (Media.mkSample 5000 40 [171] (Some 0) (Some true) None));
           OnVideo 1 (Some (Media.mkSample 5040 40 [205] (Some 0) (Some false) None))],
          Some 5080).
Proof. vm_compute. reflexivity. Qed.

(** A value field of 2^32 - 4 reaches the reader as the duration -1:
    [value >> 2] is a signed 32-bit shift.  The audio time of a Source
    fed with the sample goes back. *)
Lemma audio_packet_with_negative_duration :
  option_map RTSReader.trace
    (RTSReader.readAll (fun _ => true) (RTSReader.new false)
       [[5; 232; 7; 252; 255; 255; 255; 15]; [1]])
  = Some [OnAudio 0 (Some (Media.mkSample 1000 (-1) [1] (Some 0) (Some false) None))]
  /\ Source._audioTime
       (Run.run [Run.Feed 0 (Run.Audio 0 (Media.mkSample 990 10 [0] None None None));
                 Run.Feed 0 (Run.Audio 0
                   (Media.mkSample 1000 (-1) [1] (Some 0) (Some false) None))]
          Source.new) = 999.
Proof. split; vm_compute; reflexivity. Qed.

Lemma media_time_is_the_stored_next_time_witness :
  exists st st1 st2 s1 s2,
    packet (fun _ => true) (RTSReader.new false) [3; 2; 1] [10; 136; 39; 161; 1] =
      Next st [10; 136; 39; 161; 1]
    /\ packet (fun _ => true) st [10; 136; 39; 161; 1] [171] = Next st1 []
    /\ packet (fun _ => true) st1 [10; 160; 1] [205] = Next st2 []
    /\ trace st2 = [OnVideo 1 None; OnAudio 0 None; OnVideo 1 (Some s1); OnVideo 1 (Some s2)]
    /\ Media.time s1 = 5000 /\ Media.duration s1 = 40 /\ Media.time s2 = 5040.
Proof.
  pose (st := fire (RTSReader.new false) ∅ [OnVideo 1 None; OnAudio 0 None]).
  pose (st1 := fire st (<[1 := 5040]> ∅)
                 [OnVideo 1 (Some (Media.mkSample 5000 40 [171] (Some 0) (Some true) None))]).
  pose (st2 := fire st1 (<[1 := 5080]> (<[1 := 5040]> ∅))
                 [OnVideo 1 (Some (Media.mkSample 5040 40 [205] (Some 0) (Some false) None))]).
  destruct (media_time_is_the_stored_next_time (fun _ => true) (RTSReader.new false) st1 st2
              2 1 2 1 5000 161 160 [] [10; 136; 39; 161; 1] [] [171] [] [] [205] []
              ltac:(lia) ltac:(lia) ltac:(lia) (or_intror eq_refl)
              ltac:(lia) ltac:(lia) ltac:(lia))
    as (st' & Hinit & Hclear & Hmedia).
  assert (Hst' : st' = st).
  { change (leb128 3 ++ leb128 2 ++ leb128 1 ++ []) with [3; 2; 1] in Hinit.
    assert (Hc : packet (fun _ => true) (RTSReader.new false) [3; 2; 1] [10; 136; 39; 161; 1]
                 = Next st [10; 136; 39; 161; 1]) by (vm_compute; reflexivity).
    rewrite Hc in Hinit. now injection Hinit. }
  subst st'.
  destruct Hmedia as (s1 & s2 & Htrace & Ht1 & Hd1 & _ & Ht2 & _).
  - vm_compute. reflexivity.
  - vm_compute. reflexivity.
  - exists st, st1, st2, s1, s2.
    split; [vm_compute; reflexivity|].
    split; [vm_compute; reflexivity|].
    split; [vm_compute; reflexivity|].
    split; [exact Htrace|]. auto.
Defined.

End NextTimesScenario.

(** ** Metadata: the sort and the chains of [fix] *)

Section TrackSort.

Import MediaTrack Metadata.

Variable h : heap.

Lemma insert_desc_perm r l : Permutation (insert_desc h r l) (r :: l).
Proof.
  induction l as [|x l IH]; simpl; [reflexivity|].
  destruct (bw h x <=? bw h r); [reflexivity|].
  rewrite IH. apply perm_swap.
Qed.

(** The sort keeps the tracks, each as often as it was listed. *)
Lemma sort_desc_perm l : Permutation (sort_desc h l) l.
Proof.
  induction l as [|r l IH]; simpl; [reflexivity|].
  rewrite insert_desc_perm. now apply perm_skip.
Qed.

Lemma insert_desc_sorted r l :
  StronglySorted (fun a b => bw h b <= bw h a) l ->
  StronglySorted (fun a b => bw h b <= bw h a) (insert_desc h r l).
Proof.
  induction 1 as [|x l Hl IH Hx]; simpl.
  - repeat constructor.
  - destruct (Z.leb_spec (bw h x) (bw h r)) as [Hle|Hgt].
    + constructor; [now constructor|].
      constructor; [exact Hle|].
      eapply Forall_impl; [exact Hx|]. simpl. intros y Hy. lia.
    + constructor; [exact IH|].
      rewrite insert_desc_perm. constructor; [lia | exact Hx].
Qed.

(** The sort puts the tracks by descending bandwidth. *)
Lemma sort_desc_sorted l : StronglySorted (fun a b => bw h b <= bw h a) (sort_desc h l).
Proof.
  induction l as [|r l IH]; simpl; [constructor|].
  now apply insert_desc_sorted.
Qed.

(** The sort is stable: tracks of one bandwidth keep their order. *)
Lemma insert_desc_stable r l b :
  filter (fun x => bw h x = b) (insert_desc h r l)
  = filter (fun x => bw h x = b) (r :: l).
Proof.
  induction l as [|x l IH]; simpl; [reflexivity|].
  destruct (Z.leb_spec (bw h x) (bw h r)) as [Hle|Hgt]; [reflexivity|].
  rewrite (filter_cons _ x), IH, !(filter_cons _ r), !(filter_cons _ x).
  destruct (decide (bw h r = b)), (decide (bw h x = b)); try reflexivity.
  lia.
Qed.

Lemma sort_desc_stable l b :
  StronglySorted (fun a b => bw h b <= bw h a) (sort_desc h l)
  /\ filter (fun x => bw h x = b) (sort_desc h l) = filter (fun x => bw h x = b) l.
Proof.
  split; [apply sort_desc_sorted|].
  induction l as [|r l IH]; simpl; [reflexivity|].
  rewrite insert_desc_stable, !(filter_cons _ r), IH. reflexivity.
Qed.

End TrackSort.

Section TrackChains.

Import MediaTrack Metadata.

(** *** What [link] writes *)

Lemma link_self r ms (h : heap) :
  last ms <> Some r ->
  link r ms h !!! r = set_up (last ms) (set_down None (h !!! r)).
Proof.
  intros Hne. unfold link.
  rewrite lookup_total_insert_eq.
  destruct (last ms) as [u|] eqn:Hu.
  - rewrite lookup_total_insert_ne by congruence.
    now rewrite lookup_total_insert_eq.
  - now rewrite lookup_total_insert_eq.
Qed.

Lemma link_last r ms (h : heap) u :
  last ms = Some u -> u <> r ->
  link r ms h !!! u = set_down (Some r) (h !!! u).
Proof.
  intros Hu Hne. unfold link. rewrite Hu.
  rewrite lookup_total_insert_eq.
  now rewrite !lookup_total_insert_ne by congruence.
Qed.

Lemma link_other r ms (h : heap) r' :
  r' <> r -> last ms <> Some r' ->
  link r ms h !!! r' = h !!! r'.
Proof.
  intros Hne Hl. unfold link.
  destruct (last ms) as [u|] eqn:Hu.
  - rewrite lookup_total_insert_ne by congruence.
    now rewrite !lookup_total_insert_ne by congruence.
  - now rewrite !lookup_total_insert_ne by congruence.
Qed.

Lemma link_core r ms (h : heap) r' :
  same_core (link r ms h !!! r') (h !!! r').
Proof.
  unfold link.
  assert (Hset : forall (g : heap) k v,
            same_core v (g !!! k) -> same_core (<[k := v]> g !!! r') (g !!! r')).
  { intros g k v Hv. destruct (decide (k = r')) as [->|Hk].
    - now rewrite lookup_total_insert_eq.
    - rewrite lookup_total_insert_ne by exact Hk. now repeat split. }
  assert (Htrans : forall a b c, same_core a b -> same_core b c -> same_core a c).
  { unfold same_core. intros a b c (? & ? & ? & ? & ?) (? & ? & ? & ? & ?).
    repeat split; congruence. }
  set (h1 := <[r := set_down None (h !!! r)]> h).
  set (h2 := <[r := set_up (last ms) (h1 !!! r)]> h1).
  assert (H1 : same_core (h1 !!! r') (h !!! r')) by (apply Hset; now repeat split).
  assert (H2 : same_core (h2 !!! r') (h1 !!! r')) by (apply Hset; now repeat split).
  destruct (last ms) as [u|].
  - eapply Htrans; [|eapply Htrans; [exact H2 | exact H1]].
    apply Hset. now repeat split.
  - eapply Htrans; [exact H2 | exact H1].
Qed.

(** *** Chains *)

(** A chain only depends on the tracks in it. *)
Lemma linked_ext (h h' : heap) l : forall prev,
  (forall r, r ∈ l -> up (h' !!! r) = up (h !!! r) /\ down (h' !!! r) = down (h !!! r)) ->
  linked h prev l -> linked h' prev l.
Proof.
  induction l as [|r l IH]; intros prev Hsame; simpl; [auto|].
  intros (Hup & Hdown & Hl).
  destruct (Hsame r) as [-> ->]; [left|].
  repeat split; try assumption.
  apply IH; [|exact Hl]. intros r' Hr'. apply Hsame. now right.
Qed.

(** A track put after the end of a chain. *)
Lemma linked_snoc (h h' : heap) x l : forall prev,
  linked h prev l -> NoDup l -> x ∉ l ->
  (forall r, r ∈ l -> up (h' !!! r) = up (h !!! r)) ->
  (forall r, r ∈ l -> last l <> Some r -> down (h' !!! r) = down (h !!! r)) ->
  (forall u, last l = Some u -> down (h' !!! u) = Some x) ->
  up (h' !!! x) = match last l with Some u => Some u | None => prev end ->
  down (h' !!! x) = None ->
  linked h' prev (l ++ [x]).
Proof.
  induction l as [|r l IH]; intros prev Hl Hnd Hx Hup Hdown Hlast Hxup Hxdown.
  - simpl in *. auto.
  - destruct Hl as (Hrup & Hrdown & Hl).
    apply NoDup_cons in Hnd as [Hr Hnd].
    apply not_elem_of_cons in Hx as [Hxr Hx].
    cbn [app linked]. split; [|split].
    + rewrite Hup by left. exact Hrup.
    + destruct l as [|r' l].
      * simpl. apply Hlast. reflexivity.
      * simpl. rewrite Hdown; [exact Hrdown | left |].
        rewrite last_cons_cons. intros Hc.
        apply last_Some_elem_of in Hc. contradiction.
    + apply IH; try assumption.
      * intros r0 Hr0. apply Hup. now right.
      * intros r0 Hr0 Hne. apply Hdown; [now right|].
        destruct l as [|r' l]; [now apply elem_of_nil in Hr0|].
        now rewrite last_cons_cons.
      * intros u Hu. apply Hlast.
        destruct l as [|r' l]; [discriminate|]. now rewrite last_cons_cons.
      * rewrite Hxup. destruct l as [|r' l]; [reflexivity|].
        rewrite last_cons_cons.
        destruct (last (r' :: l)) eqn:E; [reflexivity|].
        apply last_None in E. discriminate.
Qed.

Lemma descending_snoc (h : heap) x l :
  descending h l ->
  (forall u, last l = Some u -> bw h x <= bw h u) ->
  descending h (l ++ [x]).
Proof.
  induction l as [|a l IH]; intros Hd Hlast; simpl; [auto|].
  destruct Hd as [Ha Hd].
  split.
  - destruct l as [|b l]; simpl; [|exact Ha].
    apply Hlast. reflexivity.
  - apply IH; [exact Hd|]. intros u Hu. apply Hlast.
    destruct l as [|b l]; [discriminate|]. now rewrite last_cons_cons.
Qed.

(** In a descending chain every track has the neighbours expected. *)
Lemma linked_neighbours (h : heap) l : forall prev,
  linked h prev l -> descending h l ->
  (forall p, prev = Some p ->
     down (h !!! p) = head l /\ (forall r, head l = Some r -> bw h r <= bw h p)) ->
  Forall (neighbours h) l.
Proof.
  induction l as [|r l IH]; intros prev Hl Hd Hprev; [constructor|].
  destruct Hl as (Hup & Hdown & Hl). destruct Hd as [Hr Hd].
  constructor.
  - split.
    + intros u Hu. rewrite Hup in Hu. destruct (Hprev u Hu) as [Hpd Hpb].
      split; [now apply Hpb | exact Hpd].
    + intros d Hdn. rewrite Hdown in Hdn.
      destruct l as [|b l]; [discriminate|]. injection Hdn as ->.
      split; [exact Hr|]. now destruct Hl as (Hbup & _).
  - apply (IH (Some r)); [exact Hl | exact Hd|].
    intros p [= <-]. split; [exact Hdown|].
    intros b Hb. destruct l as [|b' l]; [discriminate|].
    injection Hb as ->. exact Hr.
Qed.

End TrackChains.

Section FixLoop.

Import MediaTrack Metadata.

Lemma same_core_refl a : same_core a a.
Proof. now repeat split. Qed.

Lemma same_core_trans a b c : same_core a b -> same_core b c -> same_core a c.
Proof.
  unfold same_core. intros (? & ? & ? & ? & ?) (? & ? & ? & ? & ?).
  repeat split; congruence.
Qed.

Lemma map_has_set k id r m :
  map_has k (map_set id r m) = map_has k m || (id =? k).
Proof.
  unfold map_has. induction m as [|[k0 v] m IH]; simpl.
  - now rewrite orb_false_r.
  - destruct (Z.eqb_spec k0 id) as [Heq|Hne]; simpl.
    + subst k0. destruct (id =? k), (existsb _ m); reflexivity.
    + rewrite IH. now rewrite orb_assoc.
Qed.

Lemma medias_push K T r h m st :
  medias K (push T r h m st)
  = if Media.Type_eqb K T then medias K st ++ [r] else medias K st.
Proof. destruct K, T; reflexivity. Qed.

Lemma push_heap T r h m st :
  l_heap (push T r h m st) = h /\ l_tracks (push T r h m st) = m.
Proof. destruct T; split; reflexivity. Qed.

Lemma Type_eqb_eq a b : Media.Type_eqb a b = true <-> a = b.
Proof. destruct a, b; simpl; split; congruence. Qed.

Lemma Media_Type_eqb_sym a b : Media.Type_eqb a b = Media.Type_eqb b a.
Proof. now destruct a, b. Qed.

(** One turn of the loop keeps the invariant. *)
Lemma fix_step_inv h0 x rest st :
  Inv h0 (x :: rest) st ->
  (forall y, y ∈ rest -> bw h0 y <= bw h0 x) ->
  Inv h0 rest (fix_step st x).
Proof.
  intros [Hcore Hlinked Hdesc Hnodup Htype Hknown Hbound] Hx.
  unfold fix_step. set (tr := l_heap st !!! x).
  destruct (map_has (id tr) (l_tracks st)) eqn:Hhas.
  - constructor; simpl; try assumption.
    + intros K r Hr. rewrite map_has_set, (Hknown K r Hr). reflexivity.
    + intros K r y Hr Hy. apply (Hbound K); [exact Hr | now right].
  - assert (Hidx : id tr = id (h0 !!! x)) by apply Hcore.
    assert (Htyx : type tr = type (h0 !!! x)) by apply Hcore.
    assert (Hfresh : forall K, x ∉ medias K st).
    { intros K Hin. apply Hknown in Hin. rewrite <- Hidx in Hin. congruence. }
    set (T := type tr) in *. set (ms := medias T st).
    assert (Hlast : forall u, last ms = Some u -> u ∈ ms /\ u <> x).
    { intros u Hu. apply last_Some_elem_of in Hu. split; [exact Hu|].
      intros ->. now apply (Hfresh T). }
    assert (Hlastx : last ms <> Some x).
    { intros Hu. now destruct (Hlast x Hu). }
    destruct (push_heap T x (link x ms (l_heap st)) (map_set (id tr) x (l_tracks st)) st)
      as [Hh Hm].
    constructor; rewrite ?Hh, ?Hm.
    + intros r. eapply same_core_trans; [apply link_core | apply Hcore].
    + intros K. rewrite medias_push.
      destruct (Media.Type_eqb K T) eqn:E.
      * apply Type_eqb_eq in E. subst K. fold ms.
        apply linked_snoc with (h := l_heap st).
        -- apply Hlinked.
        -- apply Hnodup.
        -- apply Hfresh.
        -- intros r Hr.
           assert (r <> x) by (intros ->; now apply (Hfresh T)).
           destruct (decide (last ms = Some r)) as [Hl|Hl].
           ++ now rewrite (link_last x ms _ r Hl).
           ++ now rewrite link_other.
        -- intros r Hr Hl.
           assert (r <> x) by (intros ->; now apply (Hfresh T)).
           now rewrite link_other.
        -- intros u Hu. destruct (Hlast u Hu) as [_ Hne].
           now rewrite (link_last x ms _ u Hu).
        -- rewrite link_self by exact Hlastx. simpl. now destruct (last ms).
        -- now rewrite link_self by exact Hlastx.
      * apply linked_ext with (h := l_heap st); [|apply Hlinked].
        intros r Hr.
        assert (r <> x) by (intros ->; now apply (Hfresh K)).
        rewrite link_other; [auto | assumption |].
        intros Hu. destruct (Hlast r Hu) as [Hin _].
        apply Htype in Hin. apply Htype in Hr.
        assert (HK : K = T) by congruence.
        apply Type_eqb_eq in HK. congruence.
    + intros K. rewrite medias_push.
      destruct (Media.Type_eqb K T) eqn:E; [|apply Hdesc].
      apply Type_eqb_eq in E. subst K. fold ms.
      apply descending_snoc; [apply Hdesc|].
      intros u Hu. destruct (Hlast u Hu) as [Hin _].
      apply (Hbound T); [exact Hin | now left].
    + intros K. rewrite medias_push.
      destruct (Media.Type_eqb K T) eqn:E; [|apply Hnodup].
      apply NoDup_app. split; [apply Hnodup|]. split.
      * intros r Hr Hr'. apply list_elem_of_singleton in Hr'. subst r.
        now apply (Hfresh K).
      * apply NoDup_singleton.
    + intros K r. rewrite medias_push.
      destruct (Media.Type_eqb K T) eqn:E; [|apply Htype].
      apply Type_eqb_eq in E. subst K.
      rewrite elem_of_app, list_elem_of_singleton.
      intros [Hr | ->]; [now apply Htype | now symmetry].
    + intros K r. rewrite medias_push, map_has_set.
      destruct (Media.Type_eqb K T) eqn:E.
      * rewrite elem_of_app, list_elem_of_singleton.
        intros [Hr | ->].
        -- now rewrite (Hknown K r Hr).
        -- rewrite <- Hidx, Z.eqb_refl. apply orb_true_r.
      * intros Hr. now rewrite (Hknown K r Hr).
    + intros K r y. rewrite medias_push.
      destruct (Media.Type_eqb K T) eqn:E.
      * rewrite elem_of_app, list_elem_of_singleton.
        intros [Hr | ->] Hy.
        -- apply (Hbound K); [exact Hr | now right].
        -- now apply Hx.
      * intros Hr Hy. apply (Hbound K); [exact Hr | now right].
Qed.

Lemma fix_loop_inv h0 l : forall st,
  StronglySorted (fun a b => bw h0 b <= bw h0 a) l ->
  Inv h0 l st ->
  Inv h0 [] (fold_left fix_step l st).
Proof.
  induction l as [|x l IH]; intros st Hs Hinv; [exact Hinv|].
  apply StronglySorted_inv in Hs as [Hs Hx].
  simpl. apply IH; [exact Hs|].
  apply fix_step_inv; [exact Hinv|].
  intros y Hy. rewrite Forall_forall in Hx. now apply Hx.
Qed.

Lemma descending_ext (h h' : heap) l :
  (forall r, bw h' r = bw h r) -> descending h l -> descending h' l.
Proof.
  intros Hbw. induction l as [|a l IH]; simpl; [auto|].
  intros [Ha Hd]. split; [|now apply IH].
  destruct l as [|b l]; [exact I|]. now rewrite !Hbw.
Qed.

(** With no data track listed on entry, the loop of [fix] ends with the
    invariant. *)
Lemma fix_inv (h : heap) (m : Metadata.t) :
  dataTracks m = [] -> Inv h [] (fix_loop h m).
Proof.
  intros Hdata. unfold fix_loop. rewrite Hdata.
  apply fix_loop_inv; [apply sort_desc_sorted|].
  constructor; simpl.
  - intros r. apply same_core_refl.
  - intros []; exact I.
  - intros []; exact I.
  - intros []; apply NoDup_nil_2.
  - intros [] r Hr; now apply elem_of_nil in Hr.
  - intros [] r Hr; now apply elem_of_nil in Hr.
  - intros [] r y Hr; now apply elem_of_nil in Hr.
Qed.

Lemma map_set_keys id r m :
  map fst (map_set id r m)
  = if map_has id m then map fst m else map fst m ++ [id].
Proof.
  unfold map_has. induction m as [|[k0 v] m IH]; simpl; [reflexivity|].
  destruct (Z.eqb_spec k0 id) as [Heq|Hne]; simpl; [reflexivity|].
  rewrite IH. now destruct (existsb _ m).
Qed.

Lemma fix_step_core st x r :
  same_core (l_heap (fix_step st x) !!! r) (l_heap st !!! r).
Proof.
  unfold fix_step. destruct (map_has _ _); simpl; [apply same_core_refl|].
  destruct (push_heap (type (l_heap st !!! x)) x
              (link x (medias (type (l_heap st !!! x)) st) (l_heap st))
              (map_set (id (l_heap st !!! x)) x (l_tracks st)) st) as [-> _].
  apply link_core.
Qed.

(** The loop appends to each list the first occurrences of its kind, in
    the order of the sorted list, and to the map their ids. *)
Lemma fix_loop_lists h0 l : forall st seen,
  (forall r, same_core (l_heap st !!! r) (h0 !!! r)) ->
  (forall k, map_has k (l_tracks st) = existsb (Z.eqb k) seen) ->
  (forall K, medias K (fold_left fix_step l st)
             = medias K st ++ ofType h0 K (firsts h0 seen l))
  /\ map fst (l_tracks (fold_left fix_step l st))
     = map fst (l_tracks st) ++ map (fun r => id (h0 !!! r)) (firsts h0 seen l).
Proof.
  induction l as [|x l IH]; intros st seen Hcore Hseen.
  - simpl. split; [intros K|]; now rewrite app_nil_r.
  - cbn [fold_left firsts].
    assert (Hid : id (l_heap st !!! x) = id (h0 !!! x)) by apply Hcore.
    assert (Hty : type (l_heap st !!! x) = type (h0 !!! x)) by apply Hcore.
    assert (Hcore' : forall r, same_core (l_heap (fix_step st x) !!! r) (h0 !!! r)).
    { intros r. eapply same_core_trans; [apply fix_step_core | apply Hcore]. }
    rewrite <- (Hseen (id (h0 !!! x))).
    assert (Hstep : fix_step st x =
              if map_has (id (h0 !!! x)) (l_tracks st)
              then mkLoop (l_heap st) (map_set (id (h0 !!! x)) x (l_tracks st))
                     (l_audio st) (l_video st) (l_data st)
              else push (type (h0 !!! x)) x
                     (link x (medias (type (h0 !!! x)) st) (l_heap st))
                     (map_set (id (h0 !!! x)) x (l_tracks st)) st).
    { unfold fix_step. now rewrite Hid, Hty. }
    destruct (map_has (id (h0 !!! x)) (l_tracks st)) eqn:Hhas.
    + destruct (IH (fix_step st x) seen Hcore') as [Hl Hk].
      { intros k. rewrite Hstep. cbn [l_tracks].
        rewrite map_has_set, Hseen.
        destruct (Z.eqb_spec (id (h0 !!! x)) k) as [<-|]; [|apply orb_false_r].
        rewrite <- Hseen, Hhas. reflexivity. }
      split.
      * intros K. rewrite Hl, Hstep. reflexivity.
      * rewrite Hk, Hstep. cbn [l_tracks]. now rewrite map_set_keys, Hhas.
    + destruct (IH (fix_step st x) (id (h0 !!! x) :: seen) Hcore') as [Hl Hk].
      { intros k. rewrite Hstep.
        rewrite (proj2 (push_heap _ _ _ _ _)), map_has_set, Hseen. simpl.
        rewrite (Z.eqb_sym k). apply orb_comm. }
      split.
      * intros K. rewrite Hl, Hstep, medias_push.
        unfold ofType. cbn [List.filter].
        rewrite (Media_Type_eqb_sym K).
        destruct (Media.Type_eqb (type (h0 !!! x)) K); [|reflexivity].
        now rewrite <- app_assoc.
      * rewrite Hk, Hstep.
        rewrite (proj2 (push_heap _ _ _ _ _)), map_set_keys, Hhas.
        now rewrite <- app_assoc.
Qed.

(** What [fix] leaves in the lists: the audio and the video tracks are
    the first occurrences of their kind in the sorted list; the data
    tracks come after those listed on entry. *)
Lemma fix_lists (h : heap) (m : Metadata.t) :
  let F := firsts h [] (sort_desc h (collect m)) in
  let m' := snd (fix_ h m) in
  audioTracks m' = ofType h Media.AUDIO F
  /\ videoTracks m' = ofType h Media.VIDEO F
  /\ dataTracks m' = dataTracks m ++ ofType h Media.DATA F
  /\ map fst (tracks m') = map (fun r => id (h !!! r)) F.
Proof.
  intros F m'.
  destruct (fix_loop_lists h (sort_desc h (collect m))
              (mkLoop h [] [] [] (dataTracks m)) [])
    as [Hl Hk].
  - intros r. apply same_core_refl.
  - reflexivity.
  - split; [apply (Hl Media.AUDIO)|].
    split; [apply (Hl Media.VIDEO)|].
    split; [apply (Hl Media.DATA) | exact Hk].
Qed.

End FixLoop.

Section FixResults.

Import MediaTrack Metadata Fixtures.

(** C6, as stated, fails: two renditions of the same bandwidth are
    neighbours in the chain, so the bandwidth of the rendition up is not
    strictly larger.  After [fix] on the manifest, track 1 has track 3
    up, both at 800 bytes/s. *)
Lemma equal_bandwidths_are_neighbours :
  let h' := fst (fix_ manifestHeap manifest) in
  let m' := snd (fix_ manifestHeap manifest) in
  videoTracks m' = [3%nat; 1%nat; 2%nat]
  /\ up (h' !!! 1%nat) = Some 3%nat
  /\ bw h' 3%nat = 800 /\ bw h' 1%nat = 800
  /\ ~ strict_neighbours h' 1%nat.
Proof.
  cbv zeta.
  assert (Hup : up (fst (fix_ manifestHeap manifest) !!! 1%nat) = Some 3%nat)
    by (vm_compute; reflexivity).
  assert (H3 : bw (fst (fix_ manifestHeap manifest)) 3%nat = 800)
    by (vm_compute; reflexivity).
  assert (H1 : bw (fst (fix_ manifestHeap manifest)) 1%nat = 800)
    by (vm_compute; reflexivity).
  split; [vm_compute; reflexivity|].
  split; [exact Hup|]. split; [exact H3|]. split; [exact H1|].
  intros [Hstrict _]. destruct (Hstrict _ Hup) as [Hlt _]. lia.
Qed.

(** C6, amended: after [fix] on a Metadata whose [dataTracks] is empty
    on entry (as the constructor leaves it), every track of
    [audioTracks], [videoTracks] and [dataTracks] has, in the heap that
    [fix] leaves, [up.bandwidth >= bandwidth >= down.bandwidth] whenever
    the neighbour exists, with [up.down == track] and
    [down.up == track]. *)
Theorem fix_chains (h : heap) (m : Metadata.t) :
  dataTracks m = [] ->
  let h' := fst (fix_ h m) in
  let m' := snd (fix_ h m) in
  Forall (neighbours h') (audioTracks m')
  /\ Forall (neighbours h') (videoTracks m')
  /\ Forall (neighbours h') (dataTracks m').
Proof.
  intros Hdata h' m'.
  destruct (fix_inv h m Hdata) as [Hcore Hlinked Hdesc _ _ _ _].
  assert (Hbw : forall r, bw h' r = bw h r).
  { intros r. unfold bw. apply Hcore. }
  assert (Hchain : forall K, Forall (neighbours h') (medias K (fix_loop h m))).
  { intros K. apply linked_neighbours with (prev := None).
    - apply Hlinked.
    - apply descending_ext with (h := h); [exact Hbw | apply Hdesc].
    - discriminate. }
  split; [apply (Hchain Media.AUDIO)|].
  split; [apply (Hchain Media.VIDEO) | apply (Hchain Media.DATA)].
Qed.

Lemma fix_chains_witness :
  let h' := fst (fix_ manifestHeap manifest) in
  Forall (neighbours h') [3%nat; 1%nat; 2%nat] /\ Forall (neighbours h') [0%nat].
Proof.
  intros h'.
  destruct (fix_chains manifestHeap manifest eq_refl) as (_ & Hv & Hd).
  split; [exact Hv | exact Hd].
Defined.

(** C5 fails on the code: [fix] empties [audioTracks] and [videoTracks]
    but not [dataTracks].  On the Metadata that a first [fix] leaves, a
    second [fix] lists the data track twice and makes it its own
    neighbour, up and down. *)
Theorem fix_twice_lists_the_data_track_twice :
  let h1 := fst (fix_ manifestHeap manifest) in
  let m1 := snd (fix_ manifestHeap manifest) in
  let h2 := fst (fix_ h1 m1) in
  let m2 := snd (fix_ h1 m1) in
  dataTracks m1 = [0%nat]
  /\ videoTracks m1 = [3%nat; 1%nat; 2%nat]
  /\ dataTracks m2 = [0%nat; 0%nat]
  /\ videoTracks m2 = [3%nat; 1%nat; 2%nat]
  /\ up (h2 !!! 0%nat) = Some 0%nat /\ down (h2 !!! 0%nat) = Some 0%nat.
Proof. vm_compute. repeat split; reflexivity. Qed.

End FixResults.

(** ** AdaptiveRetry: the delay and the clock of the gate *)

Section RetryGate.

Import AdaptiveRetry RetryRun.

Lemma call_bounded c r :
  0 <= learningTryStep r <= maximumTryDelay r ->
  bounded r ->
  bounded (call c r)
  /\ learningTryStep (call c r) = learningTryStep r
  /\ maximumTryDelay (call c r) = maximumTryDelay r.
Proof.
  unfold bounded. intros Hp Hb.
  destruct c as [|now| | |]; simpl.
  - lia.
  - unfold try, decrease.
    destruct (_appreciationTime r =? 0), (_success r); simpl;
      repeat match goal with
             | |- context [if ?b then _ else _] => destruct b; simpl
             end; lia.
  - unfold raise, increase. simpl. destruct (_success r); simpl; lia.
  - lia.
  - lia.
Qed.

(** X1: whatever the calls made on an AdaptiveRetry whose learning step
    is not negative and not above its maximum delay, the try delay stays
    between the learning step and the maximum delay, and the two
    parameters are never written. *)
Theorem tryDelay_stays_bounded (calls : list Call) (r : AdaptiveRetry.t) :
  0 <= learningTryStep r <= maximumTryDelay r ->
  bounded r ->
  bounded (run calls r)
  /\ learningTryStep (run calls r) = learningTryStep r
  /\ maximumTryDelay (run calls r) = maximumTryDelay r.
Proof.
  revert r. induction calls as [|c calls IH]; intros r Hp Hb.
  - simpl. auto.
  - destruct (call_bounded c r Hp Hb) as (Hb1 & Hs1 & Hm1).
    change (run (c :: calls) r) with (run calls (call c r)).
    destruct (IH (call c r)) as (Hb2 & Hs2 & Hm2).
    + rewrite Hs1, Hm1. exact Hp.
    + exact Hb1.
    + rewrite Hs2, Hm2, Hs1, Hm1. auto.
Qed.

Lemma tryDelay_stays_bounded_witness :
  let calls := [Try 1000; Try 4000; Raise; Raise; Try 5000; Try 11000; Try 11001;
                Try 20000; Decrease; Increase; Reset] in
  bounded (run calls AdaptiveRetry.new)
  /\ learningTryStep (run calls AdaptiveRetry.new) = 3000
  /\ maximumTryDelay (run calls AdaptiveRetry.new) = 30000.
Proof.
  intros calls.
  apply (tryDelay_stays_bounded calls AdaptiveRetry.new).
  - vm_compute. split; intros H; discriminate H.
  - vm_compute. split; intros H; discriminate H.
Defined.

(** The gate once a first [try] has started its clock at [t0]. *)
Local Abbreviation started r t0 :=
  (mk (learningTryStep r) (maximumTryDelay r)
      (if _success r
       then Z.max (_tryDelay r - learningTryStep r) (learningTryStep r)
       else _tryDelay r)
      t0 (_success r)).

Lemma try_start r t0 :
  _appreciationTime r = 0 ->
  try t0 r =
    if 0 <? _tryDelay (started r t0) then (false, started r t0)
    else (true, mk (learningTryStep r) (maximumTryDelay r) (_tryDelay (started r t0)) 0 true).
Proof.
  intros Ha. unfold try, decrease. rewrite Ha. simpl.
  destruct (_success r); simpl; replace (t0 - t0) with 0 by lia; reflexivity.
Qed.

Lemma try_running r t :
  _appreciationTime r <> 0 ->
  try t r =
    if t - _appreciationTime r <? _tryDelay r then (false, r)
    else (true, mk (learningTryStep r) (maximumTryDelay r) (_tryDelay r) 0 true).
Proof.
  intros Ha. unfold try.
  destruct (Z.eqb_spec (_appreciationTime r) 0); [contradiction|reflexivity].
Qed.

(** X2: on a gate whose clock is not running ([_appreciationTime = 0]:
    after the constructor, [reset], [raise] or a successful [try]), a
    [try] at [t0] starts the clock and is refused; from then on a [try]
    at [t1] is accepted exactly when the try delay has elapsed since
    [t0], and an accepted [try] stops the clock and records a
    success. *)
Theorem try_waits_for_the_delay (r : AdaptiveRetry.t) (t0 t1 : Z) :
  _appreciationTime r = 0 ->
  t0 <> 0 ->
  0 < _tryDelay (snd (try t0 r)) ->
  let r1 := snd (try t0 r) in
  fst (try t0 r) = false
  /\ _appreciationTime r1 = t0
  /\ _tryDelay r1 = (if _success r
                     then Z.max (_tryDelay r - learningTryStep r) (learningTryStep r)
                     else _tryDelay r)
  /\ (fst (try t1 r1) = true <-> _tryDelay r1 <= t1 - t0)
  /\ (fst (try t1 r1) = true ->
      _appreciationTime (snd (try t1 r1)) = 0 /\ _success (snd (try t1 r1)) = true).
Proof.
  intros Ha Ht0. rewrite (try_start r t0 Ha).
  destruct (Z.ltb_spec 0 (_tryDelay (started r t0))) as [Hlt|Hge];
    [|cbn [snd _tryDelay] in *; intros; lia].
  intros _ r1. subst r1. cbn [fst snd].
  rewrite (try_running (started r t0) t1) by exact Ht0.
  cbn [_appreciationTime _tryDelay].
  refine (conj eq_refl (conj eq_refl (conj eq_refl _))).
  match goal with |- context [?a <? ?b] => destruct (Z.ltb_spec a b) end;
    cbn [fst snd _appreciationTime _success]; split.
  - split; [discriminate | lia].
  - discriminate.
  - split; [lia | reflexivity].
  - auto.
Qed.

Lemma try_waits_for_the_delay_witness :
  fst (try 1000 AdaptiveRetry.new) = false
  /\ fst (try 3999 (snd (try 1000 AdaptiveRetry.new))) = false
  /\ fst (try 4000 (snd (try 1000 AdaptiveRetry.new))) = true.
Proof.
  assert (Ha : _appreciationTime AdaptiveRetry.new = 0) by reflexivity.
  assert (Ht : 1000 <> 0) by discriminate.
  assert (Hd : 0 < _tryDelay (snd (try 1000 AdaptiveRetry.new))) by reflexivity.
  destruct (try_waits_for_the_delay AdaptiveRetry.new 1000 3999 Ha Ht Hd)
    as (H1 & _ & _ & H2 & _).
  destruct (try_waits_for_the_delay AdaptiveRetry.new 1000 4000 Ha Ht Hd)
    as (_ & _ & _ & H3 & _).
  split; [exact H1|]. split.
  - destruct (fst (try 3999 (snd (try 1000 AdaptiveRetry.new)))) eqn:E; [|reflexivity].
    destruct H2 as [H2 _]. specialize (H2 eq_refl). vm_compute in H2. now elim H2.
  - apply H3. vm_compute. discriminate.
Defined.

End RetryGate.

(** ** Source: the timeline of the samples handed over *)

Section Timeline.

Import Source.

Lemma fixTimestamp_parts now type trackId cur sample s :
  fixTimestamp now type trackId cur sample s =
    (fst (fst (fixTimestamp now type trackId cur sample s)),
     snd (fst (fixTimestamp now type trackId cur sample s)),
     snd (fixTimestamp now type trackId cur sample s)).
Proof. now destruct (fixTimestamp now type trackId cur sample s) as [[? ?] ?]. Qed.

(** X3: a video sample received on an enabled track once the video
    time is known is handed over starting exactly at the current video
    time, and the video time becomes the end of that sample: the video
    timeline has neither hole nor overlap.  The payload, the key-frame
    flag and the composition offset are handed over as received. *)
Theorem video_samples_are_contiguous (now trackId : Z) (smp : Media.Sample) (s : Source.t) :
  0 <= trackId ->
  0 <= _videoTime s ->
  exists smp',
    fst (readVideo now trackId (Some smp) s) = Some smp'
    /\ Media.time smp' = _videoTime s
    /\ _videoTime (snd (readVideo now trackId (Some smp) s))
       = Media.time smp' + Media.duration smp'
    /\ Media.data smp' = Media.data smp
    /\ Media.isKeyFrame smp' = Media.isKeyFrame smp
    /\ Media.compositionOffset smp' = Media.compositionOffset smp.
Proof.
  intros Hid Hvt. unfold readVideo.
  destruct (Z.ltb_spec trackId 0); [lia|].
  set (ext := if Media.duration smp <? 0 then Some (- Media.duration smp) else None).
  set (smp0 := match ext with Some d => set_duration d smp | None => smp end).
  assert (Hsame : Media.time smp0 = Media.time smp /\ Media.data smp0 = Media.data smp
                  /\ Media.isKeyFrame smp0 = Media.isKeyFrame smp
                  /\ Media.compositionOffset smp0 = Media.compositionOffset smp)
    by (subst smp0; destruct ext; simpl; auto).
  rewrite (fixTimestamp_parts now Media.VIDEO trackId (_videoTime s) (stamp_of smp0) s).
  pose proof (fixTimestamp_time now trackId Media.VIDEO (_videoTime s) (stamp_of smp0) s) as Hct.
  pose proof (fixTimestamp_stamp now trackId Media.VIDEO (_videoTime s) (stamp_of smp0) s) as Hst.
  pose proof (fixTimestamp_times now trackId Media.VIDEO (_videoTime s) (stamp_of smp0) s) as Hts.
  set (ct := fst (fst (fixTimestamp now Media.VIDEO trackId (_videoTime s) (stamp_of smp0) s))) in *.
  set (st := snd (fst (fixTimestamp now Media.VIDEO trackId (_videoTime s) (stamp_of smp0) s))) in *.
  set (s1 := snd (fixTimestamp now Media.VIDEO trackId (_videoTime s) (stamp_of smp0) s)) in *.
  cbv zeta in Hct, Hst, Hts.
  assert (Htime : time st = _videoTime s /\ exists d, duration st = Some d).
  { rewrite Hst. destruct (Z.leb_spec 0 (_videoTime s)); [|lia].
    unfold repairs, stamp_of. simpl.
    destruct (Z.eqb_spec (Media.time smp0 - _videoTime s) 0); simpl.
    - split; [lia | eauto].
    - split; [reflexivity | eauto]. }
  destruct Htime as [Htime [d Hd]].
  rewrite Hd in Hct. simpl in Hct.
  assert (Hsmp1 : Media.time (restamp st smp0) = _videoTime s
                  /\ Media.duration (restamp st smp0) = d).
  { unfold restamp. simpl. rewrite Hd. simpl. auto. }
  destruct Hsmp1 as [Ht1 Hd1].
  destruct ext as [e|].
  - destruct (negb (e =? 0) && _) eqn:E.
    + eexists. split; [reflexivity|]. simpl.
      unfold currentTime. simpl. rewrite Hd. simpl.
      repeat split; try tauto; lia.
    + eexists. split; [reflexivity|]. simpl. rewrite Hd. simpl.
      repeat split; try tauto; lia.
  - eexists. split; [reflexivity|]. simpl. rewrite Hd. simpl.
    repeat split; try tauto; lia.
Qed.

Lemma video_samples_are_contiguous_witness :
  let s := Run.run [Run.Feed 0 (Run.Video 1 (Media.mkSample 960 40 [1] None (Some true) None))]
                   Source.new in
  exists smp',
    fst (readVideo 10 1 (Some (Media.mkSample 1033 33 [2] None None None)) s) = Some smp'
    /\ Media.time smp' = 1000
    /\ _videoTime (snd (readVideo 10 1 (Some (Media.mkSample 1033 33 [2] None None None)) s))
       = 1066.
Proof.
  intros s.
  assert (Hid : 0 <= 1) by lia.
  assert (Hvt : 0 <= _videoTime s) by (vm_compute; discriminate).
  destruct (video_samples_are_contiguous 10 1 (Media.mkSample 1033 33 [2] None None None) s
              Hid Hvt) as (smp' & Hfst & Htime & Hend & _).
  exists smp'. split; [exact Hfst|]. split; [exact Htime|].
  reflexivity.
Defined.

(** X4: an audio sample received on an enabled track once the audio
    time is known is handed over either at the current audio time or, as
    received, at least the tolerance (7 ms) after it: audio samples never
    overlap what was handed over before, and the only holes left are of
    7 ms or more.  The audio time becomes the end of the sample handed
    over. *)
Theorem audio_samples_never_overlap (now trackId : Z) (smp : Media.Sample) (s : Source.t) :
  0 <= trackId ->
  0 <= _audioTime s ->
  exists smp',
    fst (readAudio now trackId (Some smp) s) = Some smp'
    /\ (Media.time smp' = _audioTime s
        \/ (_audioTime s + TIMESTAMP_HOLE_TOLERANCE <= Media.time smp' /\ smp' = smp))
    /\ _audioTime (snd (readAudio now trackId (Some smp) s))
       = Media.time smp' + Media.duration smp'
    /\ Media.data smp' = Media.data smp.
Proof.
  intros Hid Hat. unfold readAudio.
  destruct (Z.ltb_spec trackId 0); [lia|].
  rewrite (fixTimestamp_parts now Media.AUDIO trackId (_audioTime s) (stamp_of smp) s).
  pose proof (fixTimestamp_time now trackId Media.AUDIO (_audioTime s) (stamp_of smp) s) as Hct.
  pose proof (fixTimestamp_stamp now trackId Media.AUDIO (_audioTime s) (stamp_of smp) s) as Hst.
  set (ct := fst (fst (fixTimestamp now Media.AUDIO trackId (_audioTime s) (stamp_of smp) s))) in *.
  set (st := snd (fst (fixTimestamp now Media.AUDIO trackId (_audioTime s) (stamp_of smp) s))) in *.
  set (s1 := snd (fixTimestamp now Media.AUDIO trackId (_audioTime s) (stamp_of smp) s)) in *.
  cbv zeta in Hct, Hst.
  exists (restamp st smp). split; [reflexivity|].
  cbn [snd _audioTime set_audioTime].
  revert Hst. destruct (Z.leb_spec 0 (_audioTime s)); [|lia].
  unfold repairs, stamp_of, TIMESTAMP_HOLE_TOLERANCE. cbn [time duration Media.Type_eqb negb orb].
  destruct (Z.eqb_spec (Media.time smp - _audioTime s) 0) as [Hz|Hz];
    [|destruct (Z.ltb_spec (Media.time smp - _audioTime s) 7) as [H7|H7]];
    cbn [negb andb]; intros Hst; rewrite Hst in Hct |- *;
    unfold restamp; cbn [time duration default Media.time Media.duration Media.data] in *.
  - split; [left; lia|]. split; [exact Hct | reflexivity].
  - split; [left; reflexivity|]. split; [exact Hct | reflexivity].
  - split; [right; split; [lia | now destruct smp]|]. split; [exact Hct | reflexivity].
Qed.

Lemma audio_samples_never_overlap_witness :
  let s := Run.run [Run.Feed 0 (Run.Audio 0 (Media.mkSample 980 20 [1] None None None))]
                   Source.new in
  exists smp',
    fst (readAudio 10 0 (Some (Media.mkSample 995 20 [2] None None None)) s) = Some smp'
    /\ Media.time smp' = 1000 /\ Media.duration smp' = 15.
Proof.
  intros s.
  assert (Hid : 0 <= 0) by lia.
  assert (Hat : 0 <= _audioTime s) by (vm_compute; discriminate).
  destruct (audio_samples_never_overlap 10 0 (Media.mkSample 995 20 [2] None None None) s
              Hid Hat) as (smp' & Hfst & _).
  exists smp'. split; [exact Hfst|].
  vm_compute in Hfst. injection Hfst as <-. split; reflexivity.
Defined.

(** X5: an extendable video sample (negative duration) received on an
    enabled track brings the video time up to the current time of the
    Source: after it the video is not behind the audio nor the data. *)
Theorem extendable_video_catches_up (now trackId : Z) (smp : Media.Sample) (s : Source.t) :
  0 <= trackId ->
  Media.duration smp < 0 ->
  let s' := snd (readVideo now trackId (Some smp) s) in
  _videoTime s' = currentTime s'
  /\ _audioTime s' = _audioTime s /\ _dataTime s' = _dataTime s.
Proof.
  intros Hid Hneg. unfold readVideo.
  destruct (Z.ltb_spec trackId 0); [lia|].
  destruct (Z.ltb_spec (Media.duration smp) 0); [|lia].
  rewrite (fixTimestamp_parts now Media.VIDEO trackId (_videoTime s)
             (stamp_of (set_duration (- Media.duration smp) smp)) s).
  pose proof (fixTimestamp_times now trackId Media.VIDEO (_videoTime s)
                (stamp_of (set_duration (- Media.duration smp) smp)) s) as Hts.
  cbv zeta in Hts. destruct Hts as (Ha & Hv & Hd & _).
  destruct (Z.eqb_spec (- Media.duration smp) 0); [lia|].
  cbn [negb andb].
  match goal with |- context [0 <? ?x] => destruct (Z.ltb_spec 0 x) as [Hlt|Hge] end;
    cbn [snd]; unfold currentTime in *; simpl in *; lia.
Qed.

Lemma extendable_video_catches_up_witness :
  let s := Run.run [Run.Feed 0 (Run.Audio 0 (Media.mkSample 1000 500 [1] None None None))]
                   Source.new in
  _videoTime (snd (readVideo 10 1 (Some (Media.mkSample 1000 (-40) [2] None None None)) s))
  = 1500.
Proof.
  intros s.
  assert (Hid : 0 <= 1) by lia.
  assert (Hneg : Media.duration (Media.mkSample 1000 (-40) [2] None None None) < 0)
    by (simpl; lia).
  destruct (extendable_video_catches_up 10 1 (Media.mkSample 1000 (-40) [2] None None None) s
              Hid Hneg) as (Hv & _).
  rewrite Hv. reflexivity.
Defined.

End Timeline.

(** ** Source: the live time against the media time *)

Section LiveTime.

Import Source Run.

Lemma liveTime_shift t t' m : liveTime t' m = liveTime t m + (t' - t).
Proof. unfold liveTime. lia. Qed.

Lemma fixLive_live now c x m :
  _metadata x = Some m ->
  exists m',
    _metadata (fixLive now c x) = Some m'
    /\ c <= liveTime now m' /\ liveTime now m <= liveTime now m'.
Proof.
  intros Hx. unfold fixLive. rewrite Hx.
  destruct (Z.ltb_spec 0 (c - liveTime now m)).
  - eexists. split; [reflexivity|].
    unfold liveTime, set_liveTime in *. cbn [_liveTimeValue _liveTimeWhen]. lia.
  - exists m. destruct (negb (_fixLiveTime x =? 0)); (split; [try reflexivity; exact Hx | lia]).
Qed.

Lemma fixTimestamp_live now type trackId cur sample s m :
  _metadata s = Some m ->
  exists m',
    _metadata (snd (fixTimestamp now type trackId cur sample s)) = Some m'
    /\ fst (fst (fixTimestamp now type trackId cur sample s)) <= liveTime now m'
    /\ liveTime now m <= liveTime now m'.
Proof.
  intros Hm. unfold fixTimestamp. cbv zeta.
  destruct (negb _ && repairs type _); cbn [fst snd];
    apply fixLive_live;
    repeat match goal with
           | |- context [if ?b then _ else _] => destruct b
           | |- context [match ?x with _ => _ end] => destruct x
           end; simpl; exact Hm.
Qed.

(** The live time is not behind the current time of the Source. *)
Local Abbreviation live t s :=
  (exists m, _metadata s = Some m /\ currentTime s <= liveTime t m).

Lemma ingest_live t now e s : t <= now -> live t s -> live now (ingest now e s).
Proof.
  intros Ht (m & Hm & Hle).
  assert (Hnow : currentTime s <= liveTime now m)
    by (rewrite (liveTime_shift t now); lia).
  clear Hle Ht t.
  destruct e as [trackId smp|trackId smp|trackId time]; simpl.
  - unfold readAudio. destruct (trackId <? 0); [exists m; simpl; auto|].
    rewrite (fixTimestamp_parts now Media.AUDIO trackId (_audioTime s) (stamp_of smp) s).
    destruct (fixTimestamp_live now Media.AUDIO trackId (_audioTime s) (stamp_of smp) s m Hm)
      as (m' & Hm' & Hct & Hmm).
    destruct (fixTimestamp_times now trackId Media.AUDIO (_audioTime s) (stamp_of smp) s)
      as (Ha & Hv & Hd & _).
    exists m'. split; [exact Hm'|].
    unfold currentTime in *. simpl. lia.
  - unfold readVideo. destruct (trackId <? 0); [exists m; simpl; auto|].
    set (smp0 := match (if Media.duration smp <? 0 then _ else _) with
                 | Some d => set_duration d smp | None => smp end).
    rewrite (fixTimestamp_parts now Media.VIDEO trackId (_videoTime s) (stamp_of smp0) s).
    destruct (fixTimestamp_live now Media.VIDEO trackId (_videoTime s) (stamp_of smp0) s m Hm)
      as (m' & Hm' & Hct & Hmm).
    destruct (fixTimestamp_times now trackId Media.VIDEO (_videoTime s) (stamp_of smp0) s)
      as (Ha & Hv & Hd & _).
    exists m'.
    destruct (if Media.duration smp <? 0 then _ else _) as [d|];
      [destruct (negb (d =? 0) && _)|];
      (split; [exact Hm'|]); unfold currentTime in *; simpl; lia.
  - unfold readData. destruct (negb (_closed s)); [|exists m; auto].
    rewrite (fixTimestamp_parts now Media.DATA trackId (_dataTime s) (mkStamp time None) s).
    destruct (fixTimestamp_live now Media.DATA trackId (_dataTime s) (mkStamp time None) s m Hm)
      as (m' & Hm' & Hct & Hmm).
    destruct (fixTimestamp_times now trackId Media.DATA (_dataTime s) (mkStamp time None) s)
      as (Ha & Hv & Hd & _).
    exists m'. split; [exact Hm'|].
    unfold currentTime in *. simpl. lia.
Qed.

Lemma close_live t error s : live t s -> live t (close error s).
Proof.
  intros (m & Hm & Hle). exists m. unfold close.
  destruct (_closed s); [auto|]. split; [exact Hm|exact Hle].
Qed.

(** X6: on a Source that holds a Metadata whose live time is not
    behind its current time, and with a wall clock that does not go
    back, the live time is never behind the current time again,
    whatever is fed: each sample that ends after the live time pushes
    the live time to its end. *)
Theorem live_time_is_never_behind (calls : list Call) (s : Source.t) (m : LiveClock) (t0 : Z) :
  _metadata s = Some m ->
  currentTime s <= liveTime t0 m ->
  Clock.ordered t0 calls ->
  exists m',
    _metadata (run calls s) = Some m'
    /\ forall t, Clock.last t0 calls <= t -> currentTime (run calls s) <= liveTime t m'.
Proof.
  intros Hm Hle. assert (H : live t0 s) by (exists m; auto). clear Hm Hle m.
  revert s t0 H. induction calls as [|c calls IH]; intros s t0 H Hord.
  - destruct H as (m & Hm & Hle). exists m. split; [exact Hm|].
    intros t Ht. simpl in Ht. rewrite (liveTime_shift t0 t). simpl. lia.
  - change (run (c :: calls) s) with (run calls (call c s)).
    destruct c as [error|now e]; simpl in Hord |- *.
    + apply IH; [apply close_live, H | exact Hord].
    + destruct Hord as [Ht Hord].
      apply IH; [now apply ingest_live with t0 | exact Hord].
Qed.

Lemma live_time_is_never_behind_witness :
  let s := set_live (Some (mkLiveClock 900 0)) 0 Source.new in
  let calls :=
    [Feed 10 (Audio 0 (Media.mkSample 980 20 [1] None None None));
     Feed 20 (Video 1 (Media.mkSample 960 (-40) [2] None (Some true) None));
     Feed 20 (Data 2 1200)] in
  exists m', _metadata (run calls s) = Some m' /\ currentTime (run calls s) <= liveTime 25 m'.
Proof.
  intros s calls.
  assert (Hm : _metadata s = Some (mkLiveClock 900 0)) by reflexivity.
  assert (Hle : currentTime s <= liveTime 0 (mkLiveClock 900 0))
    by (vm_compute; discriminate).
  assert (Hord : Clock.ordered 0 calls) by (simpl; lia).
  destruct (live_time_is_never_behind calls s (mkLiveClock 900 0) 0 Hm Hle Hord)
    as (m' & Hm' & Hlive).
  exists m'. split; [exact Hm'|]. apply Hlive. simpl. lia.
Defined.

End LiveTime.

(** ** HTTPAdaptiveSource: the responses of a turn *)

Section TurnResponses.

Import HTTPAdaptiveSource Responses.

Lemma readResponses_idle responses s :
  Forall (fun r => a_error r = None) responses ->
  again s = false ->
  readResponses responses s = inr s.
Proof.
  intros Hall Hag. induction Hall as [|r rs Hr _ IH]; [reflexivity|].
  simpl. rewrite Hr, Hag. exact IH.
Qed.

(** X7: in a turn of the main loop whose responses carry no error,
    entered with [again] set (as the loop sets it before the downloads),
    the sequence advances by exactly one when at least one download is
    [ok], however many were run in parallel, and the sequence that was
    downloaded becomes the previous video sequence; when none is [ok]
    the sequence and the previous video sequence are left as they are
    and [again] stays set. *)
Theorem sequence_advances_once (responses : list Answer) (s : HTTPAdaptiveSource.t) :
  Forall (fun r => a_error r = None) responses ->
  again s = true ->
  exists s',
    readResponses responses s = inr s'
    /\ sequence s' = (if existsb a_ok responses then sequence s + 1 else sequence s)
    /\ prevVideoSequence s' =
         (if existsb a_ok responses then Some (sequence s) else prevVideoSequence s)
    /\ again s' = negb (existsb a_ok responses)
    /\ tracks s' = tracks s /\ requests s' = requests s.
Proof.
  intros Hall Hag. induction Hall as [|r rs Hr Hrs IH].
  - exists s. simpl. rewrite Hag. repeat split; reflexivity.
  - simpl. rewrite Hr, Hag. destruct (a_ok r); simpl.
    + eexists. split; [apply readResponses_idle; [exact Hrs | reflexivity]|].
      simpl. repeat split; reflexivity.
    + exact IH.
Qed.

Lemma sequence_advances_once_witness :
  let s := Fixtures.playing 5000 4000 in
  let responses := [mkAnswer None 206 true; mkAnswer None 200 true; mkAnswer None 408 false] in
  exists s', readResponses responses s = inr s' /\ sequence s' = 101
             /\ prevVideoSequence s' = Some 100.
Proof.
  intros s responses.
  assert (Hall : Forall (fun r => a_error r = None) responses)
    by (repeat constructor).
  assert (Hag : again s = true) by reflexivity.
  destruct (sequence_advances_once responses s Hall Hag) as (s' & Hs' & Hseq & Hprev & _).
  exists s'. split; [exact Hs'|]. split; [exact Hseq | exact Hprev].
Defined.

(** X8: a response that carries an error closes the Source, whatever
    follows it: with "Malformed payload" when its status is 400, with
    "Request error" otherwise, the detail being the error of the
    response. *)
Theorem error_response_closes (before after : list Answer) (response : Answer)
    (detail : string) (s : HTTPAdaptiveSource.t) :
  Forall (fun r => a_error r = None) before ->
  a_error response = Some detail ->
  readResponses (before ++ response :: after) s =
    inl (if a_status response =? 400
         then Source.MalformedPayload detail
         else Source.RequestError detail).
Proof.
  intros Hall Herr. revert s. induction Hall as [|r rs Hr _ IH]; intros s.
  - simpl. now rewrite Herr.
  - simpl. rewrite Hr. destruct (again s && a_ok r); apply IH.
Qed.

Lemma error_response_closes_witness :
  readResponses [mkAnswer None 200 true; mkAnswer (Some "No valid first-frame-length header"%string) 400 false;
                 mkAnswer None 200 true] (Fixtures.playing 5000 4000)
  = inl (Source.MalformedPayload "No valid first-frame-length header").
Proof.
  assert (Hall : Forall (fun r => a_error r = None) [mkAnswer None 200 true])
    by (repeat constructor).
  exact (error_response_closes [mkAnswer None 200 true] [mkAnswer None 200 true]
           (mkAnswer (Some "No valid first-frame-length header"%string) 400 false)
           "No valid first-frame-length header"%string (Fixtures.playing 5000 4000)
           Hall eq_refl).
Defined.

End TurnResponses.

(** ** CMAFWriter: the framing of a fragment *)

Section FragmentFraming.

Import BinaryWriter CMAFWriter.

Lemma writeHex_length_both s :
  length (writeHex s) = Nat.div2 (String.length s)
  /\ forall a, length (writeHex (String a s)) = Nat.div2 (S (String.length s)).
Proof.
  induction s as [|b s [IH1 IH2]]; [split; reflexivity|].
  split.
  - apply IH2.
  - intros a. cbn [writeHex length String.length Nat.div2]. now rewrite IH1.
Qed.

Lemma writeHex_length s : length (writeHex s) = Nat.div2 (String.length s).
Proof. apply writeHex_length_both. Qed.

Lemma subSamples_length (l : list (Z * Z)) :
  length (flat_map (fun ss => write16 (fst ss) ++ write32 (snd ss)) l) = (6 * length l)%nat.
Proof. induction l as [|x l IH]; [reflexivity|]. cbn [flat_map]. rewrite length_app, IH. simpl. lia. Qed.

Lemma decode32_write32_small v : 0 <= v < 4294967296 -> decode32 (write32 v) = v.
Proof. intros H. rewrite decode32_write32. now apply Z.mod_small. Qed.

(** The protection boxes have the sizes [write] adds up for them. *)
Lemma protection_length isVideo sample c :
  Z.of_nat (length (protection isVideo sample c))
  = sizeSaiz isVideo (Some c) + sizeSaio isVideo (Some c) + sizeSenc sample (Some c).
Proof.
  unfold protection, sizeSaiz, sizeSaio, sizeSenc, subSamplesLength.
  assert (Hiv : withIV c = true -> length (writeHex (iv c)) = 16%nat).
  { unfold withIV. intros H. apply andb_true_iff in H as [_ H].
    apply Z.eqb_eq in H. rewrite writeHex_length.
    replace (String.length (iv c)) with 32%nat by lia. reflexivity. }
  destruct (withSaiz isVideo c), (withIV c);
    try specialize (Hiv eq_refl);
    destruct (Media.subSamples sample) as [l|]; cbn [default length];
    try destruct (Z.eqb_spec (Z.of_nat (length l)) 0);
    cbn [negb]; rewrite ?length_app, ?subSamples_length, ?Hiv;
    cbn [length write8 write16 write32 Z.eqb negb]; rewrite ?length_app, ?subSamples_length, ?Hiv;
    cbn [length]; unfold id; lia.
Qed.

(** X9: a fragment is written as two packets, the second one being
    the payload of the sample.  The first packet is the [moof] box
    followed by the 8-byte header of [mdat]: its length is the declared
    size of [moof] plus 8.  While that length and the payload stay below
    2^32, the size field of [moof] is the size of the box, the data
    offset of [trun] (at byte 88) is the length of the first packet, so
    that it points at the first byte of the payload, and the size field
    of [mdat] covers its header and the payload. *)
Theorem fragment_is_well_framed (sample : Media.Sample) (cp : option ContentProtection)
    (w : CMAFWriter.t) :
  sizeMoof (_isVideo w) sample cp + 8 + byteLength sample < 4294967296 ->
  exists moof,
    fst (write sample cp w) = [moof; Media.data sample]
    /\ Z.of_nat (length moof) = sizeMoof (_isVideo w) sample cp + 8
    /\ decode32 (take 4 moof) = sizeMoof (_isVideo w) sample cp
    /\ take 4 (drop 4 moof) = [109; 111; 111; 102]
    /\ decode32 (take 4 (drop 88 moof)) = Z.of_nat (length moof)
    /\ decode32 (take 4 (drop (length moof - 8) moof)) = 8 + byteLength sample
    /\ drop (length moof - 4) moof = [109; 100; 97; 116].
Proof.
  intros Hsize.
  assert (Hpos : 0 <= sizeMoof (_isVideo w) sample cp /\ 0 <= byteLength sample).
  { unfold sizeMoof, sizeTraf, sizeTrun, sizeSenc, sizeSaiz, sizeSaio, byteLength,
      subSamplesLength.
    destruct cp as [c|]; [|lia].
    destruct (withIV c), (withSaiz (_isVideo w) c), (Media.subSamples sample) as [l|];
      try destruct (negb (Z.of_nat (length l) =? 0)); simpl; lia. }
  unfold write. cbn [fst]. eexists. split; [reflexivity|].
  set (prot := match cp with Some c => protection (_isVideo w) sample c | None => [] end).
  assert (Hprot : Z.of_nat (length prot)
                  = sizeSaiz (_isVideo w) cp + sizeSaio (_isVideo w) cp + sizeSenc sample cp).
  { subst prot. destruct cp as [c|]; [apply protection_length | reflexivity]. }
  set (mdat := write32 (8 + byteLength sample) ++ [109; 100; 97; 116]).
  match goal with
  | |- Z.of_nat (length ?m) = _ /\ _ =>
      assert (Hlen : Z.of_nat (length m) = sizeMoof (_isVideo w) sample cp + 8)
  end.
  { rewrite !length_app. cbn [length write32 write64 app].
    change (length mdat) with 8%nat.
    unfold sizeMoof, sizeTraf, sizeTrun. lia. }
  split; [exact Hlen|].
  split.
  { transitivity (decode32 (write32 (sizeMoof (_isVideo w) sample cp)));
      [reflexivity | apply decode32_write32_small; lia]. }
  split; [reflexivity|].
  split.
  { rewrite Hlen.
    transitivity (decode32 (write32 (sizeMoof (_isVideo w) sample cp + 8)));
      [reflexivity | apply decode32_write32_small; lia]. }
  match goal with
  | |- context [drop (length ?m - 8) ?m] =>
      assert (Hsplit : exists body, m = body ++ mdat /\ (length m - 8 = length body)%nat)
  end.
  { eexists. split.
    - rewrite !(app_assoc _ _ mdat). reflexivity.
    - rewrite !length_app. subst mdat. cbn [length write32 app]. lia. }
  destruct Hsplit as (body & -> & Hbody).
  replace (length (body ++ mdat) - 4)%nat with (length body + 4)%nat
    by (rewrite length_app; subst mdat; cbn [length write32 app]; lia).
  rewrite Hbody.
  rewrite drop_app_length. rewrite <- drop_drop, drop_app_length.
  subst mdat. split; [|reflexivity].
  transitivity (decode32 (write32 (8 + byteLength sample)));
    [reflexivity | apply decode32_write32_small; lia].
Qed.

End FragmentFraming.

Section FragmentFramingWitness.

Import BinaryWriter CMAFWriter Fixtures2.

Lemma fragment_is_well_framed_witness :
  exists moof,
    fst (write protectedSample (Some cenc) videoWriter) = [moof; [1; 2; 3; 4; 5]]
    /\ Z.of_nat (length moof) = 200
    /\ decode32 (take 4 (drop 88 moof)) = 200.
Proof.
  assert (H : sizeMoof (_isVideo videoWriter) protectedSample (Some cenc) + 8
              + byteLength protectedSample < 4294967296) by (vm_compute; reflexivity).
  destruct (fragment_is_well_framed protectedSample (Some cenc) videoWriter H)
    as (moof & Hw & Hlen & _ & _ & Hoff & _).
  exists moof. split; [exact Hw|]. split; [exact Hlen|].
  rewrite Hoff. exact Hlen.
Defined.

End FragmentFramingWitness.

(** ** Ladders of renditions *)

Section Ladders.

Import MediaTrack Metadata Ladder.

Lemma linked_app (h : heap) l1 : forall l2 p,
  linked h p (l1 ++ l2) -> linked h (from_option Some p (last l1)) l2.
Proof.
  induction l1 as [|a l1 IH]; intros l2 p Hl; [exact Hl|].
  destruct Hl as (_ & _ & Hl). specialize (IH l2 (Some a) Hl).
  destruct l1 as [|b l1]; [exact IH|].
  rewrite last_cons_cons.
  destruct (last (b :: l1)) eqn:E; [exact IH|].
  apply last_None in E. discriminate.
Qed.

Lemma linked_middle (h : heap) l1 r l2 :
  linked h None (l1 ++ r :: l2) ->
  up (h !!! r) = last l1 /\ down (h !!! r) = head l2.
Proof.
  intros Hl. apply linked_app in Hl. destruct Hl as (Hup & Hdown & _).
  split; [|exact Hdown]. rewrite Hup. now destruct (last l1).
Qed.

Lemma descending_app (h : heap) l1 l2 : descending h (l1 ++ l2) -> descending h l2.
Proof.
  induction l1 as [|a l1 IH]; [auto|]. intros [_ Hd]. now apply IH.
Qed.

Lemma descending_head (h : heap) a l x :
  descending h (a :: l) -> x ∈ l -> bw h x <= bw h a.
Proof.
  revert a. induction l as [|b l IH]; intros a Hd Hx; [now apply elem_of_nil in Hx|].
  destruct Hd as [Hab Hd].
  apply elem_of_cons in Hx as [->|Hx]; [exact Hab|].
  specialize (IH b Hd Hx). lia.
Qed.

(** On a chain the loop ends: on a track of the chain, at or below the
    start, that does not satisfy the condition or is the last one. *)
Lemma walkDown_chain (h : heap) c : forall rest r p fuel,
  linked h p (r :: rest) ->
  (length rest < fuel)%nat ->
  exists pre r' post,
    r :: rest = pre ++ r' :: post
    /\ walkDown fuel h c r = Some r'
    /\ (c (h !!! r') = false \/ down (h !!! r') = None).
Proof.
  induction rest as [|d rest IH]; intros r p fuel Hl Hfuel.
  - destruct fuel as [|fuel]; [simpl in Hfuel; lia|].
    exists [], r, []. split; [reflexivity|]. simpl.
    destruct Hl as (_ & Hdown & _). simpl in Hdown. rewrite Hdown.
    destruct (c (h !!! r)); auto.
  - destruct fuel as [|fuel]; [simpl in Hfuel; lia|].
    destruct Hl as (_ & Hdown & Hl). simpl in Hdown.
    cbn [walkDown]. rewrite Hdown.
    destruct (c (h !!! r)) eqn:Hc.
    + destruct (IH d (Some r) fuel Hl) as (pre & r' & post & Heq & Hw & Hend);
        [simpl in Hfuel; lia|].
      exists (r :: pre), r', post. rewrite Heq. auto.
    + exists [], r, (d :: rest). auto.
Qed.

Lemma walkDown_middle (h : heap) c l1 r l2 fuel :
  linked h None (l1 ++ r :: l2) ->
  (length l2 < fuel)%nat ->
  exists pre r' post,
    r :: l2 = pre ++ r' :: post
    /\ walkDown fuel h c r = Some r'
    /\ (c (h !!! r') = false \/ down (h !!! r') = None).
Proof.
  intros Hl Hfuel. apply linked_app in Hl. now apply walkDown_chain with (p := from_option Some None (last l1)).
Qed.

(** The loop goes down only past tracks that satisfy the condition:
    it ends on the first track of the chain that does not, or on the
    last one. *)
Lemma walkDown_first (h : heap) c : forall rest r p fuel,
  linked h p (r :: rest) ->
  (length rest < fuel)%nat ->
  exists pre r' post,
    r :: rest = pre ++ r' :: post
    /\ walkDown fuel h c r = Some r'
    /\ Forall (fun x => c (h !!! x) = true) pre
    /\ (c (h !!! r') = false \/ post = [])
    /\ down (h !!! r') = head post.
Proof.
  induction rest as [|d rest IH]; intros r p fuel Hl Hfuel.
  - destruct fuel as [|fuel]; [simpl in Hfuel; lia|].
    exists [], r, []. split; [reflexivity|]. simpl.
    destruct Hl as (_ & Hdown & _). simpl in Hdown. rewrite Hdown.
    destruct (c (h !!! r)); repeat split; auto.
  - destruct fuel as [|fuel]; [simpl in Hfuel; lia|].
    destruct Hl as (_ & Hdown & Hl). simpl in Hdown.
    cbn [walkDown]. rewrite Hdown.
    destruct (c (h !!! r)) eqn:Hc.
    + destruct (IH d (Some r) fuel Hl) as (pre & r' & post & Heq & Hw & Hpre & Hend);
        [simpl in Hfuel; lia|].
      exists (r :: pre), r', post. rewrite Heq.
      split; [reflexivity|]. split; [exact Hw|]. split; [|exact Hend].
      constructor; assumption.
    + exists [], r, (d :: rest). repeat split; auto.
Qed.

(** X10: on a chain of renditions as [fix] leaves it, the automatic
    first track is [-1] exactly when the list is empty; otherwise the
    loop ends on a track of the lower half of the list, from the middle
    rendition down, and that track fits the screen unless it is the last
    rendition. *)
Theorem autoFirstTrack_is_the_middle_or_below (h : heap)
    (maximumResolution : option Media.Resolution) (tracks : list ref) :
  linked h None tracks ->
  exists v,
    _autoFirstTrack (length tracks) h maximumResolution tracks = Some v
    /\ ((tracks = [] /\ v = -1)
        \/ exists track,
             track ∈ drop (length tracks / 2) tracks
             /\ v = id (h !!! track)
             /\ (overScreen maximumResolution (h !!! track) = false
                 \/ down (h !!! track) = None)).
Proof.
  intros Hl. unfold _autoFirstTrack.
  destruct (tracks !! (length tracks / 2)%nat) as [r|] eqn:Hr.
  - pose proof (take_drop_middle tracks _ r Hr) as Hsplit.
    rewrite <- Hsplit in Hl.
    destruct (walkDown_middle h (overScreen maximumResolution) _ r _ (length tracks) Hl)
      as (pre & r' & post & Heq & Hw & Hend).
    { rewrite length_drop. apply lookup_lt_Some in Hr. lia. }
    rewrite Hw. eexists. split; [reflexivity|]. right. exists r'.
    split; [|auto].
    rewrite (drop_S tracks r _ Hr), Heq.
    apply elem_of_app. right. left.
  - exists (-1). split; [reflexivity|]. left. split; [|reflexivity].
    apply lookup_ge_None in Hr. destruct tracks as [|a l]; [reflexivity|].
    exfalso. pose proof (Nat.div_lt (length (a :: l)) 2). simpl in *. lia.
Qed.

Lemma autoFirstTrack_is_the_middle_or_below_witness :
  _autoFirstTrack 3 Fixtures2.fixedHeap (Some (Media.mkResolution 1000 700))
    (videoTracks Fixtures2.fixed) = Some 2.
Proof.
  assert (Hl : linked Fixtures2.fixedHeap None (videoTracks Fixtures2.fixed))
    by (vm_compute; repeat split; reflexivity).
  destruct (autoFirstTrack_is_the_middle_or_below Fixtures2.fixedHeap
              (Some (Media.mkResolution 1000 700)) (videoTracks Fixtures2.fixed) Hl)
    as (v & Hv & _).
  change (length (videoTracks Fixtures2.fixed)) with 3%nat in Hv.
  rewrite Hv. vm_compute in Hv. injection Hv as <-. reflexivity.
Defined.

End Ladders.

(** ** HTTPAdaptiveSource: the choice of the video rendition *)

Section RenditionChoice.

Import MediaTrack Metadata Ladder HTTPAdaptiveSource Selection.

Variables (h : heap) (m : Metadata.t) (maximumResolution : option Media.Resolution).
Variables (bufferState : Player.BufferState) (bandwidthMeasure : Z) (sg : Signals).
Variable s : HTTPAdaptiveSource.t.

(** The end of the block, from the track [videoTrack2] on. *)
Local Abbreviation finish fuel isUp ar videoTrack2 :=
  (match walkDown fuel h (overScreen maximumResolution) videoTrack2 with
   | Some videoTrack3 =>
       let v := id (h !!! videoTrack3) in
       if match Media.video (tracks s) with
          | Some v0 => negb (v0 =? v)
          | None => true
          end
       then Some (Some videoTrack3, set_video v ar s,
                  [LogMBR isUp (Media.video (tracks s)) v])
       else Some (Some videoTrack3, set_adaptiveRetry ar s, [])
   | None => None
   end).

Lemma finish_spec fuel isUp ar l1 r l2 :
  linked h None (l1 ++ r :: l2) ->
  (length l2 < fuel)%nat ->
  exists pre vt' post s' log,
    finish fuel isUp ar r = Some (Some vt', s', log)
    /\ r :: l2 = pre ++ vt' :: post
    /\ Media.video (tracks s') = Some (id (h !!! vt'))
    /\ Media.audio (tracks s') = Media.audio (tracks s)
    /\ adaptiveRetry s' = ar
    /\ (overScreen maximumResolution (h !!! vt') = false \/ down (h !!! vt') = None).
Proof.
  intros Hl Hfuel.
  destruct (walkDown_middle h (overScreen maximumResolution) l1 r l2 fuel Hl Hfuel)
    as (pre & r' & post & Heq & Hw & Hend).
  rewrite Hw. cbv zeta.
  destruct (Media.video (tracks s)) as [v0|] eqn:Hv0.
  - destruct (Z.eqb_spec v0 (id (h !!! r'))) as [->|Hne]; cbn [negb].
    + exists pre, r', post. eexists. eexists. split; [reflexivity|].
      cbn [set_adaptiveRetry tracks adaptiveRetry]. auto.
    + exists pre, r', post. eexists. eexists. split; [reflexivity|].
      cbn [set_video tracks adaptiveRetry Media.video Media.audio]. auto.
  - exists pre, r', post. eexists. eexists. split; [reflexivity|].
    cbn [set_video tracks adaptiveRetry Media.video Media.audio]. auto.
Qed.

(** One rung down, or the track itself when it is the last one. *)
Lemma down_or_self l1 r l2 :
  linked h None (l1 ++ r :: l2) ->
  exists l1' l2',
    l1 ++ r :: l2 = l1' ++ default r (down (h !!! r)) :: l2'
    /\ (exists pre, r :: l2 = pre ++ default r (down (h !!! r)) :: l2')
    /\ (l2 <> [] -> l2 = default r (down (h !!! r)) :: l2').
Proof.
  intros Hl. destruct (linked_middle h l1 r l2 Hl) as [_ Hdown]. rewrite Hdown.
  destruct l2 as [|d l2]; simpl.
  - exists l1, []. split; [reflexivity|]. split; [exists []; reflexivity | congruence].
  - exists (l1 ++ [r]), l2. split; [now rewrite <- app_assoc|].
    split; [exists [r]; reflexivity | reflexivity].
Qed.

(** The bandwidth of the audio track in play, [0] without one. *)
Local Abbreviation audioBandwidth :=
  (match get m (Media.audio (tracks s)) with
   | Some a => bandwidth (h !!! a)
   | None => 0
   end).

(** X11: after a stall or an abort of the video download, on a chain
    of renditions as [fix] leaves it, the block ends (the fuel of the
    length of the chain is enough) on a rendition of the chain at or
    below the current one, strictly below it when no up emulation was
    running and the current one is not the last.  Its bandwidth is not
    above the one of the current rendition, and it fits the bandwidth
    measured together with the audio, unless it is the last rendition.
    It fits the screen unless it is the last rendition.  The track
    becomes the video track of the source and the retry gate takes a
    failure. *)
Theorem stall_selects_a_rendition_that_fits (l1 l2 : list ref) (vt : ref) :
  linked h None (l1 ++ vt :: l2) ->
  descending h (l1 ++ vt :: l2) ->
  Player.BufferState_eqb bufferState Player.NONE = false ->
  get m (Media.video (tracks s)) = Some vt ->
  stall sg || videoAborted sg = true ->
  exists vt' s' log,
    select (length (l1 ++ vt :: l2)) h m maximumResolution bufferState None
           bandwidthMeasure sg s = Some (Some vt', s', log)
    /\ vt' ∈ vt :: l2
    /\ (_upController s = false -> l2 <> [] -> vt' ∈ l2)
    /\ bw h vt' <= bw h vt
    /\ (bw h vt' + audioBandwidth <= bandwidthMeasure \/ down (h !!! vt') = None)
    /\ (overScreen maximumResolution (h !!! vt') = false \/ down (h !!! vt') = None)
    /\ Media.video (tracks s') = Some (id (h !!! vt'))
    /\ Media.audio (tracks s') = Media.audio (tracks s)
    /\ adaptiveRetry s' = AdaptiveRetry.raise (adaptiveRetry s).
Proof.
  intros Hl Hdesc Hstate Hget Hstall.
  unfold select. rewrite Hstate, Hget, Hstall. cbn [negb].
  set (vt1 := if negb (_upController s) then default vt (down (h !!! vt)) else vt).
  assert (H1 : exists l1' l2' pre1,
             l1 ++ vt :: l2 = l1' ++ vt1 :: l2' /\ vt :: l2 = pre1 ++ vt1 :: l2'
             /\ (_upController s = false -> l2 <> [] -> l2 = vt1 :: l2')).
  { subst vt1. destruct (_upController s); cbn [negb].
    - exists l1, l2, []. split; [reflexivity|]. split; [reflexivity | discriminate].
    - destruct (down_or_self l1 vt l2 Hl) as (l1' & l2' & Heq & [pre1 Hpre] & Hne).
      exists l1', l2', pre1. auto. }
  destruct H1 as (l1' & l2' & pre1 & Heq1 & Hsuf1 & Hstrict).
  rewrite Heq1 in Hl.
  set (c := fun t : MediaTrack.t => bandwidth t + audioBandwidth >? bandwidthMeasure).
  destruct (walkDown_middle h c l1' vt1 l2' (length (l1 ++ vt :: l2)) Hl)
    as (pre2 & r1 & post1 & Heq2 & Hw & Hend).
  { rewrite Heq1, length_app. simpl. lia. }
  cbv zeta. fold c. rewrite Hw.
  assert (Hl2 : linked h None ((l1' ++ pre2) ++ r1 :: post1))
    by (rewrite <- app_assoc, <- Heq2; exact Hl).
  destruct (finish_spec (length (l1 ++ vt :: l2)) false
              (AdaptiveRetry.raise (adaptiveRetry s)) (l1' ++ pre2) r1 post1 Hl2)
    as (pre3 & vt' & post & s' & log & Hfin & Heq3 & Hvid & Haud & Har & Hscreen).
  { rewrite Heq1, Heq2, !length_app. simpl. lia. }
  exists vt', s', log. split; [exact Hfin|].
  assert (Hin1 : vt' ∈ vt1 :: l2').
  { rewrite Heq2, Heq3. apply elem_of_app. right. apply elem_of_app. right. left. }
  assert (Hin : vt' ∈ vt :: l2).
  { rewrite Hsuf1. apply elem_of_app. now right. }
  assert (Hdesc0 : descending h (vt :: l2)) by (eapply descending_app; exact Hdesc).
  assert (Hdesc1 : descending h (r1 :: post1)).
  { rewrite Hsuf1, Heq2 in Hdesc0.
    apply descending_app in Hdesc0. now apply descending_app in Hdesc0. }
  split; [exact Hin|].
  split; [intros Hup Hne; rewrite (Hstrict Hup Hne); exact Hin1|].
  split.
  { apply elem_of_cons in Hin as [->|Hin]; [lia|]. now apply descending_head with l2. }
  split; [|auto].
  destruct Hend as [Hc|Hlast].
  - left. subst c. simpl in Hc. rewrite Z.gtb_ltb in Hc. apply Z.ltb_ge in Hc.
    assert (bw h vt' <= bw h r1); [|unfold bw in *; lia].
    destruct pre3 as [|x pre3]; simpl in Heq3.
    + injection Heq3 as <- _. lia.
    + injection Heq3 as _ ->. apply descending_head with (pre3 ++ vt' :: post);
        [exact Hdesc1|]. apply elem_of_app. right. left.
  - right. destruct (linked_middle h _ _ _ Hl2) as [_ Hd]. rewrite Hd in Hlast.
    destruct post1; [|discriminate].
    destruct pre3 as [|x [|y pre3]]; simpl in Heq3; try discriminate.
    injection Heq3 as <-. now rewrite Hd.
Qed.

(** The end of the block on a chain: the track is the first one from
    [r] down that fits the screen, or the last one; it becomes the video
    track, with a log line when it is not the one in play. *)
Lemma finish_first fuel isUp ar l1 r l2 :
  linked h None (l1 ++ r :: l2) ->
  (length l2 < fuel)%nat ->
  exists over vt' below s' log,
    finish fuel isUp ar r = Some (Some vt', s', log)
    /\ r :: l2 = over ++ vt' :: below
    /\ Forall (fun x => overScreen maximumResolution (h !!! x) = true) over
    /\ (overScreen maximumResolution (h !!! vt') = false \/ below = [])
    /\ down (h !!! vt') = head below
    /\ Media.video (tracks s') = Some (id (h !!! vt'))
    /\ Media.audio (tracks s') = Media.audio (tracks s)
    /\ adaptiveRetry s' = ar
    /\ log = (if match Media.video (tracks s) with
                 | Some v0 => negb (v0 =? id (h !!! vt'))
                 | None => true
                 end
              then [LogMBR isUp (Media.video (tracks s)) (id (h !!! vt'))]
              else []).
Proof.
  intros Hl Hfuel. apply linked_app in Hl.
  destruct (walkDown_first h (overScreen maximumResolution) l2 r _ fuel Hl Hfuel)
    as (pre & r' & post & Heq & Hw & Hpre & Hend & Hdown).
  rewrite Hw. cbv zeta.
  exists pre, r', post.
  destruct (match Media.video (tracks s) with
            | Some v0 => negb (v0 =? id (h !!! r'))
            | None => true
            end) eqn:Hch.
  - eexists. eexists. split; [reflexivity|].
    cbn [set_video tracks adaptiveRetry Media.video Media.audio]. auto 10.
  - destruct (Media.video (tracks s)) as [v0|] eqn:Hv0; [|discriminate].
    apply negb_false_iff, Z.eqb_eq in Hch. subst v0.
    eexists. eexists. split; [reflexivity|].
    cbn [set_adaptiveRetry tracks adaptiveRetry]. auto 10.
Qed.

(** X12: when neither a stall nor an abort of the video download
    occurred, the block starts from the rendition one rung up when an up
    emulation ran without being aborted (from the current one when
    there is none above), from the rendition one rung down with a LOW
    buffer and no such emulation (from the current one when it is the
    last), the retry gate taking a failure, and from the current
    rendition otherwise.  From there it goes down only past renditions
    that are over the screen size: it ends on the first rendition that
    fits the screen, or on the last one, so that a rendition that fits
    is kept.  That rendition becomes the video track of the source, with
    a log line when it was not the one in play. *)
Theorem selection_moves_one_rung (l1 l2 : list ref) (vt : ref) :
  linked h None (l1 ++ vt :: l2) ->
  Player.BufferState_eqb bufferState Player.NONE = false ->
  get m (Media.video (tracks s)) = Some vt ->
  stall sg || videoAborted sg = false ->
  let isUp := _upController s && negb (upAborted sg) in
  let isLow := Player.BufferState_eqb bufferState Player.LOW in
  let from :=
    if isUp then match last l1 with Some u => u :: vt :: l2 | None => vt :: l2 end
    else if isLow then match l2 with [] => [vt] | _ :: _ => l2 end
    else vt :: l2 in
  exists over vt' below s' log,
    select (length (l1 ++ vt :: l2)) h m maximumResolution bufferState None
           bandwidthMeasure sg s = Some (Some vt', s', log)
    /\ from = over ++ vt' :: below
    /\ Forall (fun x => overScreen maximumResolution (h !!! x) = true) over
    /\ (overScreen maximumResolution (h !!! vt') = false \/ below = [])
    /\ down (h !!! vt') = head below
    /\ (forall r rest, from = r :: rest ->
          overScreen maximumResolution (h !!! r) = false -> vt' = r)
    /\ Media.video (tracks s') = Some (id (h !!! vt'))
    /\ Media.audio (tracks s') = Media.audio (tracks s)
    /\ adaptiveRetry s' = (if isUp then adaptiveRetry s
                           else if isLow then AdaptiveRetry.raise (adaptiveRetry s)
                           else adaptiveRetry s)
    /\ log = (if match Media.video (tracks s) with
                 | Some v0 => negb (v0 =? id (h !!! vt'))
                 | None => true
                 end
              then [LogMBR isUp (Media.video (tracks s)) (id (h !!! vt'))]
              else []).
Proof.
  intros Hl Hstate Hget Hstall isUp isLow from.
  assert (Hkeep : forall (over : list ref) vt' below,
            from = over ++ vt' :: below ->
            Forall (fun x => overScreen maximumResolution (h !!! x) = true) over ->
            forall r rest, from = r :: rest ->
              overScreen maximumResolution (h !!! r) = false -> vt' = r).
  { intros over vt' below Heq Hover r rest Hfrom Hfit. rewrite Hfrom in Heq.
    destruct over as [|x over]; simpl in Heq.
    - injection Heq as -> _. reflexivity.
    - injection Heq as -> _. apply Forall_cons in Hover as [Hx _]. congruence. }
  assert (Hsel : exists over vt' below s' log,
    select (length (l1 ++ vt :: l2)) h m maximumResolution bufferState None
           bandwidthMeasure sg s = Some (Some vt', s', log)
    /\ from = over ++ vt' :: below
    /\ Forall (fun x => overScreen maximumResolution (h !!! x) = true) over
    /\ (overScreen maximumResolution (h !!! vt') = false \/ below = [])
    /\ down (h !!! vt') = head below
    /\ Media.video (tracks s') = Some (id (h !!! vt'))
    /\ Media.audio (tracks s') = Media.audio (tracks s)
    /\ adaptiveRetry s' = (if isUp then adaptiveRetry s
                           else if isLow then AdaptiveRetry.raise (adaptiveRetry s)
                           else adaptiveRetry s)
    /\ log = (if match Media.video (tracks s) with
                 | Some v0 => negb (v0 =? id (h !!! vt'))
                 | None => true
                 end
              then [LogMBR isUp (Media.video (tracks s)) (id (h !!! vt'))]
              else [])).
  { unfold select. rewrite Hstate, Hget, Hstall. cbn [negb].
    subst from. fold isUp. fold isLow.
    destruct isUp eqn:Hup.
    - (* up *)
      destruct (linked_middle h l1 vt l2 Hl) as [Hu _]. rewrite Hu.
      destruct (last l1) as [u|] eqn:Hlast; cbn [default from_option id].
      + apply last_Some in Hlast as [l1' ->].
        rewrite <- app_assoc in Hl. simpl in Hl.
        apply (finish_first (length ((l1' ++ [u]) ++ vt :: l2)) true (adaptiveRetry s)
                 l1' u (vt :: l2) Hl).
        rewrite !length_app. simpl. lia.
      + apply (finish_first (length (l1 ++ vt :: l2)) true (adaptiveRetry s)
                 l1 vt l2 Hl).
        rewrite !length_app. simpl. lia.
    - destruct isLow eqn:Hlow.
      + (* down *)
        destruct (linked_middle h l1 vt l2 Hl) as [_ Hd]. rewrite Hd.
        destruct l2 as [|d l2']; cbn [head default from_option id].
        * apply (finish_first (length (l1 ++ [vt])) false
                   (AdaptiveRetry.raise (adaptiveRetry s)) l1 vt [] Hl).
          rewrite !length_app. simpl. lia.
        * assert (Hl' : linked h None ((l1 ++ [vt]) ++ d :: l2'))
            by (rewrite <- app_assoc; exact Hl).
          apply (finish_first (length (l1 ++ vt :: d :: l2')) false
                   (AdaptiveRetry.raise (adaptiveRetry s)) (l1 ++ [vt]) d l2' Hl').
          rewrite !length_app. simpl. lia.
      + (* stay *)
        apply (finish_first (length (l1 ++ vt :: l2)) false (adaptiveRetry s)
                 l1 vt l2 Hl).
        rewrite !length_app. simpl. lia. }
  destruct Hsel as (over & vt' & below & s' & log & Hs & Hfrom & Hover & Hend & Hdown
                    & Hvid & Haud & Har & Hlog).
  exists over, vt', below, s', log.
  split; [exact Hs|]. split; [exact Hfrom|]. split; [exact Hover|].
  split; [exact Hend|]. split; [exact Hdown|].
  split; [exact (Hkeep over vt' below Hfrom Hover)|].
  auto.
Qed.

End RenditionChoice.

Section RenditionChoiceWitnesses.

Import MediaTrack Metadata Ladder HTTPAdaptiveSource Selection Fixtures2.

Lemma stall_selects_a_rendition_that_fits_witness :
  exists vt' s' log,
    select 3 fixedHeap fixed None Player.LOW None 500 (mkSignals true false false) playing3
      = Some (Some vt', s', log)
    /\ vt' ∈ [1%nat; 2%nat]
    /\ bw fixedHeap vt' <= 800
    /\ Media.video (tracks s') = Some (id (fixedHeap !!! vt')).
Proof.
  assert (Hl : linked fixedHeap None ([] ++ 3%nat :: [1%nat; 2%nat]))
    by (vm_compute; repeat split; reflexivity).
  assert (Hd : descending fixedHeap ([] ++ 3%nat :: [1%nat; 2%nat]))
    by (vm_compute; repeat split; intros H; discriminate H).
  destruct (stall_selects_a_rendition_that_fits fixedHeap fixed None Player.LOW 500
              (mkSignals true false false) playing3 [] [1%nat; 2%nat] 3%nat
              Hl Hd eq_refl eq_refl eq_refl)
    as (vt' & s' & log & Hsel & _ & Hbelow & Hbw & _ & _ & Hvid & _).
  exists vt', s', log. split; [exact Hsel|].
  split; [apply Hbelow; [reflexivity | discriminate]|].
  split; [exact Hbw | exact Hvid].
Defined.

Lemma selection_moves_one_rung_witness :
  exists vt' s' log,
    select 3 fixedHeap fixed None Player.LOW None 500 (mkSignals false false false) playing3
      = Some (Some vt', s', log)
    /\ vt' = 1%nat
    /\ Media.video (tracks s') = Some 1
    /\ adaptiveRetry s' = AdaptiveRetry.raise (adaptiveRetry playing3).
Proof.
  assert (Hl : linked fixedHeap None ([] ++ 3%nat :: [1%nat; 2%nat]))
    by (vm_compute; repeat split; reflexivity).
  destruct (selection_moves_one_rung fixedHeap fixed None Player.LOW 500
              (mkSignals false false false) playing3 [] [1%nat; 2%nat] 3%nat
              Hl eq_refl eq_refl eq_refl)
    as (over & vt' & below & s' & log & Hsel & _ & _ & _ & _ & Hkeep & Hvid & _ & Har & _).
  assert (Hvt : vt' = 1%nat) by (apply (Hkeep 1%nat [2%nat]); reflexivity).
  exists vt', s', log. split; [exact Hsel|]. split; [exact Hvt|].
  split; [rewrite Hvid, Hvt; reflexivity | exact Har].
Defined.

End RenditionChoiceWitnesses.

(** ** RTSReader: a stream cut into chunks *)

Section Chunks.

Import BinaryReader RTSReader RTSStream.

Variable decodes : Event -> bool.

Lemma available_app (r y : list Z) : available (r ++ y) = available r + available y.
Proof. unfold available. rewrite length_app. lia. Qed.

Lemma available_nonneg (r : list Z) : 0 <= available r.
Proof. unfold available. lia. Qed.

Lemma read_app size (r y : list Z) :
  size <= available r ->
  BinaryReader.read size (r ++ y)
  = (take (Z.to_nat size) r, drop (Z.to_nat size) r ++ y).
Proof.
  unfold BinaryReader.read, available. intros Hs.
  assert (Hn : (Z.to_nat size <= length r)%nat) by lia.
  now rewrite take_app_le, drop_app_le by exact Hn.
Qed.

Lemma readPayload_app header reader y data reader' :
  _readPayload true header reader = Some (data, reader') ->
  _readPayload true header (reader ++ y) = Some (data, reader' ++ y)
  /\ reader = data ++ reader'.
Proof.
  unfold _readPayload. cbn [negb].
  destruct (read7Bit header) as [size rest].
  destruct (Z.geb_spec (available reader) size) as [Hge|]; [|discriminate].
  pose proof (read_app size reader y ltac:(lia)) as Happ.
  unfold BinaryReader.read at 1. intros [= <- <-]. rewrite available_app.
  destruct (Z.geb_spec (available reader + available y) size) as [_|Hlt];
    [|pose proof (available_nonneg y); lia].
  rewrite Happ. split; [reflexivity|]. now rewrite take_drop.
Qed.

Lemma errors_fire st nextTimes evs :
  Forall (fun e => isError e = false) evs ->
  errors (fire st nextTimes evs) = errors st.
Proof.
  intros Hev. unfold errors, fire. cbn [trace].
  rewrite List.filter_app, length_app.
  replace (List.filter isError evs) with (@nil Event); [simpl; lia|].
  induction Hev as [|e evs He _ IH]; [reflexivity|]. simpl. now rewrite He.
Qed.

(** A packet that is complete is read the same way whatever follows
    it. *)
Lemma media_app st type trackId header reader y st' reader' :
  withSize st = true ->
  media st type trackId header reader = Next st' reader' ->
  media st type trackId header (reader ++ y) = Next st' (reader' ++ y)
  /\ (exists c, reader = c ++ reader')
  /\ errors st' = errors st /\ withSize st' = true.
Proof.
  intros Hws. unfold media. rewrite Hws.
  destruct (match _nextTimes st !! trackId with Some _ => _ | None => _ end)
    as [time header1].
  destruct (read7Bit header1) as [value header2].
  destruct (if negb _ then _ else _) as [compositionOffset header3].
  destruct (_readPayload true header3 reader) as [[data r]|] eqn:Hp; [|discriminate].
  intros [= <- <-].
  destruct (readPayload_app _ _ y _ _ Hp) as [-> Hsplit].
  split; [reflexivity|]. split; [eauto|].
  split; [|exact Hws].
  apply errors_fire. constructor; [|constructor]. now destruct (type =? 1).
Qed.

Lemma packet_app st hdr reader y st' reader' :
  withSize st = true ->
  packet decodes st hdr reader = Next st' reader' ->
  packet decodes st hdr (reader ++ y) = Next st' (reader' ++ y)
  /\ (exists c, reader = c ++ reader')
  /\ errors st' = errors st /\ withSize st' = true.
Proof.
  intros Hws. unfold packet. rewrite Hws.
  destruct (read7Bit hdr) as [type0 header].
  destruct (sar type0 2 =? 0).
  - destruct (band type0 3 =? 3).
    + destruct (read7Bit header) as [v header1].
      destruct (read7Bit header1) as [a header2].
      intros [= <- <-]. split; [reflexivity|]. split; [exists []; reflexivity|].
      split; [|exact Hws]. apply errors_fire. repeat constructor.
    + destruct (band type0 3 =? 0); [|discriminate].
      destruct (_readPayload true header reader) as [[data r]|] eqn:Hp; [|discriminate].
      destruct (decodes (OnMetadata data)) eqn:Hdec; [|discriminate].
      intros [= <- <-].
      destruct (readPayload_app _ _ y _ _ Hp) as [-> Hsplit]. rewrite Hdec.
      split; [reflexivity|]. split; [eauto|].
      split; [|exact Hws]. apply errors_fire. repeat constructor.
  - destruct (band type0 3 =? 0).
    + destruct (read7Bit header) as [time header1].
      destruct (_readPayload true header1 reader) as [[data r]|] eqn:Hp; [|discriminate].
      destruct (decodes (OnData _ time data)) eqn:Hdec; [|discriminate].
      intros [= <- <-].
      destruct (readPayload_app _ _ y _ _ Hp) as [-> Hsplit]. rewrite Hdec.
      split; [reflexivity|]. split; [eauto|].
      split; [|exact Hws]. apply errors_fire. repeat constructor.
    + now apply media_app.
Qed.

(** A packet that does not end the turn either waits for the rest of
    its payload, leaving the reader as it is, or fires an error. *)
Lemma packet_return st hdr reader st' n :
  packet decodes st hdr reader = Return st' n ->
  (st' = st /\ n = available reader) \/ errors st' = S (errors st).
Proof.
  unfold packet, media.
  destruct (read7Bit hdr) as [type0 header].
  destruct (sar type0 2 =? 0).
  - destruct (band type0 3 =? 3).
    + destruct (read7Bit header) as [v header1].
      destruct (read7Bit header1) as [a header2]. discriminate.
    + destruct (band type0 3 =? 0).
      * destruct (_readPayload _ _ _) as [[data r]|];
          [destruct (decodes _); discriminate|].
        intros [= <- <-]. auto.
      * intros [= <- <-]. right. unfold errors. cbn [trace].
        rewrite List.filter_app, length_app. simpl. lia.
  - destruct (band type0 3 =? 0).
    + destruct (read7Bit header) as [time header1].
      destruct (_readPayload _ _ _) as [[data r]|];
        [destruct (decodes _); discriminate|].
      intros [= <- <-]. auto.
    + destruct (match _nextTimes st !! (sar type0 2 - 1) with Some _ => _ | None => _ end)
        as [time header1].
      destruct (read7Bit header1) as [value header2].
      destruct (if negb _ then _ else _) as [compositionOffset header3].
      destruct (_readPayload _ _ _) as [[data r]|]; [discriminate|].
      intros [= <- <-]. auto.
Qed.

(** With enough fuel the loop of [_parse] does not depend on it. *)
Lemma parseLoop_fuel : forall f1 f2 st reader,
  (length reader + match _header st with Some _ => 1 | None => 0 end < f1)%nat ->
  (length reader + match _header st with Some _ => 1 | None => 0 end < f2)%nat ->
  parseLoop decodes f1 st reader = parseLoop decodes f2 st reader.
Proof.
  induction f1 as [|f1 IH]; intros f2 st reader H1 H2; [lia|].
  destruct f2 as [|f2]; [lia|].
  cbn [parseLoop]. destruct (Z.eqb_spec (available reader) 0) as [|Hav]; [reflexivity|].
  destruct (_header st) as [hdr|] eqn:Hh.
  - destruct (packet decodes st hdr reader) as [st' reader'|st' n|st'] eqn:Hp;
      [|reflexivity|reflexivity].
    apply packet_next in Hp as [Hh' Hlen].
    apply IH; rewrite Hh'; lia.
  - destruct (withSize st); simpl; [|reflexivity].
    destruct reader as [|b reader1]; [now contradiction Hav|]. simpl in *.
    destruct (available reader1 <? b); [reflexivity|].
    destruct (packet decodes _ _ _) as [st' reader'|st' n|st'] eqn:Hp;
      [|reflexivity|reflexivity].
    apply packet_next in Hp as [Hh' Hlen].
    rewrite length_drop in Hlen.
    apply IH; rewrite Hh'; lia.
Qed.

Lemma errors_set_header hdr st : errors (set_header hdr st) = errors st.
Proof. reflexivity. Qed.

Lemma drop_suffix (c r' : list Z) (n : nat) :
  (n <= length r')%nat ->
  drop (length (c ++ r') - n) (c ++ r') = drop (length r' - n) r'.
Proof.
  intros Hn. rewrite length_app.
  replace (length c + length r' - n)%nat with (length c + (length r' - n))%nat by lia.
  now rewrite drop_app_add.
Qed.

(** What [_parse] does on a reader followed by more bytes, when it
    fired no error on the reader alone: it goes on from where it
    stopped, on the bytes it asked to keep followed by the new ones. *)
Lemma parse_split : forall f1 st r st1 n1,
  withSize st = true ->
  parseLoop decodes f1 st r = Some (Remaining st1 n1) ->
  errors st1 = errors st ->
  0 <= n1 <= available r
  /\ withSize st1 = true
  /\ forall y f2 f3,
       (length (r ++ y) + match _header st with Some _ => 1 | None => 0 end < f2)%nat ->
       (length (drop (length r - Z.to_nat n1) r ++ y)
        + match _header st1 with Some _ => 1 | None => 0 end < f3)%nat ->
       parseLoop decodes f2 st (r ++ y)
       = parseLoop decodes f3 st1 (drop (length r - Z.to_nat n1) r ++ y).
Proof.
  induction f1 as [|f1 IH]; intros st r st1 n1 Hws Hp Herr; [discriminate|].
  cbn [parseLoop] in Hp.
  destruct (Z.eqb_spec (available r) 0) as [Hav|Hav].
  - injection Hp as <- <-.
    destruct r as [|b r]; [|unfold available in Hav; simpl in Hav; lia].
    split; [unfold available; simpl; lia|]. split; [exact Hws|].
    intros y f2 f3 H2 H3. simpl in *.
    apply parseLoop_fuel; assumption.
  - pose proof (available_nonneg r) as Hr0.
    destruct (_header st) as [hdr|] eqn:Hh.
    + destruct (packet decodes st hdr r) as [st' r'|st' n|st'] eqn:Hpk; [| |discriminate].
      * destruct (packet_app st hdr r [] st' r' Hws Hpk) as (_ & [c Hc] & He & Hws').
        destruct (packet_next _ _ _ _ _ _ Hpk) as [Hh' _].
        destruct (IH st' r' st1 n1 Hws' Hp) as (Hn & Hws1 & Hsplit); [congruence|].
        split; [subst r; rewrite available_app; pose proof (available_nonneg c); lia|].
        split; [exact Hws1|].
        intros y f2 f3 H2 H3.
        destruct f2 as [|f2]; [lia|]. cbn [parseLoop].
        rewrite available_app.
        destruct (Z.eqb_spec (available r + available y) 0) as [H0|_];
          [pose proof (available_nonneg y); lia|].
        rewrite Hh.
        destruct (packet_app st hdr r y st' r' Hws Hpk) as (-> & _).
        subst r. rewrite drop_suffix in H3 |- * by (unfold available in Hn; lia).
        apply Hsplit; [|exact H3].
        assert (length (r' ++ y) <= length ((c ++ r') ++ y))%nat
          by (rewrite !length_app; lia).
        rewrite Hh'. lia.
      * injection Hp as <- <-.
        destruct (packet_return _ _ _ _ _ Hpk) as [[-> ->]|He]; [|lia].
        split; [lia|]. split; [exact Hws|].
        intros y f2 f3 H2 H3.
        replace (length r - Z.to_nat (available r))%nat with 0%nat in *
          by (unfold available; lia).
        rewrite drop_0 in *.
        apply parseLoop_fuel; rewrite ?Hh in *; lia.
    + rewrite Hws in Hp. cbn [negb] in Hp.
      destruct r as [|b r1]; [now contradiction Hav|]. cbn [read8] in Hp.
      destruct (Z.ltb_spec (available r1) b) as [Hlt|Hge].
      * injection Hp as <- <-.
        assert (Hall : available (b :: r1) = available r1 + 1)
          by (unfold available; simpl; lia).
        split; [lia|]. split; [exact Hws|].
        intros y f2 f3 H2 H3.
        replace (length (b :: r1) - Z.to_nat (available r1 + 1))%nat with 0%nat in *
          by (unfold available; simpl; lia).
        rewrite drop_0 in *.
        apply parseLoop_fuel; rewrite ?Hh in *; lia.
      * unfold BinaryReader.read in Hp.
        set (hdr := take (Z.to_nat b) r1) in *.
        set (r2 := drop (Z.to_nat b) r1) in *.
        assert (Hlen2 : (length r2 <= length r1)%nat) by (subst r2; rewrite length_drop; lia).
        assert (Hunfold : forall y f2,
                   parseLoop decodes (S f2) st ((b :: r1) ++ y)
                   = match packet decodes (set_header hdr st) hdr (r2 ++ y) with
                     | Next st' reader' => parseLoop decodes f2 st' reader'
                     | Return st' remaining => Some (Remaining st' remaining)
                     | Throw st' => Some (Thrown st')
                     end).
        { intros y f2. cbn [parseLoop app].
          destruct (Z.eqb_spec (available (b :: r1 ++ y)) 0) as [H0|_];
            [unfold available in H0; simpl in H0; lia|].
          rewrite Hh, Hws. cbn [negb read8]. rewrite available_app.
          destruct (Z.ltb_spec (available r1 + available y) b) as [Hc|_];
            [pose proof (available_nonneg y); lia|].
          rewrite read_app by lia. reflexivity. }
        destruct (packet decodes (set_header hdr st) hdr r2) as [st' r'|st' n|st'] eqn:Hpk;
          [| |discriminate].
        -- destruct (packet_app (set_header hdr st) hdr r2 [] st' r' Hws Hpk) as (_ & [c Hc] & He & Hws').
           destruct (packet_next _ _ _ _ _ _ Hpk) as [Hh' _].
           destruct (IH st' r' st1 n1 Hws' Hp) as (Hn & Hws1 & Hsplit);
             [rewrite He, errors_set_header; exact Herr|].
           assert (Hr1 : b :: r1 = (b :: take (Z.to_nat b) r1 ++ c) ++ r').
           { simpl. rewrite <- app_assoc, <- Hc. subst r2. now rewrite take_drop. }
           split.
           { rewrite Hr1, available_app.
             pose proof (available_nonneg (b :: take (Z.to_nat b) r1 ++ c)). lia. }
           split; [exact Hws1|].
           intros y f2 f3 H2 H3.
           destruct f2 as [|f2]; [lia|]. rewrite Hunfold.
           destruct (packet_app (set_header hdr st) hdr r2 y st' r' Hws Hpk) as (-> & _).
           rewrite Hr1 in H3 |- *.
           rewrite drop_suffix in H3 |- * by (unfold available in Hn; lia).
           apply Hsplit; [|exact H3].
           assert (length (r' ++ y) < length ((b :: r1) ++ y))%nat
             by (rewrite Hr1, !length_app; simpl; lia).
           rewrite Hh'. lia.
        -- injection Hp as <- <-.
           destruct (packet_return _ _ _ _ _ Hpk) as [[-> ->]|He];
             [|rewrite errors_set_header in He; lia].
           assert (Hkept : drop (length (b :: r1) - Z.to_nat (available r2)) (b :: r1) = r2).
           { replace (b :: r1) with ((b :: take (Z.to_nat b) r1) ++ r2)
               by (simpl; subst r2; now rewrite take_drop).
             rewrite drop_suffix by (unfold available; lia).
             replace (length r2 - Z.to_nat (available r2))%nat with 0%nat
               by (unfold available; lia).
             apply drop_0. }
           split.
           { unfold available in *. simpl. lia. }
           split; [exact Hws|].
           intros y f2 f3 H2 H3. rewrite Hkept in *.
           destruct f2 as [|f2]; [lia|]. rewrite Hunfold.
           destruct f3 as [|f3]; [lia|]. cbn [parseLoop].
           destruct (Z.eqb_spec (available (r2 ++ y)) 0) as [H0|H0].
           ++ assert (r2 = [] /\ y = []) as [Hr2 ->].
              { unfold available in H0. rewrite length_app in H0.
                destruct r2, y; simpl in H0; try lia. auto. }
              rewrite app_nil_r, Hpk. rewrite Hr2. reflexivity.
           ++ cbn [_header set_header].
              destruct (packet decodes (set_header hdr st) hdr (r2 ++ y))
                as [st' r'|st' n|st'] eqn:Hpk2; [|reflexivity|reflexivity].
              apply packet_next in Hpk2 as [Hh' Hlen'].
              cbn [_header set_header] in H3.
              assert (length (r2 ++ y) < length ((b :: r1) ++ y))%nat
                by (rewrite !length_app; simpl; lia).
              apply parseLoop_fuel; rewrite Hh'; lia.
Qed.

(** The bytes kept in [Reader._data] are carried along, never read by
    [_parse]. *)
Lemma packet_with_data d st hdr reader :
  packet decodes (with_data d st) hdr reader = step_with_data d (packet decodes st hdr reader).
Proof.
  unfold packet, media. cbn [with_data withSize _nextTimes _header _data trace].
  destruct (read7Bit hdr) as [type0 header].
  destruct (sar type0 2 =? 0).
  - destruct (band type0 3 =? 3).
    + destruct (read7Bit header) as [v header1].
      destruct (read7Bit header1) as [a header2]. reflexivity.
    + destruct (band type0 3 =? 0); [|reflexivity].
      destruct (_readPayload _ _ _) as [[data r]|]; [destruct (decodes _)|]; reflexivity.
  - destruct (band type0 3 =? 0).
    + destruct (read7Bit header) as [time header1].
      destruct (_readPayload _ _ _) as [[data r]|]; [destruct (decodes _)|]; reflexivity.
    + destruct (match _nextTimes st !! (sar type0 2 - 1) with Some _ => _ | None => _ end)
        as [time header1].
      destruct (read7Bit header1) as [value header2].
      destruct (if negb _ then _ else _) as [compositionOffset header3].
      destruct (_readPayload _ _ _) as [[data r]|]; reflexivity.
Qed.

Lemma parseLoop_with_data d : forall fuel st reader,
  parseLoop decodes fuel (with_data d st) reader
  = match parseLoop decodes fuel st reader with
    | Some (Remaining st' n) => Some (Remaining (with_data d st') n)
    | Some (Thrown st') => Some (Thrown (with_data d st'))
    | None => None
    end.
Proof.
  induction fuel as [|fuel IH]; intros st reader; [reflexivity|].
  cbn [parseLoop]. destruct (available reader =? 0); [reflexivity|].
  cbn [with_data _header withSize].
  destruct (_header st) as [hdr|].
  - rewrite packet_with_data.
    destruct (packet decodes st hdr reader) as [st' reader'|st' n|st'];
      [apply IH | reflexivity | reflexivity].
  - destruct (withSize st); cbn [negb]; [|reflexivity].
    destruct (read8 reader) as [size reader1].
    destruct (available reader1 <? size); [reflexivity|].
    destruct (BinaryReader.read size reader1) as [hdr reader2].
    change (set_header hdr (with_data d st)) with (with_data d (set_header hdr st)).
    rewrite packet_with_data.
    destruct (packet decodes (set_header hdr st) hdr reader2) as [st' reader'|st' n|st'];
      [apply IH | reflexivity | reflexivity].
Qed.

(** What [_parse] asks to keep is not more than the reader holds, and
    errors are only added. *)
Lemma packet_return_bound st hdr reader st' n :
  packet decodes st hdr reader = Return st' n ->
  0 <= n <= available reader /\ (errors st <= errors st')%nat /\ withSize st' = withSize st.
Proof.
  intros Hpk. pose proof (available_nonneg reader).
  assert (Hws : withSize st' = withSize st).
  { revert Hpk. unfold packet, media.
    destruct (read7Bit hdr) as [type0 header].
    destruct (sar type0 2 =? 0).
    - destruct (band type0 3 =? 3).
      + destruct (read7Bit header) as [v header1].
        destruct (read7Bit header1) as [a header2]. discriminate.
      + destruct (band type0 3 =? 0).
        * destruct (_readPayload _ _ _) as [[data r]|];
            [destruct (decodes _); discriminate|].
          now intros [= <- <-].
        * now intros [= <- <-].
    - destruct (band type0 3 =? 0).
      + destruct (read7Bit header) as [time header1].
        destruct (_readPayload _ _ _) as [[data r]|];
          [destruct (decodes _); discriminate|].
        now intros [= <- <-].
      + destruct (match _nextTimes st !! (sar type0 2 - 1) with Some _ => _ | None => _ end)
          as [time header1].
        destruct (read7Bit header1) as [value header2].
        destruct (if negb _ then _ else _) as [compositionOffset header3].
        destruct (_readPayload _ _ _) as [[data r]|]; [discriminate|].
        now intros [= <- <-]. }
  split; [|split; [|exact Hws]].
  - revert Hpk. unfold packet, media.
    destruct (read7Bit hdr) as [type0 header].
    destruct (sar type0 2 =? 0).
    + destruct (band type0 3 =? 3).
      * destruct (read7Bit header) as [v header1].
        destruct (read7Bit header1) as [a header2]. discriminate.
      * destruct (band type0 3 =? 0).
        -- destruct (_readPayload _ _ _) as [[data r]|];
             [destruct (decodes _); discriminate|].
           intros [= <- <-]. lia.
        -- intros [= <- <-]. lia.
    + destruct (band type0 3 =? 0).
      * destruct (read7Bit header) as [time header1].
        destruct (_readPayload _ _ _) as [[data r]|];
          [destruct (decodes _); discriminate|].
        intros [= <- <-]. lia.
      * destruct (match _nextTimes st !! (sar type0 2 - 1) with Some _ => _ | None => _ end)
          as [time header1].
        destruct (read7Bit header1) as [value header2].
        destruct (if negb _ then _ else _) as [compositionOffset header3].
        destruct (_readPayload _ _ _) as [[data r]|]; [discriminate|].
        intros [= <- <-]. lia.
  - destruct (packet_return _ _ _ _ _ Hpk) as [[-> _]|He]; lia.
Qed.

Lemma parseLoop_bound : forall fuel st reader st' n,
  withSize st = true ->
  parseLoop decodes fuel st reader = Some (Remaining st' n) ->
  0 <= n <= available reader /\ (errors st <= errors st')%nat /\ withSize st' = true.
Proof.
  induction fuel as [|fuel IH]; intros st reader st' n Hws Hp; [discriminate|].
  cbn [parseLoop] in Hp. pose proof (available_nonneg reader) as Hr0.
  destruct (Z.eqb_spec (available reader) 0) as [Hav|Hav].
  - injection Hp as <- <-. split; [lia|]. split; [lia | exact Hws].
  - destruct (_header st) as [hdr|] eqn:Hh.
    + destruct (packet decodes st hdr reader) as [st0 r'|st0 n0|st0] eqn:Hpk; [| |discriminate].
      * destruct (packet_app st hdr reader [] st0 r' Hws Hpk) as (_ & [c ->] & He & Hws').
        destruct (IH st0 r' st' n Hws' Hp) as (Hn & Hle & Hw).
        rewrite available_app. pose proof (available_nonneg c).
        split; [lia|]. split; [lia | exact Hw].
      * injection Hp as <- <-.
        destruct (packet_return_bound _ _ _ _ _ Hpk) as (Hn & Hle & Hw).
        split; [exact Hn|]. split; [exact Hle | congruence].
    + rewrite Hws in Hp. cbn [negb] in Hp.
      destruct reader as [|b r1]; [now contradiction Hav|]. cbn [read8] in Hp.
      assert (Hall : available (b :: r1) = available r1 + 1)
        by (unfold available; simpl; lia).
      pose proof (available_nonneg r1).
      destruct (Z.ltb_spec (available r1) b) as [Hlt|Hge].
      * injection Hp as <- <-. split; [lia|]. split; [lia | exact Hws].
      * unfold BinaryReader.read in Hp.
        assert (Hlen2 : available (drop (Z.to_nat b) r1) <= available r1)
          by (unfold available; rewrite length_drop; lia).
        destruct (packet decodes _ _ _) as [st0 r'|st0 n0|st0] eqn:Hpk; [| |discriminate].
        -- destruct (packet_app (set_header (take (Z.to_nat b) r1) st) _ _ [] st0 r' Hws Hpk)
             as (_ & [c Hc] & He & Hws').
           destruct (IH st0 r' st' n Hws' Hp) as (Hn & Hle & Hw).
           rewrite Hc, available_app in Hlen2. pose proof (available_nonneg c).
           rewrite errors_set_header in He.
           split; [lia|]. split; [lia | exact Hw].
        -- injection Hp as <- <-.
           destruct (packet_return_bound _ _ _ _ _ Hpk) as (Hn & Hle & Hw).
           rewrite errors_set_header in Hle.
           split; [lia|]. split; [exact Hle|]. rewrite Hw. exact Hws.
Qed.

(** A packet whose payload does not decode leaves the reader as it was
    when the packet began. *)
Lemma packet_throw st header reader st' :
  packet decodes st header reader = Throw st' -> st' = st.
Proof.
  unfold packet, media.
  destruct (read7Bit header) as [type0 header0].
  destruct (sar type0 2 =? 0).
  - destruct (band type0 3 =? 3).
    + destruct (read7Bit header0) as [v header1].
      destruct (read7Bit header1) as [a header2]. discriminate.
    + destruct (band type0 3 =? 0); [|discriminate].
      destruct (_readPayload _ _ _) as [[data r]|]; [|discriminate].
      destruct (decodes _); [discriminate|]. now intros [= <-].
  - destruct (band type0 3 =? 0).
    + destruct (read7Bit header0) as [time header1].
      destruct (_readPayload _ _ _) as [[data r]|]; [|discriminate].
      destruct (decodes _); [discriminate|]. now intros [= <-].
    + destruct (match _nextTimes st !! (sar type0 2 - 1) with Some _ => _ | None => _ end)
        as [time header1].
      destruct (read7Bit header1) as [value header2].
      destruct (if negb _ then _ else _) as [compositionOffset header3].
      destruct (_readPayload _ _ _) as [[data r]|]; discriminate.
Qed.

(** A turn of [_parse] left by an exception has fired no error of its
    own. *)
Lemma parseLoop_thrown : forall fuel st reader st',
  withSize st = true ->
  parseLoop decodes fuel st reader = Some (Thrown st') ->
  (errors st <= errors st')%nat /\ withSize st' = true.
Proof.
  induction fuel as [|fuel IH]; intros st reader st' Hws Hp; [discriminate|].
  cbn [parseLoop] in Hp.
  destruct (Z.eqb_spec (available reader) 0) as [Hav|Hav]; [discriminate|].
  destruct (_header st) as [hdr|] eqn:Hh.
  - destruct (packet decodes st hdr reader) as [st0 r'|st0 n0|st0] eqn:Hpk; [|discriminate|].
    + destruct (packet_app st hdr reader [] st0 r' Hws Hpk) as (_ & _ & He & Hws').
      destruct (IH st0 r' st' Hws' Hp) as (Hle & Hw). split; [lia | exact Hw].
    + injection Hp as <-. apply packet_throw in Hpk as ->. split; [lia | exact Hws].
  - rewrite Hws in Hp. cbn [negb] in Hp.
    destruct reader as [|b r1]; [now contradiction Hav|]. cbn [read8] in Hp.
    destruct (Z.ltb_spec (available r1) b) as [Hlt|Hge]; [discriminate|].
    unfold BinaryReader.read in Hp.
    destruct (packet decodes _ _ _) as [st0 r'|st0 n0|st0] eqn:Hpk; [|discriminate|].
    + destruct (packet_app (set_header (take (Z.to_nat b) r1) st) _ _ [] st0 r' Hws Hpk)
        as (_ & _ & He & Hws').
      destruct (IH st0 r' st' Hws' Hp) as (Hle & Hw).
      rewrite errors_set_header in He. split; [lia | exact Hw].
    + injection Hp as <-. apply packet_throw in Hpk as ->.
      rewrite errors_set_header. split; [lia | exact Hws].
Qed.

Lemma errors_caught st d :
  errors (mk (withSize st) (_nextTimes st) (_header st) d (trace st ++ [LogCaught]))
  = S (errors st).
Proof.
  unfold errors. cbn [trace]. rewrite List.filter_app, length_app. simpl. lia.
Qed.

(** [Reader.read] that catches nothing is [_parse] on the bytes kept and
    the new ones. *)
Lemma read_parse st data st1 :
  withSize st = true ->
  RTSReader.read decodes st data = Some st1 ->
  errors st1 = errors st ->
  exists st1' n1,
    parseLoop decodes (S (S (length (default [] (_data st) ++ data)))) st
              (default [] (_data st) ++ data) = Some (Remaining st1' n1)
    /\ 0 <= n1 <= available (default [] (_data st) ++ data)
    /\ default [] (_data st1)
       = drop (length (default [] (_data st) ++ data) - Z.to_nat n1)
              (default [] (_data st) ++ data)
    /\ st1 = with_data (_data st1) st1'.
Proof.
  intros Hws. unfold RTSReader.read, _parse.
  set (bytes := default [] (_data st) ++ data).
  destruct (parseLoop decodes (S (S (length bytes))) st bytes) as [[st1' n1|st1']|] eqn:Hp;
    [| |discriminate].
  - destruct (parseLoop_bound _ _ _ _ _ Hws Hp) as (Hn & _ & _).
    intros [= <-] _. exists st1', n1. split; [reflexivity|]. split; [exact Hn|].
    rewrite Z.min_l by lia. cbn [_data].
    split; [|reflexivity].
    destruct (Z.ltb_spec 0 n1); [reflexivity|].
    replace (Z.to_nat n1) with 0%nat by lia. rewrite Nat.sub_0_r, drop_all. reflexivity.
  - destruct (parseLoop_thrown _ _ _ _ Hws Hp) as (Hle & _).
    intros [= <-]. rewrite errors_caught. lia.
Qed.

Lemma read_sound st data st1 :
  withSize st = true ->
  RTSReader.read decodes st data = Some st1 ->
  (errors st <= errors st1)%nat /\ withSize st1 = true.
Proof.
  intros Hws. unfold RTSReader.read, _parse.
  set (bytes := default [] (_data st) ++ data).
  destruct (parseLoop decodes (S (S (length bytes))) st bytes) as [[st1' n1|st1']|] eqn:Hp;
    [| |discriminate].
  - destruct (parseLoop_bound _ _ _ _ _ Hws Hp) as (_ & Hle & Hw).
    intros [= <-]. cbn [withSize]. split; [|exact Hw]. exact Hle.
  - destruct (parseLoop_thrown _ _ _ _ Hws Hp) as (Hle & Hw).
    intros [= <-]. rewrite errors_caught. cbn [withSize]. split; [lia | exact Hw].
Qed.

(** Two chunks read one after the other, or at once, when neither read
    fires an error or catches an exception. *)
Lemma read_app_chunks st a b st1 st2 :
  withSize st = true ->
  RTSReader.read decodes st a = Some st1 ->
  errors st1 = errors st ->
  RTSReader.read decodes st1 b = Some st2 ->
  errors st2 = errors st1 ->
  RTSReader.read decodes st (a ++ b) = Some st2.
Proof.
  intros Hws Hr Herr Hr2 Herr2.
  destruct (read_parse st a st1 Hws Hr Herr) as (st1' & n1 & Hp & Hn1 & Hkept & Hst1).
  set (P := default [] (_data st)) in *.
  destruct (parse_split _ _ _ _ _ Hws Hp) as (_ & Hws1 & Hsplit).
  { rewrite Hst1 in Herr. exact Herr. }
  assert (Hws1' : withSize st1 = true) by (rewrite Hst1; exact Hws1).
  assert (Hpl : forall f r,
             parseLoop decodes f st1 r
             = match parseLoop decodes f st1' r with
               | Some (Remaining st' n) => Some (Remaining (with_data (_data st1) st') n)
               | Some (Thrown st') => Some (Thrown (with_data (_data st1) st'))
               | None => None
               end)
    by (intros f r; rewrite Hst1 at 1; apply parseLoop_with_data).
  destruct (read_parse st1 b st2 Hws1' Hr2 Herr2) as (st2' & n2 & Hp2 & _).
  revert Hr2 Hp2. unfold RTSReader.read, _parse. rewrite Hkept, Hpl. fold P.
  set (kept := drop (length (P ++ a) - Z.to_nat n1) (P ++ a)) in *.
  rewrite (app_assoc P a b).
  rewrite (Hsplit b (S (S (length ((P ++ a) ++ b)))) (S (S (length (kept ++ b)))))
    by (destruct (_header st), (_header st1'); lia).
  destruct (parseLoop decodes (S (S (length (kept ++ b)))) st1' (kept ++ b))
    as [[st3 n3|st3]|] eqn:Hp3; [|discriminate|discriminate].
  intros [= <-] _.
  destruct (parseLoop_bound _ _ _ _ _ Hws1 Hp3) as (Hn3 & _ & _).
  cbn [with_data withSize _nextTimes _header trace].
  assert (Hlen : available (kept ++ b) <= available ((P ++ a) ++ b)).
  { subst kept. unfold available. rewrite !length_app, length_drop, !length_app. lia. }
  replace (Z.min n3 (available ((P ++ a) ++ b))) with n3 by lia.
  replace (Z.min n3 (available (kept ++ b))) with n3 by lia.
  destruct (0 <? n3); [|reflexivity].
  do 3 f_equal.
  replace ((P ++ a) ++ b) with (take (length (P ++ a) - Z.to_nat n1) (P ++ a) ++ (kept ++ b))
    by (subst kept; now rewrite app_assoc, take_drop).
  apply drop_suffix. unfold available in Hn3. lia.
Qed.

Lemma readAll_sound : forall chunks st st',
  withSize st = true ->
  readAll decodes st chunks = Some st' ->
  (errors st <= errors st')%nat.
Proof.
  induction chunks as [|c chunks IH]; intros st st' Hws Hr.
  - injection Hr as <-. lia.
  - simpl in Hr. destruct (RTSReader.read decodes st c) as [st1|] eqn:Hc; [|discriminate].
    destruct (read_sound st c st1 Hws Hc) as [Hle Hws1].
    specialize (IH st1 st' Hws1 Hr). lia.
Qed.

(** X13: a reader of a stream ([withSize]) does not depend on the way
    the stream is cut into chunks, as long as nothing goes wrong: when
    the chunks read one by one fire no "Unknown format" error and
    [Reader.read] catches no exception (every Metadata and Data payload
    decodes, [decodes]; the handlers return), the reader ends in the
    same state (the events fired, the next times, the header and the
    bytes kept) as after reading their concatenation at once.  Once a
    read has caught an exception the two differ: the bytes kept are
    those of the last read that returned. *)
Theorem chunking_does_not_matter (c : list Z) (chunks : list (list Z)) (st st' : RTSReader.t) :
  withSize st = true ->
  readAll decodes st (c :: chunks) = Some st' ->
  errors st' = errors st ->
  RTSReader.read decodes st (concat (c :: chunks)) = Some st'.
Proof.
  revert c st. induction chunks as [|c2 chunks IH]; intros c st Hws Hr Herr.
  - simpl in *. rewrite app_nil_r.
    destruct (RTSReader.read decodes st c) as [st1|]; [exact Hr | discriminate].
  - change (readAll decodes st (c :: c2 :: chunks))
      with (match RTSReader.read decodes st c with
            | Some st1 => readAll decodes st1 (c2 :: chunks)
            | None => None
            end) in Hr.
    destruct (RTSReader.read decodes st c) as [st1|] eqn:Hc; [|discriminate].
    destruct (read_sound st c st1 Hws Hc) as [Hle Hws1].
    pose proof (readAll_sound _ _ _ Hws1 Hr) as Hle'.
    change (concat (c :: c2 :: chunks)) with (c ++ concat (c2 :: chunks)).
    apply (read_app_chunks st c _ st1 st' Hws Hc); [lia| |lia].
    apply IH; [exact Hws1 | exact Hr | lia].
Qed.

End Chunks.

Section ChunksWitness.

Import RTSReader RTSStream.

Lemma chunking_does_not_matter_witness :
  exists st',
    readAll (fun _ => true) (RTSReader.new true)
      [[3; 3; 2; 1; 6; 10; 136]; [39; 161; 1; 1]; [171; 4; 10; 160]; [1; 1; 205]] = Some st'
    /\ RTSReader.read (fun _ => true) (RTSReader.new true)
         [3; 3; 2; 1; 6; 10; 136; 39; 161; 1; 1; 171; 4; 10; 160; 1; 1; 205] = Some st'
    /\ length (trace st') = 4%nat.
Proof.
  destruct (readAll (fun _ => true) (RTSReader.new true)
              [[3; 3; 2; 1; 6; 10; 136]; [39; 161; 1; 1]; [171; 4; 10; 160]; [1; 1; 205]])
    as [st'|] eqn:E; [|vm_compute in E; discriminate E].
  assert (Herr : errors st' = errors (RTSReader.new true) /\ length (trace st') = 4%nat).
  { pose proof E as E'. vm_compute in E'. injection E' as <-. split; reflexivity. }
  exists st'. split; [reflexivity|]. split; [|apply Herr].
  exact (chunking_does_not_matter (fun _ => true) [3; 3; 2; 1; 6; 10; 136]
           [[39; 161; 1; 1]; [171; 4; 10; 160]; [1; 1; 205]]
           (RTSReader.new true) st' eq_refl E (proj1 Herr)).
Defined.

(** A Metadata packet whose payload does not parse, cut after its size
    byte: the second read catches the exception and keeps the two bytes
    of the first, whereas the same bytes read at once leave nothing
    kept.  Neither fires an "Unknown format" error. *)
Lemma a_caught_exception_keeps_the_older_bytes :
  let decodes := fun _ : Event => false in
  exists st1 st2,
    readAll decodes (RTSReader.new true) [[2; 0]; [1; 120; 3; 3; 2; 1]] = Some st1
    /\ RTSReader.read decodes (RTSReader.new true) [2; 0; 1; 120; 3; 3; 2; 1] = Some st2
    /\ _data st1 = Some [2; 0] /\ _data st2 = None
    /\ trace st1 = [LogCaught] /\ trace st2 = [LogCaught].
Proof.
  do 2 eexists. repeat split; vm_compute; reflexivity.
Qed.

End ChunksWitness.

(** ** Samples: what is pushed is kept *)

Section SamplesKept.

Import Samples.

Lemma samplesOf_append k trackId sample m :
  samplesOf k (append trackId sample m)
  = samplesOf k m ++ (if trackId =? k then [sample] else []).
Proof.
  induction m as [|[k0 l] m IH]; simpl.
  - destruct (Z.eqb_spec trackId k); reflexivity.
  - destruct (Z.eqb_spec k0 trackId) as [->|Hne]; simpl.
    + destruct (Z.eqb_spec trackId k); [reflexivity | now rewrite app_nil_r].
    + destruct (Z.eqb_spec k0 k) as [->|Hk]; [|exact IH].
      destruct (Z.eqb_spec trackId k); [congruence | now rewrite app_nil_r].
Qed.

Lemma keys_append trackId sample m :
  map fst (append trackId sample m) = add trackId (map fst m).
Proof.
  unfold add. induction m as [|[k0 l] m IH]; simpl; [reflexivity|].
  rewrite (Z.eqb_sym trackId k0).
  destruct (Z.eqb_spec k0 trackId); simpl; [reflexivity|].
  rewrite IH. now destruct (existsb (Z.eqb trackId) (map fst m)).
Qed.

Lemma add_NoDup x s : NoDup s -> NoDup (add x s).
Proof.
  intros Hs. unfold add. destruct (existsb (Z.eqb x) s) eqn:E; [exact Hs|].
  apply NoDup_app. split; [exact Hs|]. split; [|apply NoDup_singleton].
  intros y Hy Hx. apply list_elem_of_singleton in Hx as ->.
  assert (existsb (Z.eqb x) s = true); [|congruence].
  apply existsb_exists. exists x. split; [now apply list_elem_of_In | apply Z.eqb_refl].
Qed.

Lemma pushAll_snoc pushes p s :
  pushAll (pushes ++ [p]) s = push (fst p) (snd p) (pushAll pushes s).
Proof. unfold pushAll. now rewrite fold_left_app. Qed.

Lemma pushedOf_snoc k pushes p :
  pushedOf k (pushes ++ [p]) = pushedOf k pushes ++ (if fst p =? k then [snd p] else []).
Proof.
  unfold pushedOf. rewrite List.filter_app, map_app. simpl.
  now destruct (fst p =? k).
Qed.

(** X14: a [Samples] filled by [push] keeps, for each track, the
    samples pushed for it, in the order of the calls, the tracks being
    listed once each, in the order of their first sample.  Its end time
    is not before the end of any sample (and not before 0, where it
    starts); once a sample is pushed, its start time is the time of the
    earliest sample. *)
Theorem samples_keep_what_is_pushed (pushes : list (Z * Media.Sample)) :
  let s := pushAll pushes Samples.new in
  (forall k, samplesOf k (_samples s) = pushedOf k pushes)
  /\ _tracks s = map fst (_samples s)
  /\ NoDup (_tracks s)
  /\ (forall k, k ∈ _tracks s <-> k ∈ map fst pushes)
  /\ 0 <= _endTime s
  /\ Forall (fun p => Media.time (snd p) + Media.duration (snd p) <= _endTime s) pushes
  /\ Forall (fun p => _startTime s <= Media.time (snd p)) pushes
  /\ (pushes <> [] -> Exists (fun p => Media.time (snd p) = _startTime s) pushes).
Proof.
  cbv zeta.
  assert (Hempty : forall l, length (_samples (pushAll l Samples.new)) = 0%nat <-> l = []).
  { intros l. destruct l as [|p l _] using rev_ind; [easy|].
    rewrite pushAll_snoc. cbn [push _samples].
    split; [|intros H; now apply app_eq_nil in H as [_ H]].
    intros H. exfalso.
    assert (Hk : length (map fst (append (fst p) (snd p)
                                   (_samples (pushAll l Samples.new)))) = 0%nat)
      by now rewrite length_map.
    rewrite keys_append in Hk. unfold add in Hk.
    destruct (existsb _ _) eqn:E.
    - destruct (map fst (_samples (pushAll l Samples.new))); [discriminate E | discriminate Hk].
    - rewrite length_app in Hk. simpl in Hk. lia. }
  induction pushes as [|p pushes IH] using rev_ind.
  - simpl. repeat split; try easy; try lia; try constructor.
  - destruct IH as (Hof & Htr & Hnd & Hin & H0 & Hend & Hstart & Hex).
    rewrite pushAll_snoc. set (s := pushAll pushes Samples.new) in *.
    cbn [push _samples _startTime _endTime _tracks].
    split; [|split; [|split; [|split; [|split; [|split; [|split]]]]]].
    + intros k. now rewrite samplesOf_append, pushedOf_snoc, Hof.
    + now rewrite keys_append, Htr.
    + now apply add_NoDup.
    + intros k. rewrite map_app, elem_of_app. simpl. rewrite list_elem_of_singleton.
      rewrite <- Hin. unfold add.
      destruct (existsb (Z.eqb (fst p)) (_tracks s)) eqn:E.
      * split; [auto|]. intros [H| ->]; [exact H|].
        apply existsb_exists in E as (y & Hy & Heq). apply Z.eqb_eq in Heq as ->.
        now apply list_elem_of_In.
      * rewrite elem_of_app, list_elem_of_singleton. reflexivity.
    + lia.
    + apply Forall_app. split.
      * eapply Forall_impl; [exact Hend|]. simpl. intros; lia.
      * constructor; [lia | constructor].
    + destruct (Nat.eqb_spec (length (_samples s)) 0) as [He|Hne]; cbn [negb].
      * apply Hempty in He. subst pushes. constructor; [lia | constructor].
      * apply Forall_app. split.
        -- eapply Forall_impl; [exact Hstart|]. simpl. intros; lia.
        -- constructor; [lia | constructor].
    + intros _.
      destruct (Nat.eqb_spec (length (_samples s)) 0) as [He|Hne]; cbn [negb].
      * apply Exists_app. right. now constructor.
      * assert (Hp : pushes <> []) by (intros H; apply Hne, Hempty, H).
        destruct (Z.min_spec (_startTime s) (Media.time (snd p))) as [[_ ->]|[_ ->]].
        -- apply Exists_app. left. auto.
        -- apply Exists_app. right. now constructor.
Qed.

End SamplesKept.

(** ** Source: the first samples and the tracks in play *)

Section StartOfStream.

Import Start.

Variable onTrackChange : Z -> Z -> Handled.
Variable onSample : Z -> Media.Sample -> Handled.

Local Abbreviation handOver' := (handOver onTrackChange onSample).
Local Abbreviation run' := (run onTrackChange onSample).

(** The sample of track [k] in a hand-over, as a list. *)
Local Abbreviation rcv k c :=
  (omap (fun c : Kind * Z * option Media.Sample =>
           if snd (fst c) =? k then snd c else None) [c]).

Lemma run_snoc calls c s : run' (calls ++ [c]) s
  = state (handOver' (fst (fst c)) (snd (fst c)) (snd c) (run' calls s)).
Proof. unfold run. now rewrite fold_left_app. Qed.

Lemma received_snoc k calls c : received k (calls ++ [c]) = received k calls ++ rcv k c.
Proof. unfold received. now rewrite omap_app. Qed.

Lemma handed_emit k evs s : handed k (emit evs s) = handed k s ++ omap (sampleOf k) evs.
Proof. unfold handed, emit. cbn [trace]. now rewrite omap_app. Qed.

Lemma start_handed_close k s : handed k (close s) = handed k s.
Proof.
  unfold close. destruct (_closed s); [reflexivity|].
  unfold handed. cbn [trace]. rewrite omap_app. simpl. now rewrite app_nil_r.
Qed.

Lemma start_close_closed s : _closed (close s) = true.
Proof. unfold close. destruct (_closed s) eqn:E; [exact E | reflexivity]. Qed.

Lemma start_close_waiting k s : _closed s = false -> waiting k (close s) = [].
Proof. intros H. unfold close. now rewrite H. Qed.

(** The state a handler leaves, whether it returns or throws. *)
Lemma handled_state o s : state (handled o s) = if closes o then close s else s.
Proof. unfold handled. destruct (throws o); reflexivity. Qed.

(** *** What a call leaves when it does not close the Source *)

Lemma fireSample_open k x s :
  _closed (state (fireSample onSample k x s)) = false ->
  _closed s = false
  /\ _tracks (state (fireSample onSample k x s)) = _tracks s
  /\ _firstSamples (state (fireSample onSample k x s)) = _firstSamples s.
Proof.
  unfold fireSample. rewrite handled_state. destruct (closes (onSample k x)).
  - now rewrite start_close_closed.
  - simpl. auto.
Qed.

Lemma flushTrack_open k l : forall s,
  _closed (state (flushTrack onSample k l s)) = false ->
  _closed s = false
  /\ _tracks (state (flushTrack onSample k l s)) = _tracks s
  /\ _firstSamples (state (flushTrack onSample k l s)) = _firstSamples s.
Proof.
  induction l as [|x l IH]; intros s; cbn [flushTrack]; [simpl; auto|].
  pose proof (fireSample_open k x s) as H1.
  destruct (fireSample onSample k x s) as [s1|s1]; cbn [state] in H1.
  - destruct (_closed s1) eqn:E; [cbn [state]; congruence|].
    intros H. destruct (IH _ H) as (_ & -> & ->). apply H1. reflexivity.
  - cbn [state]. exact H1.
Qed.

Lemma flush_open m : forall s,
  _closed (state (flush onSample m s)) = false ->
  _closed s = false /\ _tracks (state (flush onSample m s)) = _tracks s.
Proof.
  induction m as [|[k l] m IH]; intros s; cbn [flush]; [simpl; auto|].
  destruct (negb _ && negb _).
  - intros H. destruct (IH _ H) as (Hc & ->). auto.
  - pose proof (flushTrack_open k l s) as H1.
    destruct (flushTrack onSample k l s) as [s1|s1]; cbn [state] in H1.
    + destruct (_closed s1) eqn:E; [cbn [state]; congruence|].
      intros H. destruct (IH _ H) as (_ & ->).
      destruct (H1 eq_refl) as (Hc & Ht & _). auto.
    + cbn [state]. intros H. destruct (H1 H) as (Hc & Ht & _). auto.
Qed.

Lemma updateTrack_open type v s :
  _closed (state (_updateTrack onTrackChange type v s)) = false ->
  _closed s = false
  /\ (forall type',
        track type' (_tracks (state (_updateTrack onTrackChange type v s))) = None ->
        track type' (_tracks s) = None)
  /\ _firstSamples (state (_updateTrack onTrackChange type v s)) = _firstSamples s.
Proof.
  unfold _updateTrack. destruct s as [closed [a b] fs tr].
  cbn [_closed _tracks _firstSamples Start.trace].
  destruct closed; cbn [negb andb state _closed]; [discriminate|].
  destruct (match track type _ with Some _ => _ | None => _ end); [|simpl; auto].
  assert (Hset : forall type', track type' (set_track type v (Media.mkTracks a b)) = None ->
                   track type' (Media.mkTracks a b) = None)
    by (intros []; destruct type; simpl; congruence).
  destruct (v =? -1); unfold emit; cbn [_closed _tracks _firstSamples Start.trace];
    destruct (Media.audio (set_track type v _)) as [a'|] eqn:Ea; try (simpl; auto; fail);
    destruct (Media.video (set_track type v _)) as [b'|] eqn:Eb; try (simpl; auto; fail);
    rewrite handled_state;
    (destruct (closes (onTrackChange a' b')); [now rewrite start_close_closed | simpl; auto]).
Qed.

(** An exception of [_updateTrack] is one of [onTrackChange], which is
    called once both tracks are known. *)
Lemma updateTrack_thrown type v s s1 :
  _updateTrack onTrackChange type v s = Thrown s1 ->
  _closed s1 = true
  \/ (Media.audio (_tracks s1) <> None /\ Media.video (_tracks s1) <> None).
Proof.
  unfold _updateTrack.
  destruct (negb (_closed s) && _); [|discriminate].
  set (s2 := if v =? -1 then _ else _).
  destruct (Media.audio (_tracks s2)) as [a|] eqn:Ea; [|discriminate].
  destruct (Media.video (_tracks s2)) as [b|] eqn:Eb; [|discriminate].
  unfold handled. destruct (throws _); [|discriminate]. intros [= <-].
  destruct (closes _); [left; apply start_close_closed|].
  right. cbn [emit _tracks]. rewrite Ea, Eb. split; discriminate.
Qed.

Lemma updateTrack_handed type v s k :
  handed k (state (_updateTrack onTrackChange type v s)) = handed k s.
Proof.
  unfold _updateTrack.
  destruct (negb (_closed s) && _); [|reflexivity].
  set (s1 := mk (_closed s) _ _ _).
  assert (H1 : handed k s1 = handed k s) by reflexivity.
  assert (H2 : handed k (if v =? -1 then emit [LogDisabled type] s1 else s1) = handed k s).
  { destruct (v =? -1); [|exact H1]. rewrite handed_emit, H1. simpl. apply app_nil_r. }
  destruct (Media.audio _) as [a|]; [|exact H2].
  destruct (Media.video _) as [b|]; [|exact H2].
  rewrite handled_state.
  destruct (closes (onTrackChange a b)); rewrite ?start_handed_close, handed_emit, H2; simpl;
    apply app_nil_r.
Qed.

Lemma onSample_open v sample s :
  _closed (state (_onSample onSample v sample s)) = false ->
  _closed s = false /\ _tracks (state (_onSample onSample v sample s)) = _tracks s.
Proof.
  unfold _onSample. destruct (_closed s) eqn:Hc; [cbn [state]; congruence|].
  destruct (_firstSamples s) as [fs|].
  - cbn [_tracks]. destruct (Media.audio (_tracks s)); [|simpl; auto].
    destruct (Media.video (_tracks s)); [|simpl; auto].
    intros H. apply flush_open in H as (_ & ->). auto.
  - destruct sample as [x|]; [|simpl; auto].
    intros H. apply fireSample_open in H as (_ & -> & _). auto.
Qed.

(** *** While a track is not known *)

Lemma handOver_waits type v sample s :
  _closed (state (handOver' type v sample s)) = false ->
  (Media.audio (_tracks (state (handOver' type v sample s))) = None
   \/ Media.video (_tracks (state (handOver' type v sample s))) = None) ->
  _closed s = false
  /\ (Media.audio (_tracks s) = None \/ Media.video (_tracks s) = None)
  /\ forall fs, _firstSamples s = Some fs ->
       _firstSamples (state (handOver' type v sample s))
       = Some (match sample with Some x => Samples.push v x fs | None => fs end)
       /\ forall k, handed k (state (handOver' type v sample s)) = handed k s.
Proof.
  unfold handOver. intros Hc Ht.
  pose proof (updateTrack_open type v s) as Hopen.
  pose proof (updateTrack_handed type v s) as Hhand.
  pose proof (updateTrack_thrown type v s) as Hthrown.
  destruct (_updateTrack onTrackChange type v s) as [s0|s0]; cbn [state] in *.
  2:{ exfalso. destruct (Hthrown s0 eq_refl) as [Hcl|[Ha Hv]]; [congruence|].
      destruct Ht as [Ht|Ht]; contradiction. }
  destruct (onSample_open _ _ _ Hc) as (Hc0 & Htr). rewrite Htr in Ht.
  destruct (Hopen Hc0) as (Hcs & Hnone & Hfs).
  split; [exact Hcs|].
  split.
  { destruct Ht as [Ht|Ht]; [left; apply (Hnone KAudio Ht) | right; apply (Hnone KVideo Ht)]. }
  intros fs Hs. rewrite <- Hfs in Hs.
  assert (Heq : _onSample onSample v sample s0
                = Done (mk false (_tracks s0)
                     (Some (match sample with Some x => Samples.push v x fs | None => fs end))
                     (Start.trace s0))).
  { unfold _onSample. rewrite Hc0, Hs. cbn [_tracks].
    destruct Ht as [-> | ->]; [reflexivity|].
    now destruct (Media.audio _). }
  rewrite Heq. cbn [state]. split; [reflexivity|].
  intros k. rewrite <- (Hhand k). reflexivity.
Qed.

(** X15: as long as the audio track or the video track in play is not
    known, no sample has been handed over to [onSample]; every sample
    received is kept among the first samples, track by track in the
    order received. *)
Theorem samples_wait_for_both_tracks (calls : list (Kind * Z * option Media.Sample)) :
  let s := run' calls Start.new in
  _closed s = false ->
  Media.audio (_tracks s) = None \/ Media.video (_tracks s) = None ->
  exists fs,
    _firstSamples s = Some fs
    /\ forall k, handed k s = []
               /\ Samples.samplesOf k (Samples._samples fs) = received k calls.
Proof.
  cbv zeta. induction calls as [|c calls IH] using rev_ind; intros Hc Ht.
  - exists Samples.new. split; [reflexivity|]. intros k. split; reflexivity.
  - rewrite run_snoc in Hc, Ht |- *. destruct c as [[type v] sample].
    cbn [fst snd] in *.
    destruct (handOver_waits _ _ _ _ Hc Ht) as (Hc0 & Ht0 & Hstep).
    destruct (IH Hc0 Ht0) as (fs & Hfs & Hk).
    destruct (Hstep fs Hfs) as (Hfs' & Hh).
    eexists. split; [exact Hfs'|].
    intros k. destruct (Hk k) as [Hhk Hsk]. rewrite Hh, received_snoc.
    split; [exact Hhk|].
    destruct sample as [x|]; simpl.
    + rewrite samplesOf_append, Hsk. destruct (v =? k); reflexivity.
    + rewrite Hsk. destruct (v =? k); now rewrite app_nil_r.
Qed.

(** *** The order of the samples handed over *)

(** A closed Source keeps no first samples, and the tracks of the first
    samples are listed once each. *)
Local Abbreviation tidy s :=
  ((_closed s = true -> _firstSamples s = None)
   /\ (forall fs, _firstSamples s = Some fs -> NoDup (map fst (Samples._samples fs)))).

(** An [onSample] that throws has closed the Source. *)
Local Abbreviation closing_throws :=
  (forall trackId sample,
     throws (onSample trackId sample) = true -> closes (onSample trackId sample) = true).

Lemma samplesOf_notin k m : k ∉ map fst m -> Samples.samplesOf k m = [].
Proof.
  induction m as [|[k0 l] m IH]; [reflexivity|]. simpl. intros Hn.
  apply not_elem_of_cons in Hn as [Hne Hn].
  destruct (Z.eqb_spec k0 k); [congruence | now apply IH].
Qed.

Lemma fireSample_handed k' x s k :
  handed k (state (fireSample onSample k' x s))
  = handed k s ++ (if k' =? k then [x] else []).
Proof.
  unfold fireSample. rewrite handled_state.
  destruct (closes (onSample k' x)); rewrite ?start_handed_close, handed_emit; simpl;
    now destruct (k' =? k).
Qed.

Lemma fireSample_tidy k' x s :
  (_closed s = true -> _firstSamples s = None) ->
  (_closed (state (fireSample onSample k' x s)) = true ->
   _firstSamples (state (fireSample onSample k' x s)) = None).
Proof.
  unfold fireSample. rewrite handled_state. unfold close.
  destruct (closes (onSample k' x)); cbn [emit _closed _firstSamples]; [|auto].
  destruct (_closed s); cbn [_closed _firstSamples]; auto.
Qed.

Lemma fireSample_thrown k' x s s1 :
  closing_throws -> fireSample onSample k' x s = Thrown s1 -> _closed s1 = true.
Proof.
  intros Hct. unfold fireSample, handled.
  destruct (throws (onSample k' x)) eqn:Et; [|discriminate].
  rewrite (Hct _ _ Et). intros [= <-]. apply start_close_closed.
Qed.

Lemma flushTrack_handed k' k l : forall s,
  exists d, d `sublist_of` l
    /\ handed k (state (flushTrack onSample k' l s))
       = handed k s ++ (if k' =? k then d else []).
Proof.
  induction l as [|x l IH]; intros s; cbn [flushTrack].
  - exists []. split; [constructor|]. cbn [state]. destruct (k' =? k); now rewrite app_nil_r.
  - pose proof (fireSample_handed k' x s k) as H1.
    destruct (fireSample onSample k' x s) as [s1|s1]; cbn [state] in H1.
    + destruct (_closed s1).
      * exists [x]. split; [apply sublist_skip, sublist_nil_l|]. exact H1.
      * destruct (IH s1) as (d & Hd & ->).
        exists (x :: d). split; [now apply sublist_skip|].
        rewrite H1, <- app_assoc. now destruct (k' =? k).
    + exists [x]. split; [apply sublist_skip, sublist_nil_l|]. exact H1.
Qed.

Lemma flushTrack_tidy k' l : forall s,
  (_closed s = true -> _firstSamples s = None) ->
  (_closed (state (flushTrack onSample k' l s)) = true ->
   _firstSamples (state (flushTrack onSample k' l s)) = None).
Proof.
  induction l as [|x l IH]; intros s Hs; cbn [flushTrack]; [exact Hs|].
  pose proof (fireSample_tidy k' x s Hs) as H1.
  destruct (fireSample onSample k' x s) as [s1|s1]; cbn [state] in H1; [|exact H1].
  destruct (_closed s1) eqn:E; [cbn [state]; auto|].
  apply IH. congruence.
Qed.

Lemma flushTrack_thrown k' l : forall s s1,
  closing_throws -> flushTrack onSample k' l s = Thrown s1 -> _closed s1 = true.
Proof.
  induction l as [|x l IH]; intros s s1 Hct; cbn [flushTrack]; [discriminate|].
  pose proof (fireSample_thrown k' x s) as H1.
  destruct (fireSample onSample k' x s) as [s2|s2].
  - destruct (_closed s2); [discriminate|]. now apply IH.
  - intros [= <-]. now apply H1.
Qed.

Lemma flush_handed k m : forall s,
  NoDup (map fst m) ->
  exists d, d `sublist_of` Samples.samplesOf k m
    /\ handed k (state (flush onSample m s)) = handed k s ++ d.
Proof.
  induction m as [|[k' l] m IH]; intros s Hnd; cbn [flush].
  - exists []. split; [constructor|]. unfold handed. cbn [state Start.trace].
    now rewrite app_nil_r.
  - cbn [map fst] in Hnd. apply NoDup_cons in Hnd as [Hk' Hnd].
    cbn [Samples.samplesOf].
    destruct (negb _ && negb _).
    + destruct (IH (emit [LogUseless k'] s) Hnd) as (d & Hd & ->).
      rewrite handed_emit. simpl. rewrite app_nil_r.
      destruct (Z.eqb_spec k' k) as [->|Hne].
      * rewrite samplesOf_notin in Hd by exact Hk'.
        exists []. split; [apply sublist_nil_l|].
        apply sublist_nil_r in Hd. now rewrite Hd.
      * exists d. auto.
    + destruct (flushTrack_handed k' k l s) as (d1 & Hd1 & H1).
      assert (Hstop : exists d, d `sublist_of`
                        (if k' =? k then l else Samples.samplesOf k m)
                      /\ handed k (state (flushTrack onSample k' l s)) = handed k s ++ d).
      { rewrite H1. destruct (Z.eqb_spec k' k) as [->|Hne].
        - exists d1. auto.
        - exists []. split; [apply sublist_nil_l | reflexivity]. }
      destruct (flushTrack onSample k' l s) as [s1|s1]; cbn [state] in H1, Hstop;
        [|exact Hstop].
      destruct (_closed s1); [exact Hstop|].
      destruct (IH s1 Hnd) as (d & Hd & ->).
      rewrite H1, <- app_assoc. destruct (Z.eqb_spec k' k) as [->|Hne].
      * rewrite samplesOf_notin in Hd by exact Hk'.
        apply sublist_nil_r in Hd. subst d. rewrite app_nil_r.
        exists d1. auto.
      * exists d. auto.
Qed.

Lemma flush_waiting m : forall s,
  closing_throws ->
  (_closed s = true -> _firstSamples s = None) ->
  _firstSamples (state (flush onSample m s)) = None.
Proof.
  induction m as [|[k' l] m IH]; intros s Hct Hs; cbn [flush]; [reflexivity|].
  destruct (negb _ && negb _); [apply IH; [exact Hct | exact Hs]|].
  pose proof (flushTrack_tidy k' l s Hs) as H1.
  pose proof (flushTrack_thrown k' l s) as H2.
  destruct (flushTrack onSample k' l s) as [s1|s1]; cbn [state] in H1.
  - destruct (_closed s1) eqn:E; [cbn [state]; auto|].
    apply IH; [exact Hct | congruence].
  - cbn [state]. apply H1. now apply (H2 s1).
Qed.

Lemma updateTrack_tidy type v s :
  tidy s -> tidy (state (_updateTrack onTrackChange type v s))
  /\ forall k, waiting k (state (_updateTrack onTrackChange type v s))
               `sublist_of` waiting k s.
Proof.
  intros [Hc Hn]. unfold _updateTrack.
  destruct (negb (_closed s) && _) eqn:Hb; [|split; [split; assumption | reflexivity]].
  apply andb_true_iff in Hb as [Hopen _]. apply negb_true_iff in Hopen.
  set (s1 := mk (_closed s) _ _ _).
  set (s2 := if v =? -1 then emit [LogDisabled type] s1 else s1).
  assert (H2 : _closed s2 = false /\ _firstSamples s2 = _firstSamples s)
    by (subst s2 s1; destruct (v =? -1); simpl; auto).
  destruct H2 as [H2c H2f].
  assert (Hkeep : tidy s2 /\ forall k, waiting k s2 `sublist_of` waiting k s).
  { split; [split; [congruence | rewrite H2f; exact Hn]|].
    intros k. unfold waiting. now rewrite H2f. }
  destruct (Media.audio _) as [a|]; [|exact Hkeep].
  destruct (Media.video _) as [b|]; [|exact Hkeep].
  rewrite handled_state.
  destruct (closes (onTrackChange a b)).
  - unfold close, emit. rewrite H2c. cbn [_closed _firstSamples].
    split; [split; [reflexivity | discriminate]|].
    intros k. apply sublist_nil_l.
  - unfold emit. cbn [_closed _firstSamples]. unfold waiting. cbn [_firstSamples].
    split; [split; [congruence | rewrite H2f; exact Hn]|].
    intros k. now rewrite H2f.
Qed.

Lemma handOver_order type v sample s :
  closing_throws ->
  tidy s ->
  tidy (state (handOver' type v sample s))
  /\ forall k,
       handed k (state (handOver' type v sample s))
         ++ waiting k (state (handOver' type v sample s))
       `sublist_of` (handed k s ++ waiting k s) ++ rcv k (type, v, sample).
Proof.
  intros Hct Hs. unfold handOver.
  destruct (updateTrack_tidy type v s Hs) as [[Hc Hn] Hw].
  pose proof (updateTrack_handed type v s) as Hh.
  destruct (_updateTrack onTrackChange type v s) as [s0|s0]; cbn [state] in Hc, Hn, Hw, Hh.
  2:{ cbn [state]. split; [split; assumption|].
      intros k. rewrite Hh. apply sublist_inserts_r, sublist_app; [reflexivity | apply Hw]. }
  assert (Hbase : forall k, handed k s0 ++ waiting k s0 `sublist_of`
                            (handed k s ++ waiting k s) ++ rcv k (type, v, sample)).
  { intros k. rewrite Hh. apply sublist_inserts_r, sublist_app; [reflexivity | apply Hw]. }
  unfold _onSample.
  destruct (_closed s0) eqn:Hc0;
    [cbn [state]; split; [split; [intros _; apply Hc; reflexivity | exact Hn] | exact Hbase]|].
  clear Hc. assert (Hc : _closed s0 = true -> _firstSamples s0 = None) by congruence.
  destruct (_firstSamples s0) as [fs|] eqn:Hfs.
  - set (fs1 := match sample with Some smp => Samples.push v smp fs | None => fs end).
    assert (Hnd1 : NoDup (map fst (Samples._samples fs1))).
    { subst fs1. destruct sample as [x|]; [|now apply Hn].
      cbn [Samples.push Samples._samples]. rewrite keys_append.
      apply add_NoDup. now apply Hn. }
    assert (Hs1 : forall k, Samples.samplesOf k (Samples._samples fs1)
                            = waiting k s0 ++ rcv k (type, v, sample)).
    { intros k. unfold waiting. rewrite Hfs. subst fs1.
      destruct sample as [x|]; simpl.
      - rewrite samplesOf_append. now destruct (v =? k).
      - destruct (v =? k); now rewrite app_nil_r. }
    assert (Hsub : forall k, handed k s0 ++ waiting k s0 ++ rcv k (type, v, sample)
                             `sublist_of`
                             (handed k s ++ waiting k s) ++ rcv k (type, v, sample)).
    { intros k. rewrite Hh, <- app_assoc.
      apply sublist_app; [reflexivity|].
      apply sublist_app; [apply Hw | reflexivity]. }
    cbn [_tracks].
    destruct (Media.audio (_tracks s0)) as [a|];
      [destruct (Media.video (_tracks s0)) as [b|]|].
    + (* flush *)
      set (t := emit [LogFlush] _).
      assert (Ht : _closed t = true -> _firstSamples t = None)
        by (subst t; cbn [emit _closed]; congruence).
      pose proof (flush_waiting (Samples._samples fs1) t Hct Ht) as Hnone.
      split; [split; [auto | rewrite Hnone; discriminate]|].
      intros k. destruct (flush_handed k (Samples._samples fs1) t Hnd1) as (d & Hd & ->).
      unfold waiting at 1. rewrite Hnone, app_nil_r.
      etransitivity; [|apply Hsub].
      replace (handed k t) with (handed k s0)
        by (subst t; rewrite handed_emit; simpl; now rewrite app_nil_r).
      apply sublist_app; [reflexivity|]. now rewrite <- Hs1.
    + cbn [state].
      split; [split; [cbn [_closed]; congruence | intros ? [= <-]; exact Hnd1]|].
      intros k. unfold waiting at 1. cbn [_firstSamples]. rewrite Hs1. apply Hsub.
    + cbn [state].
      split; [split; [cbn [_closed]; congruence | intros ? [= <-]; exact Hnd1]|].
      intros k. unfold waiting at 1. cbn [_firstSamples]. rewrite Hs1. apply Hsub.
  - assert (Hc' : _closed s0 = true -> _firstSamples s0 = None) by congruence.
    destruct sample as [x|];
      [|cbn [state]; split; [split; [exact Hc' | intros fs Hf; congruence] | exact Hbase]].
    split.
    + split; [apply fireSample_tidy; exact Hc'|].
      intros fs Hf. exfalso.
      destruct (_closed (state (fireSample onSample v x s0))) eqn:E.
      * rewrite (fireSample_tidy v x s0 Hc' E) in Hf. discriminate.
      * apply fireSample_open in E as (_ & _ & E). congruence.
    + intros k. rewrite fireSample_handed.
      assert (Hw' : waiting k (state (fireSample onSample v x s0)) = []).
      { unfold waiting.
        destruct (_closed (state (fireSample onSample v x s0))) eqn:E.
        - now rewrite (fireSample_tidy v x s0 Hc' E).
        - apply fireSample_open in E as (_ & _ & ->). now rewrite Hfs. }
      rewrite Hw', app_nil_r. simpl.
      apply sublist_app; [rewrite Hh; apply sublist_inserts_r; reflexivity|].
      destruct (v =? k); reflexivity.
Qed.

Lemma run_tidy calls : closing_throws -> tidy (run' calls Start.new).
Proof.
  intros Hct. induction calls as [|c calls IH] using rev_ind.
  - split; [discriminate|]. intros fs [= <-]. constructor.
  - rewrite run_snoc. now apply handOver_order.
Qed.

(** X16: when [onSample] does not throw, or only once it has closed
    the Source, then for each track the samples handed over to
    [onSample], followed by the first samples still kept, are samples
    received for the track, in the order received and each one at most
    once, whenever the tracks in play change, whether the handlers
    close the Source or not and whatever [onTrackChange] throws. *)
Theorem samples_keep_their_order (calls : list (Kind * Z * option Media.Sample)) (k : Z) :
  (forall trackId sample,
     throws (onSample trackId sample) = true -> closes (onSample trackId sample) = true) ->
  let s := run' calls Start.new in
  handed k s ++ waiting k s `sublist_of` received k calls.
Proof.
  intros Hct. cbv zeta. induction calls as [|c calls IH] using rev_ind; [reflexivity|].
  rewrite run_snoc, received_snoc. destruct c as [[type v] sample]. cbn [fst snd].
  etransitivity; [apply handOver_order; [exact Hct | now apply run_tidy]|].
  apply sublist_app; [exact IH | reflexivity].
Qed.

(** *** Nothing after [onClose] *)

(** [onClose] is fired when the Source closes, and is then the last
    event. *)
Local Abbreviation sealed s :=
  (if _closed s
   then exists evs, Start.trace s = evs ++ [OnClose] /\ OnClose ∉ evs
   else OnClose ∉ Start.trace s).

Lemma sealed_emit evs s :
  _closed s = false -> sealed s -> OnClose ∉ evs ->
  sealed (emit evs s) /\ _closed (emit evs s) = false.
Proof.
  intros Hc Hs Hev. cbn [emit _closed Start.trace]. rewrite Hc in Hs |- *.
  split; [|reflexivity]. apply not_elem_of_app. auto.
Qed.

Lemma sealed_close s : sealed s -> sealed (close s).
Proof.
  unfold close. destruct (_closed s) eqn:Hc; [now rewrite Hc|].
  cbn [_closed Start.trace]. eauto.
Qed.

Lemma sealed_handled o s : sealed s -> sealed (state (handled o s)).
Proof.
  intros Hs. rewrite handled_state. destruct (closes o); [now apply sealed_close | exact Hs].
Qed.

Lemma sealed_fireSample k x s :
  _closed s = false -> sealed s -> sealed (state (fireSample onSample k x s)).
Proof.
  intros Hc Hs. unfold fireSample.
  destruct (sealed_emit [OnSample k x] s Hc Hs) as [He _].
  { intros H. apply list_elem_of_singleton in H. discriminate. }
  apply sealed_handled, He.
Qed.

Lemma sealed_flushTrack k l : forall s,
  _closed s = false -> sealed s -> sealed (state (flushTrack onSample k l s)).
Proof.
  induction l as [|x l IH]; intros s Hc Hs; cbn [flushTrack]; [exact Hs|].
  pose proof (sealed_fireSample k x s Hc Hs) as H1.
  destruct (fireSample onSample k x s) as [s1|s1]; cbn [state] in H1; [|exact H1].
  destruct (_closed s1) eqn:E; [cbn [state]; rewrite E; exact H1|].
  apply IH; [exact E | rewrite E; exact H1].
Qed.

Lemma sealed_flush m : forall s,
  _closed s = false -> sealed s -> sealed (state (flush onSample m s)).
Proof.
  induction m as [|[k l] m IH]; intros s Hc Hs; cbn [flush].
  - cbn [state _closed Start.trace]. now rewrite Hc in Hs |- *.
  - destruct (negb _ && negb _).
    + destruct (sealed_emit [LogUseless k] s Hc Hs) as [He Hce].
      { intros H. apply list_elem_of_singleton in H. discriminate. }
      now apply IH.
    + pose proof (sealed_flushTrack k l s Hc Hs) as H1.
      destruct (flushTrack onSample k l s) as [s1|s1]; cbn [state] in H1; [|exact H1].
      destruct (_closed s1) eqn:E; [cbn [state]; rewrite E; exact H1|].
      apply IH; [exact E | rewrite E; exact H1].
Qed.

Lemma sealed_updateTrack type v s :
  sealed s -> sealed (state (_updateTrack onTrackChange type v s)).
Proof.
  intros Hs. unfold _updateTrack.
  destruct (negb (_closed s) && _) eqn:Hb; [|exact Hs].
  apply andb_true_iff in Hb as [Hopen _]. apply negb_true_iff in Hopen.
  set (s1 := mk (_closed s) _ _ _).
  assert (H1 : sealed s1 /\ _closed s1 = false)
    by (subst s1; cbn [_closed Start.trace]; rewrite Hopen in Hs |- *; auto).
  set (s2 := if v =? -1 then emit [LogDisabled type] s1 else s1).
  assert (H2 : sealed s2 /\ _closed s2 = false).
  { subst s2. destruct (v =? -1); [|exact H1].
    apply sealed_emit; try apply H1.
    intros H. apply list_elem_of_singleton in H. discriminate. }
  destruct (Media.audio _) as [a|]; [|apply H2].
  destruct (Media.video _) as [b|]; [|apply H2].
  destruct (sealed_emit [OnTrackChange a b] s2 (proj2 H2) (proj1 H2)) as [He _].
  { intros H. apply list_elem_of_singleton in H. discriminate. }
  apply sealed_handled, He.
Qed.

Lemma sealed_onSample v sample s :
  sealed s -> sealed (state (_onSample onSample v sample s)).
Proof.
  intros Hs. unfold _onSample. destruct (_closed s) eqn:Hc; [cbn [state]; now rewrite Hc|].
  destruct (_firstSamples s) as [fs|].
  - set (s1 := mk false _ _ _).
    assert (H1 : sealed s1 /\ _closed s1 = false) by (subst s1; simpl; auto).
    destruct (Media.audio _); [|apply H1].
    destruct (Media.video _); [|apply H1].
    destruct (sealed_emit [LogFlush] s1 (proj2 H1) (proj1 H1)) as [He Hce].
    { intros H. apply list_elem_of_singleton in H. discriminate. }
    now apply sealed_flush.
  - destruct sample as [x|]; [|cbn [state]; now rewrite Hc].
    apply sealed_fireSample; [exact Hc | now rewrite Hc].
Qed.

Lemma sealed_handOver type v sample s :
  sealed s -> sealed (state (handOver' type v sample s)).
Proof.
  intros Hs. unfold handOver.
  pose proof (sealed_updateTrack type v s Hs) as H1.
  destruct (_updateTrack onTrackChange type v s) as [s1|s1]; cbn [state] in H1;
    [|exact H1].
  apply sealed_onSample, H1.
Qed.

(** X17: whatever the hand-overs and the handlers, [onClose] is fired
    by the Source exactly when it closes, once, and nothing is fired
    after it: no sample is handed over and no track change is
    announced once the Source is closed, not even within the flush of
    the first samples that closed it. *)
Theorem nothing_is_fired_after_close (calls : list (Kind * Z * option Media.Sample)) :
  let s := run' calls Start.new in
  if _closed s
  then exists evs, Start.trace s = evs ++ [OnClose] /\ OnClose ∉ evs
  else OnClose ∉ Start.trace s.
Proof.
  cbv zeta. induction calls as [|c calls IH] using rev_ind.
  - simpl. apply not_elem_of_nil.
  - rewrite run_snoc. apply sealed_handOver, IH.
Qed.

End StartOfStream.

Section StartOfStreamWitness.

Import Start.

Lemma samples_wait_for_both_tracks_witness :
  let x := Media.mkSample 1000 20 [1] None None None in
  let y := Media.mkSample 1000 40 [2] None (Some true) None in
  let s := run (fun _ _ => mkHandled false false) (fun _ _ => mkHandled false false)
               [(KAudio, 0, Some x); (KAudio, 0, Some y)] Start.new in
  exists fs, _firstSamples s = Some fs
             /\ handed 0 s = []
             /\ Samples.samplesOf 0 (Samples._samples fs) = [x; y].
Proof.
  intros x y s.
  assert (Hc : _closed s = false) by reflexivity.
  assert (Ht : Media.audio (_tracks s) = None \/ Media.video (_tracks s) = None)
    by (right; reflexivity).
  destruct (samples_wait_for_both_tracks (fun _ _ => mkHandled false false)
              (fun _ _ => mkHandled false false)
              [(KAudio, 0, Some x); (KAudio, 0, Some y)] Hc Ht) as (fs & Hfs & Hk).
  exists fs. split; [exact Hfs|]. destruct (Hk 0) as [Hh Hs]. split; [exact Hh | exact Hs].
Defined.

(** An [onTrackChange] that throws loses the sample of its hand-over;
    the others keep their order. *)
Lemma samples_keep_their_order_witness :
  let x := Media.mkSample 1000 20 [1] None None None in
  let y := Media.mkSample 1000 40 [2] None (Some true) None in
  let z := Media.mkSample 1020 20 [3] None None None in
  let calls := [(KAudio, 0, Some x); (KVideo, 1, Some y); (KAudio, 0, Some z)] in
  let s := run (fun _ _ => mkHandled false true) (fun _ _ => mkHandled false false)
               calls Start.new in
  handed 0 s ++ waiting 0 s `sublist_of` [x; z]
  /\ handed 0 s = [x; z]
  /\ handed 1 s = [].
Proof.
  intros x y z calls s.
  split; [|split; reflexivity].
  apply (samples_keep_their_order (fun _ _ => mkHandled false true)
           (fun _ _ => mkHandled false false) calls 0).
  intros trackId sample H. discriminate H.
Defined.

(** An [onSample] that throws while the first samples are flushed
    leaves them in place: the next hand-over flushes them again. *)
Lemma a_throwing_onSample_gets_the_first_samples_again :
  let x := Media.mkSample 1000 20 [1] None None None in
  let y := Media.mkSample 1000 40 [2] None (Some true) None in
  let z := Media.mkSample 1020 20 [3] None None None in
  let calls := [(KAudio, 0, Some x); (KVideo, 1, Some y); (KAudio, 0, Some z)] in
  let s := run (fun _ _ => mkHandled false false)
               (fun _ sample => mkHandled false (Media.duration sample =? 40))
               calls Start.new in
  received 0 calls = [x; z] /\ handed 0 s = [x; x; z].
Proof. split; reflexivity. Qed.

End StartOfStreamWitness.

(** ** HTTPAdaptiveSource: the probes of the skip loop *)

Section SkipProbes.

Import HTTPAdaptiveSource.

Variables (head : Z -> Z -> Response) (clock : nat -> Z).

Lemma skipLoop_probes m cur tracks : forall fuel i st st' j,
  skipLoop head clock m cur tracks fuel i st = Some (Returns (st', j)) ->
  exists seqs,
    s_requests st'
    = s_requests st
      ++ match skipTrack tracks with
         | Some track => map (fun q => request AudioController track q (Some 0)) seqs
         | None => []
         end
    /\ StronglySorted Z.gt seqs
    /\ Forall (fun q => s_sequence st < q
                        /\ forall p, s_newSequence st = Some p -> q < p) seqs
    /\ (s_sequence st' = s_sequence st /\ s_again st' = s_again st
        \/ last seqs = Some (s_sequence st') /\ s_again st' = false).
Proof.
  induction fuel as [|fuel IH]; intros i st st' j H; [discriminate|].
  cbn [skipLoop] in H.
  destruct (Source.liveTime (clock i) m >? cur).
  2:{ injection H as <- _. exists [].
      destruct (skipTrack tracks); repeat split; auto; try constructor;
        rewrite ?app_nil_r; auto. }
  destruct (skipTrack tracks) as [track|] eqn:Ht; [|discriminate].
  set (cand := candidate _ _ _ _) in H.
  assert (Hcand : forall p, s_newSequence st = Some p -> cand < p).
  { intros p Hp. subst cand. unfold candidate. rewrite Hp. lia. }
  destruct (cand <=? s_sequence st) eqn:Hle.
  { injection H as <- _. exists []. simpl. rewrite ?app_nil_r.
    repeat split; auto; constructor. }
  apply Z.leb_gt in Hle.
  destruct (ok (head track cand) && (cand >? s_sequence st)) eqn:Hok.
  { injection H as <- _. exists [cand]. simpl.
    repeat split; auto; repeat constructor; auto. }
  apply IH in H. destruct H as (seqs & Hr & Hs & Hf & Hl).
  cbn [s_requests s_sequence s_newSequence s_again] in Hr, Hf, Hl.
  exists (cand :: seqs). repeat split.
  - rewrite Hr, <- app_assoc. reflexivity.
  - constructor; [exact Hs|].
    eapply Forall_impl; [exact Hf|]. intros q [_ Hq]. simpl in Hq.
    specialize (Hq cand eq_refl). lia.
  - constructor; [split; auto|].
    eapply Forall_impl; [exact Hf|]. intros q [Hq1 Hq2]. simpl in *.
    split; [exact Hq1|]. intros p Hp. specialize (Hq2 cand eq_refl).
    specialize (Hcand p Hp). lia.
  - destruct Hl as [Hl|[Hl Ha]]; [left; exact Hl|right].
    split; [|exact Ha]. destruct seqs; [discriminate|exact Hl].
Qed.

(** X18: whatever the answers of the network and the clock, the skip
    framing block that returns has only added HEAD requests on the track
    it probes (the audio track if enabled, else the video one), for
    sequences that strictly decrease and are all above the current
    sequence; the sequence is either unchanged or the one of the last
    request, so it never moves backwards. *)
Theorem skip_probes_go_down_to_the_sequence (fuel : nat) (bufferState : Player.BufferState)
    (buffering : bool) (s s' : t) :
  skipFraming fuel head clock bufferState buffering s = Some (Returns s') ->
  exists seqs,
    requests s'
    = requests s
      ++ match skipTrack (tracks s) with
         | Some track => map (fun q => request AudioController track q (Some 0)) seqs
         | None => []
         end
    /\ StronglySorted Z.gt seqs
    /\ Forall (fun q => sequence s < q) seqs
    /\ (sequence s' = sequence s \/ last seqs = Some (sequence s'))
    /\ sequence s <= sequence s'.
Proof.
  intros H. unfold skipFraming in H.
  assert (Hsame : Some (Returns s) = Some (Returns s') \/
     (exists maxd mm st i,
        skipLoop head clock mm (currentTime s) (tracks s) fuel 0%nat
          (mkSkip (sequence s) None 0 maxd (again s) [] []) = Some (Returns (st, i))
        /\ requests s' = requests s ++ s_requests st
        /\ sequence s' = s_sequence st) \/
     (requests s' = requests s /\ sequence s' = sequence s)).
  { destruct (negb (reliable s) && Player.BufferState_eqb bufferState Player.LOW && buffering).
    - destruct (_maxSequenceDuration s) as [maxd|].
      + destruct (metadata s) as [mm|].
        * destruct (skipLoop _ _ _ _ _ _ _ _) as [[[st i]|msg]|] eqn:E; try discriminate.
          injection H as <-. right; left. exists maxd, mm, st, i. auto.
        * injection H as <-. right; right. auto.
      + injection H as <-. right; right. auto.
    - left. exact H. }
  assert (Hnone : requests s' = requests s /\ sequence s' = sequence s ->
            exists seqs,
              requests s'
              = requests s
                ++ match skipTrack (tracks s) with
                   | Some track => map (fun q => request AudioController track q (Some 0)) seqs
                   | None => []
                   end
              /\ StronglySorted Z.gt seqs
              /\ Forall (fun q => sequence s < q) seqs
              /\ (sequence s' = sequence s \/ last seqs = Some (sequence s'))
              /\ sequence s <= sequence s').
  { intros [Hr Hq]. exists []. rewrite Hr, Hq.
    destruct (skipTrack (tracks s)); simpl; rewrite app_nil_r;
      repeat split; auto; try constructor; lia. }
  destruct Hsame as [Hsame|[(maxd & mm & st & i & Hloop & Hr & Hq)|Hsame]].
  - injection Hsame as <-. apply Hnone. auto.
  - apply skipLoop_probes in Hloop. destruct Hloop as (seqs & Hr' & Hs & Hf & Hl).
    cbn [s_requests s_sequence s_newSequence s_again app] in Hr', Hf, Hl.
    assert (Hf' : Forall (fun q => sequence s < q) seqs).
    { eapply Forall_impl; [exact Hf|]. intros q [Hq1 _]. exact Hq1. }
    exists seqs. rewrite Hr, Hr', Hq. repeat split; auto.
    + destruct Hl as [[Hl _]|[Hl _]]; [left|right]; exact Hl.
    + destruct Hl as [[Hl _]|[Hl _]]; [lia|].
      apply last_Some_elem_of in Hl.
      rewrite Forall_forall in Hf'. specialize (Hf' _ Hl). lia.
  - apply Hnone. exact Hsame.
Qed.

End SkipProbes.

Section SkipProbesWitness.

Import HTTPAdaptiveSource.

Lemma skip_probes_go_down_to_the_sequence_witness :
  let head := fun (track sequence : Z) => mkResponse (sequence =? 101) (Some 1000) 0 in
  let clock := fun (_ : nat) => 10 in
  let s := mk false (Some (Source.mkLiveClock 8500 10)) 5000 5000 (Some 1000)
              (Media.mkTracks (Some 0) (Some 1)) 100 true (Some 4000) (Some 99)
              AdaptiveRetry.new false [] [] in
  exists s' seqs,
    skipFraming 4 head clock Player.LOW true s = Some (Returns s')
    /\ requests s' = map (fun q => request AudioController 0 q (Some 0)) seqs
    /\ StronglySorted Z.gt seqs
    /\ last seqs = Some 101
    /\ sequence s' = 101.
Proof.
  intros head clock s.
  assert (Hrun : exists s', skipFraming 4 head clock Player.LOW true s = Some (Returns s')
                            /\ sequence s' = 101).
  { eexists. split; [vm_compute; reflexivity|reflexivity]. }
  destruct Hrun as (s' & Hrun & Hseq).
  destruct (skip_probes_go_down_to_the_sequence head clock 4 Player.LOW true s s' Hrun)
    as (seqs & Hr & Hs & _ & Hl & _).
  exists s', seqs. repeat split; auto.
  destruct Hl as [Hl|Hl]; [rewrite Hseq in Hl; discriminate Hl|].
  rewrite Hl, Hseq. reflexivity.
Defined.

End SkipProbesWitness.

(** ** Player: the buffer limits stay ordered *)

Section BufferLimits.

Import Player Limits.

Lemma setBufferState_limits state p :
  _bufferLimitLow (_setBufferState state p) = _bufferLimitLow p
  /\ _bufferLimitMiddle (_setBufferState state p) = _bufferLimitMiddle p
  /\ _bufferLimitHigh (_setBufferState state p) = _bufferLimitHigh p.
Proof.
  unfold _setBufferState. destruct (negb _); simpl; auto.
Qed.

Lemma onTimeUpdate_limits bufferAmount p :
  _bufferLimitLow (_onTimeUpdate bufferAmount p) = _bufferLimitLow p
  /\ _bufferLimitMiddle (_onTimeUpdate bufferAmount p) = _bufferLimitMiddle p
  /\ _bufferLimitHigh (_onTimeUpdate bufferAmount p) = _bufferLimitHigh p.
Proof.
  unfold _onTimeUpdate.
  repeat match goal with
         | |- context [if ?b then _ else _] => destruct b
         end;
    try (match goal with
         | |- context [_setBufferState ?s ?q] =>
             destruct (setBufferState_limits s q) as (-> & -> & ->)
         end);
    simpl; auto.
Qed.

Lemma call_centred c p : centred p -> centred (call c p).
Proof.
  intros [H1 H2]. destruct c as [value|value|bufferAmount]; unfold centred; simpl.
  - split; [lia|]. reflexivity.
  - split; [lia|]. reflexivity.
  - destruct (onTimeUpdate_limits bufferAmount p) as (-> & -> & ->). auto.
Qed.

Lemma run_centred calls : forall p, centred p -> centred (run calls p).
Proof.
  induction calls as [|c calls IH]; intros p H; [exact H|].
  apply IH, call_centred, H.
Qed.

(** X19: whatever limits are set and whatever time updates come, in any
    order, the buffer limits of a player stay ordered: the low limit is
    at most the middle one and at most the high one, the middle one is
    at most the high one as soon as the high one is not negative, and
    with a low limit that is not negative the middle one is the
    midpoint of the two others, rounded up.  The limit a setter is
    given is stored as given: it is the other limit that is moved. *)
Theorem buffer_limits_stay_ordered (calls : list Call) :
  let p := run calls Player.new in
  (_bufferLimitLow p <= _bufferLimitMiddle p
   /\ _bufferLimitLow p <= _bufferLimitHigh p
   /\ (0 <= _bufferLimitHigh p -> _bufferLimitMiddle p <= _bufferLimitHigh p)
   /\ (0 <= _bufferLimitLow p ->
       0 <= 2 * _bufferLimitMiddle p - (_bufferLimitLow p + _bufferLimitHigh p) <= 1))
  /\ (forall value, _bufferLimitLow (call (SetLow value) p) = value
                    /\ _bufferLimitHigh (call (SetLow value) p)
                       = Z.max value (_bufferLimitHigh p))
  /\ (forall value, _bufferLimitHigh (call (SetHigh value) p) = value
                    /\ _bufferLimitLow (call (SetHigh value) p)
                       = Z.min value (_bufferLimitLow p)).
Proof.
  intros p.
  assert (H : centred p).
  { apply run_centred. split; [vm_compute; discriminate|reflexivity]. }
  destruct H as [H1 H2]. unfold round_half in H2.
  set (low := _bufferLimitLow p) in *. set (high := _bufferLimitHigh p) in *.
  pose proof (Z.div_mod (high - low + 1) 2 ltac:(lia)) as Hd.
  pose proof (Z.mod_pos_bound (high - low + 1) 2 ltac:(lia)) as Hm.
  split; [repeat split; try lia|split].
  - intros value. simpl. fold high. split; lia.
  - intros value. simpl. fold low. split; lia.
Qed.

End BufferLimits.

(** ** MediaPlayback: closing *)

Section PlaybackClose.

Import MediaPlayback.

Lemma close_closed_state error p : _mediaSource p = false -> close error p = p.
Proof. intros H. unfold close. rewrite H. reflexivity. Qed.

Lemma close_trace error p :
  _mediaSource p = true ->
  trace (close error p)
  = trace p
    ++ match _audioBuffer p, _videoBuffer p with
       | Some audio, _ => [AbortBuffer audio]
       | None, Some video => [AbortBuffer video]
       | None, None => []
       end
    ++ [EndOfStream; OnClose error]
  /\ _audioBuffer (close error p) = _audioBuffer p
  /\ _videoBuffer (close error p) = None
  /\ _mediaSource (close error p) = false.
Proof.
  intros H. unfold close. rewrite H.
  destruct p as [[a|] [v|] ms tr]; simpl; rewrite <- ?app_assoc; auto.
Qed.

Lemma call_late c p :
  _mediaSource p = false -> _videoBuffer p = None ->
  _mediaSource (call c p) = false
  /\ _videoBuffer (call c p) = None
  /\ _audioBuffer (call c p) = _audioBuffer p
  /\ exists evs, trace (call c p) = trace p ++ evs /\ Forall (isLate (_audioBuffer p)) evs.
Proof.
  intros Hm Hv.
  assert (Hsame : forall q, q = p ->
            _mediaSource q = false /\ _videoBuffer q = None
            /\ _audioBuffer q = _audioBuffer p
            /\ exists evs, trace q = trace p ++ evs /\ Forall (isLate (_audioBuffer p)) evs).
  { intros q ->. repeat split; auto. exists []. rewrite app_nil_r. split; auto. }
  destruct c as [creates value|creates value|trackId|trackId|exceeds|error]; simpl.
  - unfold set_audioEnabled.
    destruct (Bool.eqb (audioEnabled p) value) eqn:E; [apply Hsame; reflexivity|].
    destruct value; [|apply Hsame, close_closed_state, Hm].
    unfold _newBuffer. rewrite Hm. simpl.
    unfold audioEnabled in E. destruct (_audioBuffer p) eqn:Ea; [discriminate|].
    repeat split; auto. exists []. rewrite app_nil_r. split; auto.
  - unfold set_videoEnabled.
    destruct (Bool.eqb (videoEnabled p) value) eqn:E; [apply Hsame; reflexivity|].
    destruct value; [|apply Hsame, close_closed_state, Hm].
    unfold _newBuffer. rewrite Hm. simpl.
    repeat split; auto. exists []. rewrite app_nil_r. split; auto.
  - unfold appendAudio. destruct (_audioBuffer p) as [audio|] eqn:Ea.
    + simpl. repeat split; auto. exists [AppendBuffer audio trackId]. split; [reflexivity|].
      constructor; [|constructor]. right. exists trackId. reflexivity.
    + apply Hsame, close_closed_state, Hm.
  - unfold appendVideo. rewrite Hv. apply Hsame, close_closed_state, Hm.
  - unfold onError. destruct exceeds; [|apply Hsame, close_closed_state, Hm].
    simpl. repeat split; auto. exists [OnBufferOverflow]. split; [reflexivity|].
    constructor; [|constructor]. left. reflexivity.
  - apply Hsame, close_closed_state, Hm.
Qed.

Lemma run_late calls : forall p,
  _mediaSource p = false -> _videoBuffer p = None ->
  _mediaSource (run calls p) = false
  /\ _videoBuffer (run calls p) = None
  /\ _audioBuffer (run calls p) = _audioBuffer p
  /\ exists evs, trace (run calls p) = trace p ++ evs /\ Forall (isLate (_audioBuffer p)) evs.
Proof.
  induction calls as [|c calls IH]; intros p Hm Hv.
  - simpl. repeat split; auto. exists []. rewrite app_nil_r. split; auto.
  - destruct (call_late c p Hm Hv) as (Hm1 & Hv1 & Ha1 & evs1 & Ht1 & Hl1).
    destruct (IH (call c p) Hm1 Hv1) as (Hm2 & Hv2 & Ha2 & evs2 & Ht2 & Hl2).
    change (run (c :: calls) p) with (run calls (call c p)).
    repeat split; auto; [congruence|].
    exists (evs1 ++ evs2). rewrite Ht2, Ht1, app_assoc. split; [reflexivity|].
    apply Forall_app. split; [exact Hl1|]. rewrite <- Ha1. exact Hl2.
Qed.

(** X20: closing an open playback that has an audio buffer aborts that
    buffer only and keeps it: the video buffer is dropped without being
    aborted, and whatever is called afterwards the playback still has
    its audio buffer, so that [closed] stays false; a playback without
    audio buffer aborts its video buffer, if any, and is closed.  In
    both cases the media source is ended and [onClose] fired with the
    error given, and the calls that follow only reach the audio buffer
    kept or report a buffer overflow. *)
Theorem close_keeps_the_audio_buffer (error : option Error) (after : list Call) (p : t) :
  _mediaSource p = true ->
  let q := close error p in
  let p' := run after q in
  trace q
  = trace p
    ++ match _audioBuffer p, _videoBuffer p with
       | Some audio, _ => [AbortBuffer audio]
       | None, Some video => [AbortBuffer video]
       | None, None => []
       end
    ++ [EndOfStream; OnClose error]
  /\ _audioBuffer p' = _audioBuffer p
  /\ _videoBuffer p' = None
  /\ closed p' = negb (audioEnabled p)
  /\ exists evs, trace p' = trace q ++ evs /\ Forall (isLate (_audioBuffer p)) evs.
Proof.
  intros Hm q p'.
  destruct (close_trace error p Hm) as (Ht & Ha & Hv & Hms).
  destruct (run_late after q Hms Hv) as (_ & Hv' & Ha' & evs & Ht' & Hl).
  fold p' in Hv', Ha', Ht'. fold q in Ha, Ht.
  split; [exact Ht|]. split; [congruence|]. split; [exact Hv'|]. split.
  - unfold closed, audioEnabled. rewrite Hv', Ha', Ha. destruct (_audioBuffer p); reflexivity.
  - exists evs. split; [exact Ht'|]. rewrite <- Ha. exact Hl.
Qed.

Lemma close_keeps_the_audio_buffer_witness :
  let p := run [SetAudioEnabled true true; SetVideoEnabled true true; AppendVideo 1]
               MediaPlayback.new in
  let p' := run [AppendAudio 0; AppendVideo 1] (close None p) in
  trace (close None p)
  = trace p ++ [AbortBuffer "audio/mp4"%string; EndOfStream; OnClose None]
  /\ _videoBuffer p' = None
  /\ closed p' = false.
Proof.
  intros p p'.
  destruct (close_keeps_the_audio_buffer None [AppendAudio 0; AppendVideo 1] p eq_refl)
    as (Ht & _ & Hv & Hc & _).
  split; [exact Ht|]. split; [exact Hv|exact Hc].
Defined.

End PlaybackClose.

(** ** Metadata: the subset of the supported codecs *)

Section SubsetChains.

Import MediaTrack Metadata.

Lemma filterLoop_spec h codecs : forall fuel i tracks medias,
  (length medias <= i + fuel)%nat ->
  MetadataSubset.filterLoop fuel h codecs i tracks medias
  = (fold_left (fun t r => MetadataSubset.map_delete (id (h !!! r)) t)
       (List.filter (fun r => negb (MetadataSubset.supported h codecs r)) (drop i medias))
       tracks,
     take i medias ++ List.filter (MetadataSubset.supported h codecs) (drop i medias)).
Proof.
  induction fuel as [|fuel IH]; intros i tracks medias Hlen.
  - simpl. rewrite drop_ge by lia. rewrite take_ge by lia. simpl.
    rewrite app_nil_r. reflexivity.
  - cbn [MetadataSubset.filterLoop].
    destruct (medias !! i) as [media|] eqn:Hi.
    + rewrite (drop_S _ _ _ Hi). cbn [List.filter].
      change (MetadataSubset.set_has codecs (codec (h !!! media)))
        with (MetadataSubset.supported h codecs media).
      destruct (MetadataSubset.supported h codecs media) eqn:Hs; cbn [negb].
      * rewrite IH by lia. rewrite (take_S_r _ _ _ Hi), <- app_assoc. reflexivity.
      * pose proof (lookup_lt_Some _ _ _ Hi) as Hlt.
        rewrite IH by (rewrite length_delete by eauto; lia).
        rewrite delete_take_drop.
        rewrite take_app_length' by (rewrite length_take; lia).
        rewrite drop_app_length' by (rewrite length_take; lia).
        cbn [fold_left]. reflexivity.
    + apply lookup_ge_None in Hi.
      rewrite drop_ge by lia. rewrite take_ge by lia. simpl.
      rewrite app_nil_r. reflexivity.
Qed.

Lemma filter_spec h codecs tracks medias :
  MetadataSubset.filter h codecs tracks medias
  = (fold_left (fun t r => MetadataSubset.map_delete (id (h !!! r)) t)
       (List.filter (fun r => negb (MetadataSubset.supported h codecs r)) medias) tracks,
     List.filter (MetadataSubset.supported h codecs) medias).
Proof.
  unfold MetadataSubset.filter. rewrite filterLoop_spec by lia. reflexivity.
Qed.

Lemma map_has_delete k j t :
  map_has k (MetadataSubset.map_delete j t) = map_has k t && negb (j =? k).
Proof.
  unfold map_has, MetadataSubset.map_delete.
  induction t as [|[a v] t IH]; [reflexivity|]. cbn [List.filter existsb fst].
  destruct (a =? j) eqn:Ej; cbn [negb existsb fst].
  - rewrite IH. apply Z.eqb_eq in Ej. subst a.
    destruct (j =? k) eqn:Ek; cbn [negb orb]; [|reflexivity].
    rewrite !andb_false_r. reflexivity.
  - rewrite IH. destruct (a =? k) eqn:Ek; cbn [orb]; [|reflexivity].
    apply Z.eqb_eq in Ek. subst a. rewrite Z.eqb_sym, Ej. reflexivity.
Qed.

Lemma map_has_deletes (h : heap) k R : forall t,
  map_has k (fold_left (fun t r => MetadataSubset.map_delete (id (h !!! r)) t) R t)
  = map_has k t && negb (existsb (fun r => id (h !!! r) =? k) R).
Proof.
  induction R as [|r R IH]; intros t; cbn [fold_left existsb].
  - rewrite andb_true_r. reflexivity.
  - rewrite IH, map_has_delete, negb_orb, andb_assoc. reflexivity.
Qed.

Lemma map_has_elem k t : map_has k t = true <-> exists r, (k, r) ∈ t.
Proof.
  unfold map_has. rewrite existsb_exists. split.
  - intros ([a r] & Hin & Heq). apply Z.eqb_eq in Heq. simpl in Heq. subst a.
    exists r. apply list_elem_of_In, Hin.
  - intros (r & Hin). exists (k, r). split; [apply list_elem_of_In, Hin|].
    apply Z.eqb_eq. reflexivity.
Qed.

Lemma deletes_elem (h : heap) R : forall t kv,
  kv ∈ fold_left (fun t r => MetadataSubset.map_delete (id (h !!! r)) t) R t
  <-> kv ∈ t /\ existsb (fun r => id (h !!! r) =? fst kv) R = false.
Proof.
  induction R as [|r R IH]; intros t kv; cbn [fold_left existsb].
  - tauto.
  - rewrite IH. unfold MetadataSubset.map_delete.
    rewrite !list_elem_of_In, List.filter_In.
    rewrite orb_false_iff, negb_true_iff, (Z.eqb_sym (fst kv)). tauto.
Qed.

Lemma set_up_same (tr : MediaTrack.t) : set_up (up tr) tr = tr.
Proof. destruct tr; reflexivity. Qed.

Lemma set_down_same (tr : MediaTrack.t) : set_down (down tr) tr = tr.
Proof. destruct tr; reflexivity. Qed.

Variables (h0 : heap) (T : TrackMap).

Local Abbreviation kept := (fun x : ref => map_has (id (h0 !!! x)) T).

(** The loop on [up] stops at the nearest track above that is still
    in the map. *)
Lemma fixUp_walk r : forall pre fuel h,
  (length pre < fuel)%nat ->
  r ∉ pre ->
  (forall x : ref, id (h !!! x) = id (h0 !!! x)) ->
  (forall p1 x p2, pre = p1 ++ x :: p2 -> kept x = false -> up (h !!! x) = last p1) ->
  up (h !!! r) = last pre ->
  exists h', MetadataSubset.fixUp fuel T r h = Some h'
    /\ h' !!! r = set_up (last (List.filter kept pre)) (h !!! r)
    /\ forall x, x <> r -> h' !!! x = h !!! x.
Proof.
  induction pre as [|x p1 IH] using rev_ind; intros fuel h Hfuel Hr Hid Hch Hup.
  - destruct fuel as [|fuel]; [simpl in Hfuel; lia|].
    cbn [MetadataSubset.fixUp]. rewrite Hup. simpl.
    exists h. split; [reflexivity|]. split; [|reflexivity].
    change (@None ref) with (last (@nil ref)). rewrite <- Hup. symmetry. apply set_up_same.
  - rewrite last_snoc in Hup. rewrite length_app in Hfuel. simpl in Hfuel.
    destruct fuel as [|fuel]; [lia|].
    cbn [MetadataSubset.fixUp]. rewrite Hup, Hid.
    rewrite List.filter_app. cbn [List.filter]. cbv beta.
    destruct (map_has (id (h0 !!! x)) T) eqn:Hk; cbn [negb].
    + exists h. split; [reflexivity|]. split; [|reflexivity].
      rewrite last_snoc, <- Hup. symmetry. apply set_up_same.
    + rewrite app_nil_r.
      assert (Hx : x <> r).
      { intros ->. apply Hr. apply elem_of_app. right. apply list_elem_of_singleton.
        reflexivity. }
      assert (Hux : up (h !!! x) = last p1).
      { apply (Hch p1 x []); [reflexivity|exact Hk]. }
      rewrite Hux.
      destruct (IH fuel (<[r := set_up (last p1) (h !!! r)]> h)) as (h' & Hf & Hr' & Ho).
      * lia.
      * intros Hin. apply Hr. apply elem_of_app. left. exact Hin.
      * intros y. destruct (decide (y = r)) as [->|Hy].
        -- rewrite lookup_total_insert_eq. simpl. apply Hid.
        -- rewrite lookup_total_insert_ne by congruence. apply Hid.
      * intros q1 y q2 Heq Hky.
        assert (Hy : y <> r).
        { intros ->. apply Hr. rewrite Heq. apply elem_of_app. left.
          apply elem_of_app. right. left. }
        rewrite lookup_total_insert_ne by congruence.
        apply (Hch q1 y (q2 ++ [x])); [|exact Hky].
        rewrite Heq, <- app_assoc. reflexivity.
      * rewrite lookup_total_insert_eq. reflexivity.
      * exists h'. split; [exact Hf|]. split.
        -- rewrite Hr', lookup_total_insert_eq. destruct (h !!! r); reflexivity.
        -- intros y Hy. rewrite Ho by exact Hy.
           rewrite lookup_total_insert_ne by congruence. reflexivity.
Qed.

(** The loop on [down] stops at the nearest track below that is still
    in the map. *)
Lemma fixDown_walk r : forall post fuel h,
  (length post < fuel)%nat ->
  r ∉ post ->
  (forall x : ref, id (h !!! x) = id (h0 !!! x)) ->
  (forall p1 x p2, post = p1 ++ x :: p2 -> kept x = false -> down (h !!! x) = head p2) ->
  down (h !!! r) = head post ->
  exists h', MetadataSubset.fixDown fuel T r h = Some h'
    /\ h' !!! r = set_down (head (List.filter kept post)) (h !!! r)
    /\ forall x, x <> r -> h' !!! x = h !!! x.
Proof.
  induction post as [|x p2 IH]; intros fuel h Hfuel Hr Hid Hch Hdown.
  - destruct fuel as [|fuel]; [simpl in Hfuel; lia|].
    cbn [MetadataSubset.fixDown]. rewrite Hdown. simpl.
    exists h. split; [reflexivity|]. split; [|reflexivity].
    change (@None ref) with (head (@nil ref)). rewrite <- Hdown. symmetry.
    apply set_down_same.
  - simpl in Hdown. simpl in Hfuel.
    destruct fuel as [|fuel]; [lia|].
    cbn [MetadataSubset.fixDown]. rewrite Hdown, Hid.
    cbn [List.filter]. cbv beta.
    destruct (map_has (id (h0 !!! x)) T) eqn:Hk; cbn [negb].
    + exists h. split; [reflexivity|]. split; [|reflexivity].
      simpl. rewrite <- Hdown. symmetry. apply set_down_same.
    + assert (Hx : x <> r).
      { intros ->. apply Hr. left. }
      assert (Hdx : down (h !!! x) = head p2).
      { apply (Hch [] x p2); [reflexivity|exact Hk]. }
      rewrite Hdx.
      destruct (IH fuel (<[r := set_down (head p2) (h !!! r)]> h)) as (h' & Hf & Hr' & Ho).
      * lia.
      * intros Hin. apply Hr. right. exact Hin.
      * intros y. destruct (decide (y = r)) as [->|Hy].
        -- rewrite lookup_total_insert_eq. simpl. apply Hid.
        -- rewrite lookup_total_insert_ne by congruence. apply Hid.
      * intros q1 y q2 Heq Hky.
        assert (Hy : y <> r).
        { intros ->. apply Hr. rewrite Heq. right. apply elem_of_app. right. left. }
        rewrite lookup_total_insert_ne by congruence.
        apply (Hch (x :: q1) y q2); [|exact Hky].
        rewrite Heq. reflexivity.
      * rewrite lookup_total_insert_eq. reflexivity.
      * exists h'. split; [exact Hf|]. split.
        -- rewrite Hr', lookup_total_insert_eq. destruct (h !!! r); reflexivity.
        -- intros y Hy. rewrite Ho by exact Hy.
           rewrite lookup_total_insert_ne by congruence. reflexivity.
Qed.

Lemma fixUp_stop r fuel h :
  (0 < fuel)%nat ->
  (forall u, up (h !!! r) = Some u -> map_has (id (h !!! u)) T = true) ->
  MetadataSubset.fixUp fuel T r h = Some h.
Proof.
  intros Hfuel Hu. destruct fuel as [|fuel]; [lia|]. cbn [MetadataSubset.fixUp].
  destruct (up (h !!! r)) as [u|]; [|reflexivity]. rewrite (Hu u eq_refl). reflexivity.
Qed.

Lemma fixDown_stop r fuel h :
  (0 < fuel)%nat ->
  (forall d, down (h !!! r) = Some d -> map_has (id (h !!! d)) T = true) ->
  MetadataSubset.fixDown fuel T r h = Some h.
Proof.
  intros Hfuel Hd. destruct fuel as [|fuel]; [lia|]. cbn [MetadataSubset.fixDown].
  destruct (down (h !!! r)) as [d|]; [|reflexivity]. rewrite (Hd d eq_refl). reflexivity.
Qed.

Lemma split_unique (x : ref) : forall pre post pre' post',
  NoDup (pre ++ x :: post) ->
  pre ++ x :: post = pre' ++ x :: post' ->
  pre = pre' /\ post = post'.
Proof.
  induction pre as [|a pre IH]; intros post pre' post' Hnd Heq.
  - destruct pre' as [|b pre']; simpl in Heq.
    + injection Heq as ->. auto.
    + injection Heq as <- ->. simpl in Hnd. apply NoDup_cons in Hnd as [Hnd _].
      exfalso. apply Hnd. apply elem_of_app. right. left.
  - destruct pre' as [|b pre']; simpl in Heq.
    + injection Heq as -> <-. simpl in Hnd. apply NoDup_cons in Hnd as [Hnd _].
      exfalso. apply Hnd. apply elem_of_app. right. left.
    + injection Heq as <- Heq. simpl in Hnd. apply NoDup_cons in Hnd as [_ Hnd].
      destruct (IH _ _ _ Hnd Heq) as [-> ->]. auto.
Qed.

Lemma last_filter_kept (f : ref -> bool) l u :
  last (List.filter f l) = Some u -> f u = true /\ u ∈ l.
Proof.
  intros H. apply last_Some_elem_of in H.
  apply list_elem_of_In, List.filter_In in H. destruct H as [H1 H2].
  split; [exact H2|]. apply list_elem_of_In, H1.
Qed.

Lemma head_filter_kept (f : ref -> bool) l u :
  head (List.filter f l) = Some u -> f u = true /\ u ∈ l.
Proof.
  intros H. apply head_Some_elem_of in H.
  apply list_elem_of_In, List.filter_In in H. destruct H as [H1 H2].
  split; [exact H2|]. apply list_elem_of_In, H1.
Qed.

Variable m : Metadata.t.

Local Abbreviation chain :=
  (fun L : list ref => L = audioTracks m \/ L = videoTracks m \/ L = dataTracks m).

Hypothesis Hlinked : forall L, chain L -> linked h0 None L.
Hypothesis Hnodup : NoDup (MetadataSubset.all m).

Lemma chain_all L x : chain L -> x ∈ L -> x ∈ MetadataSubset.all m.
Proof.
  unfold MetadataSubset.all. intros [-> | [-> | ->]] H; rewrite !elem_of_app; auto.
Qed.

Lemma all_chain x : x ∈ MetadataSubset.all m -> exists L, chain L /\ x ∈ L.
Proof.
  unfold MetadataSubset.all. rewrite !elem_of_app. intros [H|[H|H]]; eauto 6.
Qed.

Lemma chain_NoDup L : chain L -> NoDup L.
Proof.
  pose proof Hnodup as H. unfold MetadataSubset.all in H.
  apply NoDup_app in H as (Ha & _ & H). apply NoDup_app in H as (Hv & _ & Hd).
  intros [-> | [-> | ->]]; assumption.
Qed.

Lemma chain_length L : chain L -> (length L <= length (MetadataSubset.all m))%nat.
Proof.
  unfold MetadataSubset.all. intros [-> | [-> | ->]]; rewrite !length_app; lia.
Qed.

Lemma chain_unique L L' x : chain L -> chain L' -> x ∈ L -> x ∈ L' -> L = L'.
Proof.
  pose proof Hnodup as H. unfold MetadataSubset.all in H.
  apply NoDup_app in H as (_ & Hav & H). apply NoDup_app in H as (_ & Hvd & _).
  intros [-> | [-> | ->]] [-> | [-> | ->]] H1 H2; try reflexivity; exfalso.
  - apply (Hav x H1). apply elem_of_app. auto.
  - apply (Hav x H1). apply elem_of_app. auto.
  - apply (Hav x H2). apply elem_of_app. auto.
  - apply (Hvd x H1 H2).
  - apply (Hav x H2). apply elem_of_app. auto.
  - apply (Hvd x H2 H1).
Qed.

(** The heap once the tracks of [done] have been through the loops:
    each of them points to its nearest neighbours still in the map,
    the other tracks are as they were. *)
Local Abbreviation relinked :=
  (fun (h : heap) (done : list ref) =>
     (forall x : ref, id (h !!! x) = id (h0 !!! x))
     /\ (forall x : ref, x ∉ done -> h !!! x = h0 !!! x)
     /\ (forall (x : ref) L pre post,
           x ∈ done -> chain L -> L = pre ++ x :: post ->
           h !!! x = set_down (head (List.filter kept post))
                       (set_up (last (List.filter kept pre)) (h0 !!! x)))).

Lemma relink_step fuel e h done :
  (length (MetadataSubset.all m) < fuel)%nat ->
  kept e = true -> e ∈ MetadataSubset.all m ->
  (forall x, x ∈ done -> kept x = true) ->
  relinked h done ->
  exists h', MetadataSubset.relink fuel T (Some h) e = Some h' /\ relinked h' (e :: done).
Proof.
  intros Hfuel Hke He Hdone (Hid & Hnot & Hin).
  destruct (all_chain e He) as (L & HL & HeL).
  apply list_elem_of_split in HeL as (pre & post & HeL).
  cbn [MetadataSubset.relink].
  destruct (decide (e ∈ done)) as [Hd|Hd].
  - pose proof (Hin e L pre post Hd HL HeL) as Hh.
    rewrite fixUp_stop; [|lia|].
    2:{ intros u Hu. rewrite Hh in Hu. simpl in Hu.
        apply last_filter_kept in Hu as [Hu _]. rewrite Hid. exact Hu. }
    rewrite fixDown_stop; [|lia|].
    2:{ intros d Hdn. rewrite Hh in Hdn. simpl in Hdn.
        apply head_filter_kept in Hdn as [Hdn _]. rewrite Hid. exact Hdn. }
    exists h. split; [reflexivity|]. split; [exact Hid|]. split.
    + intros x Hx. apply Hnot. intros Hxd. apply Hx. right. exact Hxd.
    + intros x L' pre' post' Hx HL' Heq. apply (Hin x L' pre' post'); auto.
      apply elem_of_cons in Hx as [->|Hx]; assumption.
  - pose proof (chain_NoDup L HL) as Hnd. rewrite HeL in Hnd.
    pose proof (chain_length L HL) as Hlen. rewrite HeL, length_app in Hlen.
    simpl in Hlen.
    pose proof (Hlinked L HL) as Hl. rewrite HeL in Hl.
    apply NoDup_app in Hnd as (_ & Hpre & Hpost).
    apply NoDup_cons in Hpost as (Hpost & _).
    destruct (linked_middle h0 pre e post Hl) as [Hup Hdown].
    assert (Hsame : forall x, kept x = false -> h !!! x = h0 !!! x).
    { intros x Hk. apply Hnot. intros Hxd. apply Hdone in Hxd. congruence. }
    destruct (fixUp_walk e pre fuel h) as (h1 & Hf1 & He1 & Ho1).
    + lia.
    + intros Hx. apply (Hpre e Hx). left.
    + exact Hid.
    + intros p1 x p2 Heq Hk. rewrite (Hsame x Hk).
      rewrite Heq, <- app_assoc in Hl. apply (linked_middle h0 _ _ _ Hl).
    + rewrite (Hnot e Hd). exact Hup.
    + rewrite Hf1.
      destruct (fixDown_walk e post fuel h1) as (h2 & Hf2 & He2 & Ho2).
      * lia.
      * exact Hpost.
      * intros x. destruct (decide (x = e)) as [->|Hx].
        -- rewrite He1. simpl. apply Hid.
        -- rewrite Ho1 by exact Hx. apply Hid.
      * intros p1 x p2 Heq Hk.
        assert (Hx : x <> e).
        { intros ->. apply Hpost. rewrite Heq. apply elem_of_app. right. left. }
        rewrite Ho1 by exact Hx. rewrite (Hsame x Hk).
        rewrite Heq in Hl.
        change (pre ++ e :: p1 ++ x :: p2) with (pre ++ (e :: p1) ++ x :: p2) in Hl.
        rewrite app_assoc in Hl. apply (linked_middle h0 _ _ _ Hl).
      * rewrite He1. simpl. rewrite (Hnot e Hd). exact Hdown.
      * exists h2. split; [exact Hf2|]. split; [|split].
        -- intros x. destruct (decide (x = e)) as [->|Hx].
           ++ rewrite He2, He1. simpl. apply Hid.
           ++ rewrite Ho2, Ho1 by exact Hx. apply Hid.
        -- intros x Hx.
           assert (Hxe : x <> e) by (intros ->; apply Hx; left).
           rewrite Ho2, Ho1 by exact Hxe. apply Hnot.
           intros Hxd. apply Hx. right. exact Hxd.
        -- intros x L' pre' post' Hx HL' Heq.
           destruct (decide (x = e)) as [->|Hxe].
           ++ assert (HLL : L' = L).
              { apply (chain_unique L' L e HL' HL).
                - rewrite Heq. apply elem_of_app. right. left.
                - rewrite HeL. apply elem_of_app. right. left. }
              rewrite HLL, HeL in Heq.
              pose proof (chain_NoDup L HL) as Hnd. rewrite HeL in Hnd.
              destruct (split_unique e pre post pre' post' Hnd Heq) as [<- <-].
              rewrite He2, He1, (Hnot e Hd). reflexivity.
           ++ rewrite Ho2, Ho1 by exact Hxe.
              apply (Hin x L' pre' post'); auto.
              apply elem_of_cons in Hx as [Hx|Hx]; [contradiction|exact Hx].
Qed.

Lemma relink_all fuel : forall E h done,
  (length (MetadataSubset.all m) < fuel)%nat ->
  Forall (fun e => kept e = true /\ e ∈ MetadataSubset.all m) E ->
  (forall x, x ∈ done -> kept x = true) ->
  relinked h done ->
  exists h', fold_left (MetadataSubset.relink fuel T) E (Some h) = Some h'
             /\ relinked h' (rev E ++ done).
Proof.
  induction E as [|e E IH]; intros h done Hfuel HE Hdone Hinv.
  - exists h. split; [reflexivity|exact Hinv].
  - apply Forall_cons in HE as [[Hke He] HE].
    destruct (relink_step fuel e h done Hfuel Hke He Hdone Hinv) as (h1 & Hr & Hinv1).
    destruct (IH h1 (e :: done) Hfuel HE) as (h' & Hf & Hinv').
    + intros x Hx. apply elem_of_cons in Hx as [->|Hx]; [exact Hke|apply Hdone, Hx].
    + exact Hinv1.
    + exists h'. cbn [fold_left]. rewrite Hr. split; [exact Hf|].
      simpl. rewrite <- app_assoc. exact Hinv'.
Qed.

Lemma linked_of_nearest (h' : heap) : forall L prev,
  (forall pre x post, L = pre ++ x :: post -> kept x = true ->
     up (h' !!! x) = from_option Some prev (last (List.filter kept pre))
     /\ down (h' !!! x) = head (List.filter kept post)) ->
  linked h' prev (List.filter kept L).
Proof.
  induction L as [|a L IH]; intros prev H; [exact I|].
  cbn [List.filter]. cbv beta.
  destruct (map_has (id (h0 !!! a)) T) eqn:Hk.
  - destruct (H [] a L eq_refl Hk) as [Hup Hdown].
    split; [exact Hup|]. split; [exact Hdown|].
    apply IH. intros pre x post Heq Hx.
    destruct (H (a :: pre) x post) as [Hu Hd]; [rewrite Heq; reflexivity|exact Hx|].
    split; [|exact Hd]. rewrite Hu. cbn [List.filter]. cbv beta. rewrite Hk.
    destruct (List.filter kept pre) as [|b l] eqn:E; [reflexivity|].
    rewrite last_cons_cons. destruct (last (b :: l)) eqn:El; [reflexivity|].
    apply last_None in El. discriminate.
  - apply IH. intros pre x post Heq Hx.
    destruct (H (a :: pre) x post) as [Hu Hd]; [rewrite Heq; reflexivity|exact Hx|].
    split; [|exact Hd]. rewrite Hu. cbn [List.filter]. cbv beta. rewrite Hk. reflexivity.
Qed.

Lemma relinked_linked h' done L :
  relinked h' done ->
  (forall x, x ∈ MetadataSubset.all m -> kept x = true -> x ∈ done) ->
  chain L ->
  linked h' None (List.filter kept L).
Proof.
  intros (_ & _ & Hin) Hdone HL. apply linked_of_nearest.
  intros pre x post Heq Hx.
  assert (Hd : x ∈ done).
  { apply Hdone; [|exact Hx]. apply (chain_all L); [exact HL|].
    rewrite Heq. apply elem_of_app. right. left. }
  rewrite (Hin x L pre post Hd HL Heq). simpl.
  split; [|reflexivity]. destruct (last (List.filter kept pre)); reflexivity.
Qed.

Lemma relinked_core h' done :
  relinked h' done ->
  (forall x, x ∈ done -> kept x = true /\ x ∈ MetadataSubset.all m) ->
  forall r, same_core (h' !!! r) (h0 !!! r)
            /\ (kept r = false -> h' !!! r = h0 !!! r).
Proof.
  intros (_ & Hnot & Hin) Hdone r.
  destruct (decide (r ∈ done)) as [Hd|Hd].
  - destruct (Hdone r Hd) as [Hk Hall].
    destruct (all_chain r Hall) as (L & HL & HrL).
    apply list_elem_of_split in HrL as (pre & post & HrL).
    rewrite (Hin r L pre post Hd HL HrL). split; [repeat split|].
    intros Hk'. congruence.
  - rewrite (Hnot r Hd). split; [repeat split|reflexivity].
Qed.

End SubsetChains.

Section SubsetOfCodecs.

Import MediaTrack Metadata.

Lemma NoDup_map_inj {A B} (f : A -> B) : forall l : list A,
  NoDup (map f l) ->
  NoDup l /\ forall x y, x ∈ l -> y ∈ l -> f x = f y -> x = y.
Proof.
  induction l as [|a l IH]; intros H.
  - split; [constructor|]. intros x y Hx. apply elem_of_nil in Hx. contradiction.
  - simpl in H. apply NoDup_cons in H as [Ha H]. destruct (IH H) as [Hnd Hinj].
    assert (Hf : forall x, x ∈ l -> f x <> f a).
    { intros x Hx Heq. apply Ha. rewrite <- Heq. apply list_elem_of_In, in_map.
      apply list_elem_of_In, Hx. }
    split.
    + apply NoDup_cons. split; [|exact Hnd]. intros Hin. apply (Hf a Hin). reflexivity.
    + intros x y Hx Hy Heq.
      apply elem_of_cons in Hx as [->|Hx]; apply elem_of_cons in Hy as [->|Hy].
      * reflexivity.
      * exfalso. apply (Hf y Hy). congruence.
      * exfalso. apply (Hf x Hx). congruence.
      * apply Hinj; assumption.
Qed.

Variables (h : heap) (m : Metadata.t) (codecs : list Media.Codec).

Hypothesis Hchained : MetadataSubset.chained h m.

Local Abbreviation sup := (MetadataSubset.supported h codecs).

Local Abbreviation removed :=
  (List.filter (fun r => negb (sup r)) (audioTracks m)
   ++ List.filter (fun r => negb (sup r)) (videoTracks m)).

Local Abbreviation left_ :=
  (fold_left (fun t r => MetadataSubset.map_delete (id (h !!! r)) t) removed (tracks m)).

Lemma chained_inj x y :
  x ∈ MetadataSubset.all m -> y ∈ MetadataSubset.all m ->
  id (h !!! x) = id (h !!! y) -> x = y.
Proof.
  destruct Hchained as (_ & _ & _ & Hids & _).
  apply NoDup_map_inj in Hids as [_ Hinj]. apply Hinj.
Qed.

Lemma chained_NoDup : NoDup (MetadataSubset.all m).
Proof.
  destruct Hchained as (_ & _ & _ & Hids & _).
  apply NoDup_map_inj in Hids as [Hnd _]. exact Hnd.
Qed.

Lemma chained_entry x :
  x ∈ MetadataSubset.all m -> (id (h !!! x), x) ∈ tracks m.
Proof.
  intros Hx. destruct Hchained as (_ & _ & _ & _ & Hent & Hhas).
  rewrite Forall_forall in Hhas. specialize (Hhas x Hx).
  apply map_has_elem in Hhas as (r & Hr).
  rewrite Forall_forall in Hent. destruct (Hent _ Hr) as [Hid Hall]. simpl in Hid, Hall.
  rewrite (chained_inj x r Hx Hall Hid). rewrite Hid in Hr. exact Hr.
Qed.

Lemma removed_elem x :
  x ∈ removed <-> (x ∈ audioTracks m \/ x ∈ videoTracks m) /\ sup x = false.
Proof.
  rewrite elem_of_app, !list_elem_of_In, !List.filter_In, negb_true_iff. tauto.
Qed.

Lemma removed_all x : x ∈ removed -> x ∈ MetadataSubset.all m.
Proof.
  rewrite removed_elem. unfold MetadataSubset.all. rewrite !elem_of_app. tauto.
Qed.

Lemma left_has x :
  x ∈ MetadataSubset.all m ->
  map_has (id (h !!! x)) left_ = true <-> x ∉ removed.
Proof.
  intros Hx. rewrite map_has_deletes.
  assert (Hm : map_has (id (h !!! x)) (tracks m) = true).
  { apply map_has_elem. exists x. apply chained_entry, Hx. }
  rewrite Hm. cbn [andb]. rewrite negb_true_iff. split.
  - intros He Hr. apply not_true_iff_false in He. apply He.
    apply existsb_exists. exists x. split; [apply list_elem_of_In, Hr|].
    apply Z.eqb_eq. reflexivity.
  - intros Hr. apply not_true_iff_false. intros He.
    apply existsb_exists in He as (r & Hin & Heq). apply Z.eqb_eq in Heq.
    apply list_elem_of_In in Hin.
    assert (Hxr : x = r).
    { apply (chained_inj x r Hx (removed_all r Hin)). symmetry. exact Heq. }
    subst r. contradiction.
Qed.

Lemma left_has_eq x (b : bool) :
  x ∈ MetadataSubset.all m ->
  (x ∈ removed <-> b = false) ->
  map_has (id (h !!! x)) left_ = b.
Proof.
  intros Hx Hb. pose proof (left_has x Hx) as H.
  destruct b, (map_has (id (h !!! x)) left_); try reflexivity.
  - exfalso. assert (Hr : x ∉ removed) by (rewrite Hb; discriminate).
    apply H in Hr. discriminate.
  - exfalso. assert (Hr : x ∉ removed) by (apply H; reflexivity).
    apply Hr, Hb. reflexivity.
Qed.

Lemma left_audio x :
  x ∈ audioTracks m -> map_has (id (h !!! x)) left_ = sup x.
Proof.
  intros Hx. apply left_has_eq.
  - unfold MetadataSubset.all. apply elem_of_app. auto.
  - rewrite removed_elem. tauto.
Qed.

Lemma left_video x :
  x ∈ videoTracks m -> map_has (id (h !!! x)) left_ = sup x.
Proof.
  intros Hx. apply left_has_eq.
  - unfold MetadataSubset.all. rewrite !elem_of_app. auto.
  - rewrite removed_elem. tauto.
Qed.

Lemma left_data x :
  x ∈ dataTracks m -> map_has (id (h !!! x)) left_ = true.
Proof.
  intros Hx. apply left_has_eq.
  - unfold MetadataSubset.all. rewrite !elem_of_app. auto.
  - rewrite removed_elem. split; [|discriminate]. intros [[Ha|Hv] _]; exfalso.
    + pose proof chained_NoDup as Hnd. unfold MetadataSubset.all in Hnd.
      apply NoDup_app in Hnd as (_ & Hnd & _). apply (Hnd x Ha).
      apply elem_of_app. auto.
    + pose proof chained_NoDup as Hnd. unfold MetadataSubset.all in Hnd.
      apply NoDup_app in Hnd as (_ & _ & Hnd).
      apply NoDup_app in Hnd as (_ & Hnd & _). apply (Hnd x Hv Hx).
Qed.

Lemma left_entries :
  Forall (fun e => map_has (id (h !!! e)) left_ = true /\ e ∈ MetadataSubset.all m)
         (map snd left_).
Proof.
  apply Forall_forall. intros e He.
  apply list_elem_of_In, in_map_iff in He as ([k r] & <- & Hin). simpl.
  apply list_elem_of_In in Hin.
  pose proof Hin as Hin'. apply deletes_elem in Hin' as [Hin' _].
  destruct Hchained as (_ & _ & _ & _ & Hent & _).
  rewrite Forall_forall in Hent. destruct (Hent _ Hin') as [Hid Hall].
  simpl in Hid, Hall. split; [|exact Hall].
  apply map_has_elem. exists r. rewrite <- Hid. exact Hin.
Qed.

Lemma left_done x :
  x ∈ MetadataSubset.all m -> map_has (id (h !!! x)) left_ = true ->
  x ∈ map snd left_.
Proof.
  intros Hx Hk. apply list_elem_of_In, in_map_iff.
  exists (id (h !!! x), x). split; [reflexivity|]. apply list_elem_of_In.
  apply deletes_elem. split; [apply chained_entry, Hx|]. simpl.
  rewrite map_has_deletes in Hk. apply andb_true_iff in Hk as [_ Hk].
  apply negb_true_iff in Hk. exact Hk.
Qed.

End SubsetOfCodecs.

Section SubsetKeepsChains.

Import MediaTrack Metadata.

Lemma filter_all_true {A} (f : A -> bool) (l : list A) :
  (forall x, x ∈ l -> f x = true) -> List.filter f l = l.
Proof.
  induction l as [|a l IH]; intros H; [reflexivity|]. cbn [List.filter].
  rewrite (H a) by left. f_equal. apply IH. intros x Hx. apply H. right. exact Hx.
Qed.

Lemma filter_ext_elem {A} (f g : A -> bool) (l : list A) :
  (forall x, x ∈ l -> f x = g x) -> List.filter f l = List.filter g l.
Proof.
  intros H. apply List.filter_ext_in. intros x Hx. apply H, list_elem_of_In, Hx.
Qed.

Lemma NoDup_map_filter {A B} (f : A -> B) (p : A -> bool) : forall l : list A,
  NoDup (map f l) -> NoDup (map f (List.filter p l)).
Proof.
  induction l as [|a l IH]; intros H; [exact H|].
  simpl in H. apply NoDup_cons in H as [Ha H]. cbn [List.filter].
  destruct (p a); [|apply IH, H]. simpl. apply NoDup_cons. split; [|apply IH, H].
  intros Hin. apply Ha. apply list_elem_of_In, in_map_iff in Hin as (x & Hx & Hin).
  apply List.filter_In in Hin as [Hin _].
  apply list_elem_of_In, in_map_iff. exists x. auto.
Qed.

(** X21: on a metadata whose lists are chains of tracks of distinct
    ids, each held by the map under its id, [subset] with a set of
    codecs returns, and what it returns is again such a metadata: the
    audio and video lists keep, in their order, the tracks whose codec
    is in the set, the data tracks stay, the map holds the tracks left
    and only them, and in each list [up] and [down] link every track to
    its neighbours in the list, whatever the number of tracks removed
    between them.  A track changes in its links only, and a removed one
    not at all. *)
Theorem subset_keeps_the_chains (fuel : nat) (codecs : list Media.Codec)
    (h : heap) (m : Metadata.t) :
  MetadataSubset.chained h m ->
  (length (MetadataSubset.all m) < fuel)%nat ->
  exists h' m',
    MetadataSubset.subset fuel (Some codecs) h m = Some (h', m')
    /\ audioTracks m' = List.filter (MetadataSubset.supported h codecs) (audioTracks m)
    /\ videoTracks m' = List.filter (MetadataSubset.supported h codecs) (videoTracks m)
    /\ dataTracks m' = dataTracks m
    /\ MetadataSubset.chained h' m'
    /\ (forall r, same_core (h' !!! r) (h !!! r))
    /\ (forall r, r ∈ MetadataSubset.all m -> r ∉ MetadataSubset.all m' ->
                  h' !!! r = h !!! r).
Proof.
  intros Hch Hfuel.
  pose proof Hch as (Hla & Hlv & Hld & Hids & Hent & Hhas).
  unfold MetadataSubset.subset. rewrite !filter_spec, <- fold_left_app.
  set (T := fold_left _ _ (tracks m)).
  pose proof (left_audio h m codecs Hch) as Ka. fold T in Ka.
  pose proof (left_video h m codecs Hch) as Kv. fold T in Kv.
  pose proof (left_data h m codecs Hch) as Kd. fold T in Kd.
  pose proof (left_entries h m codecs Hch) as HE. fold T in HE.
  pose proof (left_done h m codecs Hch) as Hdone. fold T in Hdone.
  pose proof (chained_NoDup h m Hch) as Hnd.
  assert (Hlinked : forall L, L = audioTracks m \/ L = videoTracks m \/ L = dataTracks m ->
                      linked h None L).
  { intros L [-> | [-> | ->]]; assumption. }
  destruct (relink_all h T m Hlinked Hnd fuel (map snd T) h [] Hfuel HE)
    as (h' & Hfold & Hrel).
  { intros x Hx. apply elem_of_nil in Hx. contradiction. }
  { split; [reflexivity|]. split; [reflexivity|].
    intros x L pre post Hx. apply elem_of_nil in Hx. contradiction. }
  rewrite Hfold. rewrite app_nil_r in Hrel.
  assert (Hin : forall x, x ∈ rev (map snd T) ->
                  map_has (id (h !!! x)) T = true /\ x ∈ MetadataSubset.all m).
  { intros x Hx. apply list_elem_of_In, in_rev, list_elem_of_In in Hx.
    rewrite Forall_forall in HE. apply HE, Hx. }
  assert (Hall : forall x, x ∈ MetadataSubset.all m ->
                   map_has (id (h !!! x)) T = true -> x ∈ rev (map snd T)).
  { intros x Hx Hk. apply list_elem_of_In. rewrite <- in_rev.
    apply list_elem_of_In. apply Hdone; assumption. }
  pose proof (relinked_core h T m h' _ Hrel Hin) as Hcore.
  assert (Hfa : List.filter (fun x : ref => map_has (id (h !!! x)) T) (audioTracks m)
                = List.filter (MetadataSubset.supported h codecs) (audioTracks m)).
  { apply filter_ext_elem. exact Ka. }
  assert (Hfv : List.filter (fun x : ref => map_has (id (h !!! x)) T) (videoTracks m)
                = List.filter (MetadataSubset.supported h codecs) (videoTracks m)).
  { apply filter_ext_elem. exact Kv. }
  assert (Hfd : List.filter (fun x : ref => map_has (id (h !!! x)) T) (dataTracks m)
                = dataTracks m).
  { apply filter_all_true. exact Kd. }
  assert (Hall' : MetadataSubset.all
                    (mk T (List.filter (MetadataSubset.supported h codecs) (audioTracks m))
                        (List.filter (MetadataSubset.supported h codecs) (videoTracks m))
                        (dataTracks m))
                  = List.filter (fun x : ref => map_has (id (h !!! x)) T)
                                (MetadataSubset.all m)).
  { unfold MetadataSubset.all. cbn [audioTracks videoTracks dataTracks].
    rewrite !List.filter_app, Hfa, Hfv, Hfd. reflexivity. }
  assert (Hmem : forall x,
            x ∈ List.filter (fun x : ref => map_has (id (h !!! x)) T) (MetadataSubset.all m)
            <-> x ∈ MetadataSubset.all m /\ map_has (id (h !!! x)) T = true).
  { intros x. rewrite list_elem_of_In, List.filter_In, list_elem_of_In. tauto. }
  eexists h', _. split; [reflexivity|].
  cbn [audioTracks videoTracks dataTracks].
  split; [reflexivity|]. split; [reflexivity|]. split; [reflexivity|].
  split; [|split].
  - unfold MetadataSubset.chained. rewrite Hall'.
    cbn [audioTracks videoTracks dataTracks tracks].
    split; [|split; [|split; [|split; [|split]]]].
    + rewrite <- Hfa. apply (relinked_linked h T m h' _ _ Hrel Hall). auto.
    + rewrite <- Hfv. apply (relinked_linked h T m h' _ _ Hrel Hall). auto.
    + rewrite <- Hfd. apply (relinked_linked h T m h' _ _ Hrel Hall). auto.
    + rewrite (map_ext _ (fun r => id (h !!! r))).
      * apply NoDup_map_filter. exact Hids.
      * intros r. apply Hrel.
    + apply Forall_forall. intros [k r] Hkr. simpl.
      assert (Hr : r ∈ map snd T).
      { apply list_elem_of_In, in_map_iff. exists (k, r). split; [reflexivity|].
        apply list_elem_of_In, Hkr. }
      rewrite Forall_forall in HE. destruct (HE r Hr) as [Hk Hr'].
      split.
      * apply deletes_elem in Hkr as [Hkr _].
        rewrite Forall_forall in Hent. destruct (Hent _ Hkr) as [Hid _]. simpl in Hid.
        rewrite Hid. symmetry. apply Hrel.
      * apply Hmem. auto.
    + apply Forall_forall. intros r Hr. apply Hmem in Hr as [_ Hk].
      destruct Hrel as (Hid & _). rewrite Hid. exact Hk.
  - intros r. apply Hcore.
  - intros r Hr Hr'. rewrite Hall' in Hr'. apply Hcore.
    destruct (map_has (id (h !!! r)) T) eqn:Hk; [|reflexivity].
    exfalso. apply Hr', Hmem. auto.
Qed.

End SubsetKeepsChains.

Section SubsetKeepsChainsWitness.

Import MediaTrack Metadata.

Lemma subset_keeps_the_chains_witness :
  let h := fst MetadataSubset.mixed in
  let m := snd MetadataSubset.mixed in
  MetadataSubset.chained h m
  /\ exists h' m',
       MetadataSubset.subset 8 (Some [Media.H264; Media.AAC]) h m = Some (h', m')
       /\ videoTracks m' = [1%nat; 4%nat]
       /\ down (h' !!! 1%nat) = Some 4%nat
       /\ up (h' !!! 4%nat) = Some 1%nat.
Proof.
  intros h m.
  assert (Hch : MetadataSubset.chained h m).
  { unfold MetadataSubset.chained. split; [|split; [|split; [|split; [|split]]]].
    - vm_compute. repeat split.
    - vm_compute. repeat split.
    - vm_compute. repeat split.
    - apply (bool_decide_unpack _). vm_compute. exact I.
    - apply (bool_decide_unpack _). vm_compute. exact I.
    - apply (bool_decide_unpack _). vm_compute. exact I. }
  assert (Hfuel : (length (MetadataSubset.all m) < 8)%nat) by (vm_compute; lia).
  split; [exact Hch|].
  destruct (subset_keeps_the_chains 8 [Media.H264; Media.AAC] h m Hch Hfuel)
    as (h' & m' & Hsub & _ & Hv & _ & Hch' & _).
  exists h', m'. split; [exact Hsub|].
  destruct Hch' as (_ & Hlv & _). rewrite Hv in Hlv.
  change (List.filter _ _) with [1%nat; 4%nat] in Hv, Hlv.
  split; [exact Hv|].
  destruct Hlv as (_ & Hd & Hu & _). split; [exact Hd|exact Hu].
Defined.

End SubsetKeepsChainsWitness.
